(** * textbus: format model, rendering fold, cursor bridge and toolbar glue

    A shallow embedding of the TypeScript sources of the editor
    (parser/single.ts, formatter/margin.formatter.ts, the [Input] and
    [Editor] classes, toolbar/commands/table.commander.ts, the list
    commander and the [Handler] interface), together with the properties
    the specification states about them.

    Conventions.  JavaScript objects that are mutated in place are kept in an
    explicit store and passed around by location; a method that may raise
    returns a [completion]; collaborators whose code is not part of the
    sources (matchers, the native geometry and style queries, the commands
    of a handler) are parameters of the definitions that call them. *)

From stdpp Require Import gmap strings list fin_maps sorting pretty.
From Stdlib Require Import ZArith Lia.

Set Default Proof Using "Type".
Local Open Scope Z_scope.

(** ** JavaScript completions *)

Module JS.

(** The host errors the embedded code can raise. *)
Inductive error :=
  | TypeError
  | HierarchyRequestError.

(** A call either returns normally or throws. *)
Inductive completion (A : Type) :=
  | Normal (a : A)
  | Throw (e : error).
Arguments Normal {A} a.
Arguments Throw {A} e.

Global Instance completion_ret : MRet completion := λ A a, Normal a.
Global Instance completion_bind : MBind completion := λ A B k c,
  match c with
  | Normal a => k a
  | Throw e => Throw e
  end.

(** [Array.prototype.reduce] called without an initial value: the first
    element seeds the accumulator, and an empty array raises a TypeError. *)
Definition reduce {A} (f : A → A → A) (l : list A) : completion A :=
  match l with
  | [] => Throw TypeError
  | x :: xs => Normal (foldl f x xs)
  end.

(** [Array.prototype.forEach] over a callback that may throw. *)
Fixpoint forEach {A S} (f : A → S → completion S) (l : list A) (s : S) : completion S :=
  match l with
  | [] => Normal s
  | x :: xs => f x s ≫= forEach f xs
  end.

End JS.

(** ** The [Editor] class: toolbar status and command application *)

Module Toolbar.
Import JS.

Section Editor.

(** The document held by the edit frame (abstract tree with its format
    matrices), the configuration a matcher reports and the native DOM nodes
    are opaque to the [Editor]. *)
Context {Doc Config Node : Type}.

(** A native [Range]. *)
Record Range := {
  startContainer : Node;
  startOffset : nat;
  endContainer : Node;
  endOffset : nat
}.

(** [CommonMatchDelta], as the reducer of [updateToolbarStatus] rebuilds it. *)
Record CommonMatchDelta := {
  inSingleContainer : bool;
  overlap : bool;
  contain : bool;
  container : option Node;
  config : option Config;
  disable : bool;
  range : Range
}.

(** [new TBRange(range, doc)]: the wrapper keeps the native range as
    [rawRange]. *)
Record TBRange := { rawRange : Range }.

(** What one [console.log] call leaves on the console. *)
Inductive ConsoleEntry :=
  | LogSelection (selection : TBRange).

(** The edit frame: its contents, the undo snapshots recorded so far, the
    ranges of [contentDocument.getSelection()], whether [body] holds the
    focus, and the console of its window. *)
Record EditFrame := {
  contents : Doc;
  snapshots : list Doc;
  selectionRanges : list Range;
  bodyFocused : bool;
  console : list ConsoleEntry
}.

(** [Commander]: the flag read by [Editor.apply] and the entry point it
    calls once per selected range. *)
Record Commander := {
  recordHistory : bool;
  format : TBRange → EditFrame → CommonMatchDelta → EditFrame
}.

(** [Handler] (toolbar/handlers/help): the fields the editor uses.  [hid]
    stands for the identity of the handler object. *)
Record Handler := {
  hid : nat;
  matcher : EditFrame → Range → CommonMatchDelta;
  execCommand : Commander
}.

(** The toolbar widgets: every [handler.updateStatus(delta)] call, in
    order. *)
Definition StatusLog := list (nat * CommonMatchDelta).

(** [selection.getRangeAt(i)] and [selection.rangeCount]. *)
Definition getRangeAt (editor : EditFrame) (i : nat) : option Range :=
  selectionRanges editor !! i.
Definition rangeCount (editor : EditFrame) : nat :=
  length (selectionRanges editor).

(** [Editor.getRanges]: the loop [for (i = 0; i < rangeCount; i++)
    ranges.push(selection.getRangeAt(i))]. *)
Fixpoint getRanges_loop (editor : EditFrame) (i n : nat) (ranges : list Range) : list Range :=
  match n with
  | O => ranges
  | S n' =>
      match getRangeAt editor i with
      | Some r => getRanges_loop editor (S i) n' (ranges ++ [r])
      | None => getRanges_loop editor (S i) n' ranges
      end
  end.

Definition getRanges (editor : EditFrame) : list Range :=
  getRanges_loop editor 0 (rangeCount editor) [].

(** The reducer passed to [reduce] in [updateToolbarStatus]. *)
Definition reduceDelta (previousValue currentValue : CommonMatchDelta) : CommonMatchDelta :=
  {| inSingleContainer := inSingleContainer previousValue && inSingleContainer currentValue;
     overlap := overlap previousValue && overlap currentValue;
     contain := contain previousValue || contain currentValue;
     container := container currentValue;
     config := config currentValue;
     disable := disable previousValue || disable currentValue;
     range := range currentValue |}.

(** [Editor.updateToolbarStatus]. *)
Definition updateToolbarStatus (handlers : list Handler) (editor : EditFrame)
    (log : StatusLog) : completion StatusLog :=
  let ranges := getRanges editor in
  forEach (λ handler log,
    delta ← reduce reduceDelta ((λ range, matcher handler editor range) <$> ranges);
    Normal (log ++ [(hid handler, delta)])) handlers log.

(** Modelled from the spec: [EditFrame.recordSnapshot] belongs to the edit
    frame, whose code is not part of the sources; it pushes an undo snapshot
    of the current contents. *)
Definition recordSnapshot (editor : EditFrame) : EditFrame :=
  {| contents := contents editor;
     snapshots := snapshots editor ++ [contents editor];
     selectionRanges := selectionRanges editor;
     bodyFocused := bodyFocused editor;
     console := console editor |}.

(** [doc.body.focus()]. *)
Definition focusBody (editor : EditFrame) : EditFrame :=
  {| contents := contents editor;
     snapshots := snapshots editor;
     selectionRanges := selectionRanges editor;
     bodyFocused := true;
     console := console editor |}.

(** The body of the [forEach] in [Editor.apply]. *)
Definition applyRange (handler : Handler) (editor : EditFrame) (range : Range) : EditFrame :=
  let tbRange := {| rawRange := range |} in
  format (execCommand handler) tbRange editor (matcher handler editor (rawRange tbRange)).

(** The frame once the command ran over every selected range. *)
Definition runCommand (handler : Handler) (editor : EditFrame) : EditFrame :=
  foldl (applyRange handler) editor (getRanges editor).

(** [Editor.apply]. *)
Definition apply (handler : Handler) (editor : EditFrame) : EditFrame :=
  let editor := runCommand handler editor in
  let editor := if recordHistory (execCommand handler) then recordSnapshot editor else editor in
  focusBody editor.

(** *** The commanders *)

(** [TableCommander] (toolbar/commands/table.commander.ts):
    [recordHistory = true]. *)
Definition TableCommander_recordHistory : bool := true.

(** [updateValue(value) { }]: the body is empty, and the commander has no
    field besides [recordHistory] that a call could change. *)
Definition TableCommander_updateValue {AttrState : Type} (value : list AttrState)
    (editor : EditFrame) : EditFrame :=
  editor.

(** [command(selection, overlap) { console.log(selection) }]. *)
Definition TableCommander_command (selection : TBRange) (overlap : bool)
    (editor : EditFrame) : EditFrame :=
  {| contents := contents editor;
     snapshots := snapshots editor;
     selectionRanges := selectionRanges editor;
     bodyFocused := bodyFocused editor;
     console := console editor ++ [LogSelection selection] |}.

(** [ListCommander]: [recordHistory = true] and
    [command(selection, handler, overlap) { }]. *)
Definition ListCommander_recordHistory : bool := true.

Definition ListCommander_command (selection : TBRange) (handler : Handler) (overlap : bool)
    (editor : EditFrame) : EditFrame :=
  editor.

(** A commander as the object [Editor.apply] is handed at run time: its
    [recordHistory] field and its [format] method, when its class defines
    one. *)
Record CommanderObject := {
  object_recordHistory : bool;
  object_format : option (TBRange → EditFrame → CommonMatchDelta → EditFrame)
}.


(** The two classes of the sources: their members are [recordHistory],
    [command] and, for one, [updateValue], for the other, [render]; neither
    has a method [format]. *)
Definition TableCommander : CommanderObject :=
  {| object_recordHistory := TableCommander_recordHistory; object_format := None |}.

Definition ListCommander (tagName : string) : CommanderObject :=
  {| object_recordHistory := ListCommander_recordHistory; object_format := None |}.

(** [Editor.apply] on a handler with the matcher [matcher] and the commander
    object [execCommand].  Calling a method the object does not have raises a
    TypeError, once the arguments of the call are evaluated. *)
Definition applyObject (matcher : EditFrame → Range → CommonMatchDelta)
    (execCommand : CommanderObject) (editor : EditFrame) : completion EditFrame :=
  editor ← forEach (λ range editor,
              let tbRange := {| rawRange := range |} in
              let delta := matcher editor (rawRange tbRange) in
              match object_format execCommand with
              | Some format => Normal (format tbRange editor delta)
              | None => Throw TypeError
              end) (getRanges editor) editor;
  let editor := if object_recordHistory execCommand then recordSnapshot editor else editor in
  Normal (focusBody editor).

(** *** Properties of the reducer *)

(** The delta the specification describes for the match results [deltas] of
    one handler, [lastDelta] being the result for the last range. *)
Definition reducedDelta (deltas : list CommonMatchDelta) (lastDelta : CommonMatchDelta) : CommonMatchDelta :=
  {| inSingleContainer := forallb inSingleContainer deltas;
     overlap := forallb overlap deltas;
     contain := existsb contain deltas;
     container := container lastDelta;
     config := config lastDelta;
     disable := existsb disable deltas;
     range := range lastDelta |}.



Lemma foldl_reduceDelta (d : CommonMatchDelta) (ds : list CommonMatchDelta) :
  foldl reduceDelta d ds = reducedDelta (d :: ds) (default d (last ds)).
Proof.
  revert d. induction ds as [|d' ds IH]; intros d.
  - destruct d; unfold reducedDelta; simpl.
    by rewrite !andb_true_r, !orb_false_r.
  - simpl foldl. rewrite IH. unfold reducedDelta. simpl.
    rewrite !andb_assoc, !orb_assoc.
    destruct ds as [|d'' ds]; [done|].
    rewrite last_cons_cons.
    destruct (last (d'' :: ds)) eqn:E; [done|]. by apply last_None in E.
Qed.

Lemma reduce_nonempty (ds : list CommonMatchDelta) lastDelta :
  last ds = Some lastDelta →
  reduce reduceDelta ds = Normal (reducedDelta ds lastDelta).
Proof.
  destruct ds as [|d ds]; [done|]. intros E.
  simpl. rewrite foldl_reduceDelta. do 2 f_equal.
  destruct ds as [|d' ds]; [by injection E|].
  rewrite last_cons_cons in E. by rewrite E.
Qed.

Lemma forEach_status (g : Handler → completion CommonMatchDelta)
    (f : Handler → CommonMatchDelta) handlers log :
  (∀ handler, g handler = Normal (f handler)) →
  forEach (λ handler log, delta ← g handler; Normal (log ++ [(hid handler, delta)]))
    handlers log
  = Normal (log ++ ((λ handler, (hid handler, f handler)) <$> handlers)).
Proof.
  intros Hg. revert log. induction handlers as [|h hs IH]; intros log; simpl.
  - by rewrite app_nil_r.
  - rewrite Hg. simpl.
    change (forEach
      (λ handler log, delta ← g handler; Normal (log ++ [(hid handler, delta)]))
      hs (log ++ [(hid h, f h)]) = Normal (log ++ (hid h, f h) :: ((λ handler, (hid handler, f handler)) <$> hs))).
    rewrite IH. by rewrite <- app_assoc.
Qed.

(** C6.  When at least one range is selected, [updateToolbarStatus] returns
    normally and has called [updateStatus] once per handler, in order, with
    the reduction of that handler's per-range match results: the logical AND
    of [inSingleContainer] and of [overlap], the logical OR of [contain] and
    of [disable], and the [container], [config] and [range] of the match for
    the last range. *)
Theorem updateToolbarStatus_reduces_deltas handlers editor log :
  getRanges editor ≠ [] →
  ∃ lastRange, last (getRanges editor) = Some lastRange ∧
    updateToolbarStatus handlers editor log =
      Normal (log ++ ((λ handler,
        (hid handler,
         reducedDelta (matcher handler editor <$> getRanges editor)
                      (matcher handler editor lastRange))) <$> handlers)).
Proof.
  intros Hne.
  destruct (last (getRanges editor)) as [lastRange|] eqn:Hlast;
    [|by apply last_None in Hlast].
  exists lastRange. split; [done|].
  unfold updateToolbarStatus. cbv zeta.
  apply forEach_status. intros handler.
  apply reduce_nonempty. by rewrite fmap_last, Hlast.
Qed.

(** Without a selected range the reduction has nothing to start from: the
    first handler's [reduce] raises. *)
Lemma updateToolbarStatus_no_range handler handlers editor log :
  getRanges editor = [] →
  updateToolbarStatus (handler :: handlers) editor log = Throw TypeError.
Proof. intros E. unfold updateToolbarStatus. by rewrite E. Qed.

(** *** Properties of [apply] and of the commanders *)





(** C10.  For every selection and either value of [overlap],
    [TableCommander.command] leaves the contents of the frame (the abstract
    tree with its format matrices), the snapshots, the selection and the
    focus as they were and only appends the selection to the console;
    [updateValue] changes nothing.  The commander declares
    [recordHistory = true] all the same. *)
Theorem TableCommander_command_changes_nothing (selection : TBRange) (overlap : bool)
    (editor : EditFrame) :
  contents (TableCommander_command selection overlap editor) = contents editor
  ∧ snapshots (TableCommander_command selection overlap editor) = snapshots editor
  ∧ selectionRanges (TableCommander_command selection overlap editor) = selectionRanges editor
  ∧ bodyFocused (TableCommander_command selection overlap editor) = bodyFocused editor
  ∧ console (TableCommander_command selection overlap editor)
      = console editor ++ [LogSelection selection]
  ∧ TableCommander_recordHistory = true
  ∧ (∀ (AttrState : Type) (value : list AttrState),
       TableCommander_updateValue value editor = editor).
Proof. by split_and!. Qed.

End Editor.

(** *** A toolbar with two handlers over a two-range selection *)

Definition sampleRange (a b : nat) : @Range nat :=
  {| startContainer := 1%nat; startOffset := a; endContainer := 1%nat; endOffset := b |}.

Definition sampleFrame : @EditFrame string nat :=
  {| contents := "<p>textbus</p>"; snapshots := [];
     selectionRanges := [sampleRange 0 3; sampleRange 5 7];
     bodyFocused := false; console := [] |}.

(** A matcher that reports a match when the range starts at the given
    offset. *)
Definition sampleMatcher (offset : nat) (editor : @EditFrame string nat) (r : @Range nat) :
    @CommonMatchDelta string nat :=
  {| inSingleContainer := true;
     overlap := bool_decide (startOffset r = offset);
     contain := bool_decide (startOffset r = offset);
     container := Some (startContainer r);
     config := None;
     disable := false;
     range := r |}.

(** A commander with the entry point: it marks the contents with the start
    offset of the range, and whether the match overlaps. *)
Definition sampleCommander (recordHistory : bool) : @Commander string string nat :=
  {| recordHistory := recordHistory;
     format := λ tbRange editor delta,
       {| contents := contents editor +:+ "[" +:+ pretty (startOffset (rawRange tbRange))
                      +:+ (if overlap delta then "+" else "-") +:+ "]";
          snapshots := snapshots editor;
          selectionRanges := selectionRanges editor;
          bodyFocused := bodyFocused editor;
          console := console editor |} |}.

Definition sampleHandlers : list (@Handler string string nat) :=
  [ {| hid := 0%nat; matcher := sampleMatcher 0; execCommand := sampleCommander true |};
    {| hid := 1%nat; matcher := sampleMatcher 9; execCommand := sampleCommander false |} ].

Lemma updateToolbarStatus_reduces_deltas_witness :
  getRanges sampleFrame ≠ [] ∧
  ∃ lastRange, last (getRanges sampleFrame) = Some lastRange ∧
    updateToolbarStatus sampleHandlers sampleFrame [] =
      Normal ([] ++ ((λ handler,
        (hid handler,
         reducedDelta (matcher handler sampleFrame <$> getRanges sampleFrame)
                      (matcher handler sampleFrame lastRange))) <$> sampleHandlers)).
Proof.
  split; [done|]. apply updateToolbarStatus_reduces_deltas. done.
Defined.

Example updateToolbarStatus_sample :
  updateToolbarStatus sampleHandlers sampleFrame [] =
    Normal [ (0%nat, {| inSingleContainer := true; overlap := false; contain := true;
                        container := Some 1%nat; config := None; disable := false;
                        range := sampleRange 5 7 |});
             (1%nat, {| inSingleContainer := true; overlap := false; contain := false;
                        container := Some 1%nat; config := None; disable := false;
                        range := sampleRange 5 7 |}) ].
Proof. reflexivity. Qed.

(** The first handler records a snapshot of the contents its command left,
    the second does not; both ran the command over the two ranges in
    order. *)
Example apply_sample :
  (λ handler, apply handler sampleFrame) <$> sampleHandlers
  = [ {| contents := "<p>textbus</p>[0+][5-]"; snapshots := ["<p>textbus</p>[0+][5-]"];
         selectionRanges := [sampleRange 0 3; sampleRange 5 7];
         bodyFocused := true; console := [] |};
      {| contents := "<p>textbus</p>[0-][5-]"; snapshots := [];
         selectionRanges := [sampleRange 0 3; sampleRange 5 7];
         bodyFocused := true; console := [] |} ].
Proof. reflexivity. Qed.

(** A handler of a [TableCommander] or of a [ListCommander], applied over the
    two ranges of the sample frame: the call of [format] raises, and no
    snapshot is recorded.  Over a selection without range the snapshot is
    recorded. *)
Example apply_TableCommander_sample :
  applyObject (sampleMatcher 0) TableCommander sampleFrame = Throw TypeError
  ∧ applyObject (sampleMatcher 0) (ListCommander "ul") sampleFrame = Throw TypeError
  ∧ applyObject (sampleMatcher 0) TableCommander
      {| contents := "<p>textbus</p>"; snapshots := []; selectionRanges := [];
         bodyFocused := false; console := [] |}
    = Normal {| contents := "<p>textbus</p>"; snapshots := ["<p>textbus</p>"];
                selectionRanges := []; bodyFocused := true; console := [] |}.
Proof. by split_and!. Qed.

End Toolbar.

(** ** The [Input] class: cursor overlay driven by the native selection *)

Module Cursor.
Import JS.

(** [Node.ELEMENT_NODE] and [Node.TEXT_NODE]. *)
Definition ELEMENT_NODE : nat := 1%nat.
Definition TEXT_NODE : nat := 3%nat.

(** The operations on JavaScript numbers the cursor placement uses: unary
    [+] on a string, [parseFloat], [isNaN], [*], [-], [/ 2], [<],
    [Math.max] and the conversion to a string done by [+ 'px']. *)
Class JsNumber (number : Type) := {
  toNumber : string → number;
  parseFloat : string → number;
  isNaN : number → bool;
  mul : number → number → number;
  sub : number → number → number;
  halve : number → number;
  lt : number → number → bool;
  max : number → number → number;
  toString : number → string
}.

Section Input.

Context {Node number : Type} `{JsNumber number}.

(** The part of a [DOMRect] that is read. *)
Record Rect := { rect_left : number; rect_top : number; rect_height : number }.

(** The part of a [CSSStyleDeclaration] that is read. *)
Record ComputedStyle := { fontSize : string; lineHeight : string; color : string }.

(** The collapsed range built by [createRange], [setStart] and [collapse]. *)
Record CollapsedRange := { startContainer : Node; startOffset : nat }.

(** The host document: its DOM, the geometry of a collapsed range
    ([TBRange.getRangePosition]), the computed styles, and the platform
    test [isWindows]. *)
Record Host := {
  nodeType : Node → nat;
  childNodes : Node → list Node;
  parentNode : Node → option Node;
  getRangePosition : CollapsedRange → Rect;
  getComputedStyle : Node → ComputedStyle;
  isWindows : bool
}.

(** The native [Selection]: its focus (node and offset), the ranges it
    holds besides the one the focus belongs to, and whether it is collapsed.
    A selection without range has no focus: [focusNode] is then [null],
    [focusOffset] is 0 and [rangeCount] is 0. *)
Record Selection := {
  focus : option (Node * nat);
  otherRanges : nat;
  isCollapsed : bool
}.

Definition rangeCount (s : Selection) : nat :=
  match focus s with
  | Some _ => S (otherRanges s)
  | None => 0%nat
  end.

Definition focusNode (s : Selection) : option Node := fst <$> focus s.

Definition focusOffset (s : Selection) : nat := default 0%nat (snd <$> focus s).

(** The state of an [Input]: its fields, the inline styles of its elements
    and the timers it has pending in the host. *)
Record Input := {
  selection : option Selection;
  display : bool;
  flashing : bool;
  timer : option nat;
  pendingTimers : list nat;
  nextTimer : nat;
  cursor_visibility : string;
  cursor_backgroundColor : string;
  elementRef_left : string;
  elementRef_top : string;
  elementRef_height : string;
  inputWrap_top : string;
  input_lineHeight : string;
  input_fontSize : string;
  input_value : string;
  input_focused : bool
}.

(** [this.selection = selection]. *)
Definition setSelection (s : Selection) (st : Input) : Input :=
  {| selection := Some s; display := display st; flashing := flashing st;
     timer := timer st; pendingTimers := pendingTimers st; nextTimer := nextTimer st;
     cursor_visibility := cursor_visibility st;
     cursor_backgroundColor := cursor_backgroundColor st;
     elementRef_left := elementRef_left st; elementRef_top := elementRef_top st;
     elementRef_height := elementRef_height st; inputWrap_top := inputWrap_top st;
     input_lineHeight := input_lineHeight st; input_fontSize := input_fontSize st;
     input_value := input_value st; input_focused := input_focused st |}.

(** The setter [display]: [_display = v] and the visibility of the cursor. *)
Definition setDisplay (v : bool) (st : Input) : Input :=
  {| selection := selection st; display := v; flashing := flashing st;
     timer := timer st; pendingTimers := pendingTimers st; nextTimer := nextTimer st;
     cursor_visibility := if v then "visible" else "hidden";
     cursor_backgroundColor := cursor_backgroundColor st;
     elementRef_left := elementRef_left st; elementRef_top := elementRef_top st;
     elementRef_height := elementRef_height st; inputWrap_top := inputWrap_top st;
     input_lineHeight := input_lineHeight st; input_fontSize := input_fontSize st;
     input_value := input_value st; input_focused := input_focused st |}.

(** [clearTimeout(this.timer)]: the timer, if any, is no longer pending. *)
Definition clearTimer (st : Input) : Input :=
  {| selection := selection st; display := display st; flashing := flashing st;
     timer := timer st;
     pendingTimers :=
       match timer st with
       | Some t => filter (λ t', t' ≠ t) (pendingTimers st)
       | None => pendingTimers st
       end;
     nextTimer := nextTimer st;
     cursor_visibility := cursor_visibility st;
     cursor_backgroundColor := cursor_backgroundColor st;
     elementRef_left := elementRef_left st; elementRef_top := elementRef_top st;
     elementRef_height := elementRef_height st; inputWrap_top := inputWrap_top st;
     input_lineHeight := input_lineHeight st; input_fontSize := input_fontSize st;
     input_value := input_value st; input_focused := input_focused st |}.

(** [this.timer = setTimeout(toggleShowHide, 400)]. *)
Definition startTimer (st : Input) : Input :=
  {| selection := selection st; display := display st; flashing := flashing st;
     timer := Some (nextTimer st);
     pendingTimers := pendingTimers st ++ [nextTimer st];
     nextTimer := S (nextTimer st);
     cursor_visibility := cursor_visibility st;
     cursor_backgroundColor := cursor_backgroundColor st;
     elementRef_left := elementRef_left st; elementRef_top := elementRef_top st;
     elementRef_height := elementRef_height st; inputWrap_top := inputWrap_top st;
     input_lineHeight := input_lineHeight st; input_fontSize := input_fontSize st;
     input_value := input_value st; input_focused := input_focused st |}.

(** [this.input.focus()]. *)
Definition focusInput (st : Input) : Input :=
  {| selection := selection st; display := display st; flashing := flashing st;
     timer := timer st; pendingTimers := pendingTimers st; nextTimer := nextTimer st;
     cursor_visibility := cursor_visibility st;
     cursor_backgroundColor := cursor_backgroundColor st;
     elementRef_left := elementRef_left st; elementRef_top := elementRef_top st;
     elementRef_height := elementRef_height st; inputWrap_top := inputWrap_top st;
     input_lineHeight := input_lineHeight st; input_fontSize := input_fontSize st;
     input_value := input_value st; input_focused := true |}.

(** [Input.hide]. *)
Definition hide (st : Input) : Input := clearTimer (setDisplay false st).

(** [Input.show]. *)
Definition show (st : Input) : Input :=
  focusInput (startTimer (clearTimer (setDisplay true st))).

(** Lines 196-202 of [updateCursorPosition]: the fix-up of the start
    position.  [childNodes[startOffset]] is [undefined] out of range, and
    [offsetNode?.nodeType] is then [undefined] too. *)
Definition retarget (host : Host) (startContainer : Node) (startOffset : nat) : Node * nat :=
  if decide (nodeType host startContainer = ELEMENT_NODE) then
    match childNodes host startContainer !! startOffset with
    | Some offsetNode =>
        if decide (nodeType host offsetNode = TEXT_NODE) then (offsetNode, 0%nat)
        else (startContainer, startOffset)
    | None => (startContainer, startOffset)
    end
  else (startContainer, startOffset).

(** Lines 214-224: the local [height]. *)
Definition cursorHeight (fontSize lineHeight : string) : number :=
  if isNaN (toNumber lineHeight) then
    let f := parseFloat lineHeight in
    if isNaN f then parseFloat fontSize else f
  else mul (parseFloat fontSize) (parseFloat lineHeight).

(** Line 226: [boxHeight]. *)
Definition boxHeight (height : number) (rect : Rect) : number :=
  max height (rect_height rect).

(** Lines 228-231: [top]. *)
Definition cursorTop (height : number) (rect : Rect) : number :=
  if lt (rect_height rect) height
  then sub (rect_top rect) (halve (sub height (rect_height rect)))
  else rect_top rect.

(** Line 208: the element whose computed style is read, the start
    container itself or, for a text node, its parent ([null] for a detached
    node). *)
Definition styledElement (host : Host) (startContainer : Node) : option Node :=
  if decide (nodeType host startContainer = ELEMENT_NODE) then Some startContainer
  else parentNode host startContainer.

(** Lines 204-239: the collapsed range at the start position, its
    rectangle, the computed style of the element at that position, and the
    styles written from them.  [getComputedStyle(null)] raises. *)
Definition placeCursor (host : Host) (startContainer : Node) (startOffset : nat)
    (st : Input) : completion Input :=
  let range := {| startContainer := startContainer; startOffset := startOffset |} in
  let rect := getRangePosition host range in
  match styledElement host startContainer with
  | None => Throw TypeError
  | Some element =>
      let style := getComputedStyle host element in
      let height := cursorHeight (fontSize style) (lineHeight style) in
      Normal
        {| selection := selection st; display := display st; flashing := flashing st;
           timer := timer st; pendingTimers := pendingTimers st; nextTimer := nextTimer st;
           cursor_visibility := cursor_visibility st;
           cursor_backgroundColor := color style;
           elementRef_left := toString (rect_left rect) +:+ "px";
           elementRef_top := toString (cursorTop height rect) +:+ "px";
           elementRef_height := toString (boxHeight height rect) +:+ "px";
           inputWrap_top := if isWindows host then fontSize style else inputWrap_top st;
           input_lineHeight := toString (boxHeight height rect) +:+ "px";
           input_fontSize := fontSize style;
           input_value := input_value st; input_focused := input_focused st |}
  end.

(** [Input.updateCursorPosition].  Reading [nodeType] of a [null] focus
    node raises. *)
Definition updateCursorPosition (host : Host) (st : Input) : completion Input :=
  match selection st with
  | None => Normal st
  | Some s =>
      if decide (rangeCount s = 0%nat) then Normal st
      else
        match focusNode s with
        | None => Throw TypeError
        | Some startContainer =>
            let '(startContainer, startOffset) :=
              retarget host startContainer (focusOffset s) in
            placeCursor host startContainer startOffset st
        end
  end.

(** [Input.updateStateBySelection]. *)
Definition updateStateBySelection (host : Host) (s : Selection) (st : Input) : completion Input :=
  let st := setSelection s st in
  if decide (rangeCount s = 0%nat) then Normal (hide st)
  else
    st ← updateCursorPosition host st;
    let st := if isCollapsed s then show st else hide st in
    Normal (focusInput st).

(** *** Properties *)

Lemma retarget_text_child host container k textNode :
  nodeType host container = ELEMENT_NODE →
  childNodes host container !! k = Some textNode →
  nodeType host textNode = TEXT_NODE →
  retarget host container k = (textNode, 0%nat).
Proof.
  intros He Hk Ht. unfold retarget.
  rewrite decide_True by done. rewrite Hk. by rewrite decide_True.
Qed.

Lemma retarget_other host container k :
  nodeType host container ≠ ELEMENT_NODE ∨
  (∀ child, childNodes host container !! k = Some child → nodeType host child ≠ TEXT_NODE) →
  retarget host container k = (container, k).
Proof.
  intros [Hne|Hc]; unfold retarget.
  - by rewrite decide_False.
  - case_decide; [|done].
    destruct (childNodes host container !! k) as [child|] eqn:E; [|done].
    rewrite decide_False; [done|]. by apply Hc.
Qed.

(** C4.  When the focus node of the selection is an element and its child
    at the focus offset is a text node, [updateCursorPosition] continues from
    that text node at offset 0: the collapsed range whose rectangle places
    the cursor starts there. *)
Theorem updateCursorPosition_retargets_text_child host st s container textNode :
  selection st = Some s →
  focusNode s = Some container →
  nodeType host container = ELEMENT_NODE →
  childNodes host container !! focusOffset s = Some textNode →
  nodeType host textNode = TEXT_NODE →
  retarget host container (focusOffset s) = (textNode, 0%nat)
  ∧ updateCursorPosition host st = placeCursor host textNode 0 st
  ∧ ∀ st', updateCursorPosition host st = Normal st' →
      elementRef_left st' =
        toString (rect_left (getRangePosition host
          {| startContainer := textNode; startOffset := 0 |})) +:+ "px".
Proof.
  intros Hs Hf He Hk Ht.
  assert (rangeCount s ≠ 0%nat) as Hn.
  { unfold rangeCount, focusNode in *. by destruct (focus s). }
  pose proof (retarget_text_child host container (focusOffset s) textNode He Hk Ht) as Hr.
  assert (updateCursorPosition host st = placeCursor host textNode 0 st) as Hu.
  { unfold updateCursorPosition. rewrite Hs, decide_False by done.
    by rewrite Hf, Hr. }
  split_and!; [done..|].
  intros st'. rewrite Hu. unfold placeCursor.
  destruct (styledElement host textNode); by intros [= <-].
Qed.

(** C7 (amended).  The height the cursor box is sized from, the local
    [height], is by cases on the computed line height: the product of the
    parsed font size and the parsed line height when unary [+] makes a number
    of the string; else the float that [parseFloat] reads from it; else the
    parsed font size.  The height written to the cursor box is the larger of
    [height] and the height of the range's rectangle. *)
Theorem cursor_height_case_analysis (size line : string) :
  (isNaN (toNumber line) = false →
     cursorHeight size line = mul (parseFloat size) (parseFloat line))
  ∧ (isNaN (toNumber line) = true → isNaN (parseFloat line) = false →
     cursorHeight size line = parseFloat line)
  ∧ (isNaN (toNumber line) = true → isNaN (parseFloat line) = true →
     cursorHeight size line = parseFloat size)
  ∧ ∀ host container offset element st st',
      styledElement host container = Some element →
      fontSize (getComputedStyle host element) = size →
      lineHeight (getComputedStyle host element) = line →
      placeCursor host container offset st = Normal st' →
      elementRef_height st' =
        toString (max (cursorHeight size line)
          (rect_height (getRangePosition host
             {| startContainer := container; startOffset := offset |})))
        +:+ "px".
Proof.
  unfold cursorHeight. split_and!.
  - by intros ->.
  - by intros -> ->.
  - by intros -> ->.
  - intros host container offset element st st' He <- <-. unfold placeCursor.
    rewrite He. by intros [= <-].
Qed.

Lemma hide_frame st :
  display (hide st) = false
  ∧ cursor_visibility (hide st) = "hidden"
  ∧ selection (hide st) = selection st
  ∧ elementRef_left (hide st) = elementRef_left st
  ∧ elementRef_top (hide st) = elementRef_top st
  ∧ elementRef_height (hide st) = elementRef_height st
  ∧ cursor_backgroundColor (hide st) = cursor_backgroundColor st
  ∧ inputWrap_top (hide st) = inputWrap_top st
  ∧ input_lineHeight (hide st) = input_lineHeight st
  ∧ input_fontSize (hide st) = input_fontSize st
  ∧ input_focused (hide st) = input_focused st.
Proof. by split_and!. Qed.

(** C8.  For a selection without ranges, [updateStateBySelection] returns
    normally after storing the selection and hiding the cursor: the cursor
    box, the styles of the input and its focus are as before; and
    [updateCursorPosition] returns normally with the state unchanged. *)
Theorem zero_ranges_hide_and_skip host (s : Selection) (st : Input) :
  rangeCount s = 0%nat →
  updateStateBySelection host s st = Normal (hide (setSelection s st))
  ∧ (∀ st', updateStateBySelection host s st = Normal st' →
       display st' = false
       ∧ cursor_visibility st' = "hidden"
       ∧ elementRef_left st' = elementRef_left st
       ∧ elementRef_top st' = elementRef_top st
       ∧ elementRef_height st' = elementRef_height st
       ∧ cursor_backgroundColor st' = cursor_backgroundColor st
       ∧ inputWrap_top st' = inputWrap_top st
       ∧ input_lineHeight st' = input_lineHeight st
       ∧ input_fontSize st' = input_fontSize st
       ∧ input_focused st' = input_focused st)
  ∧ (∀ st0, selection st0 = Some s → updateCursorPosition host st0 = Normal st0).
Proof.
  intros Hz.
  assert (updateStateBySelection host s st = Normal (hide (setSelection s st))) as Hu.
  { unfold updateStateBySelection. by rewrite decide_True. }
  split_and!; [done| |].
  - intros st'. rewrite Hu. intros [= <-]. by split_and!.
  - intros st0 Hs. unfold updateCursorPosition. by rewrite Hs, decide_True.
Qed.

(** Before any selection was stored, [updateCursorPosition] does nothing
    either. *)
Lemma updateCursorPosition_no_selection host st :
  selection st = None → updateCursorPosition host st = Normal st.
Proof. intros Hs. unfold updateCursorPosition. by rewrite Hs. Qed.

End Input.

(** *** A sample host: integer-valued numbers and a two-paragraph document *)

(** The integer fragment of JavaScript numbers, [None] being [NaN]: enough
    to read strings made of decimal digits and a unit.  Halving rounds down;
    it is exact on the samples below. *)
Definition digitValue (c : Ascii.ascii) : option Z :=
  let n := Z.of_nat (Ascii.nat_of_ascii c) in
  if decide (48 ≤ n ≤ 57) then Some (n - 48) else None.

(** The value of the leading decimal digits of a string, and whether any
    character follows them. *)
Fixpoint leadingDigits (s : string) (acc : option Z) : option Z * bool :=
  match s with
  | EmptyString => (acc, false)
  | String c rest =>
      match digitValue c with
      | Some d => leadingDigits rest (Some (10 * default 0 acc + d))
      | None => (acc, true)
      end
  end.

Global Instance sampleNumber : JsNumber (option Z) := {|
  toNumber s :=
    match s with
    | EmptyString => Some 0
    | _ => match leadingDigits s None with
           | (Some n, false) => Some n
           | _ => None
           end
    end;
  parseFloat s := fst (leadingDigits s None);
  isNaN n := bool_decide (n = None);
  mul a b := x ← a; y ← b; Some (x * y);
  sub a b := x ← a; y ← b; Some (x - y);
  halve a := x ← a; Some (x / 2);
  lt a b := match a, b with Some x, Some y => bool_decide (x < y) | _, _ => false end;
  max a b := x ← a; y ← b; Some (x `max` y);
  toString n := match n with Some x => pretty x | None => "NaN" end
|}.

(** Node 0 is a paragraph holding only a line break (node 1); node 2 is the
    next paragraph, whose first child is the text node 3. *)
Definition sampleHost : @Host nat (option Z) :=
  {| nodeType n := if decide (n = 3%nat) then TEXT_NODE else ELEMENT_NODE;
     childNodes n :=
       if decide (n = 0%nat) then [1%nat]
       else if decide (n = 2%nat) then [3%nat] else [];
     parentNode n :=
       if decide (n = 1%nat) then Some 0%nat
       else if decide (n = 3%nat) then Some 2%nat else None;
     getRangePosition r :=
       {| rect_left := Some 8; rect_top := Some (20 * Z.of_nat (startContainer r));
          rect_height := Some 18 |};
     getComputedStyle n :=
       {| fontSize := "16px";
          lineHeight := if decide (n = 2%nat) then "24px" else "normal";
          color := "rgb(0, 0, 0)" |};
     isWindows := false |}.

Definition sampleInput : @Input nat :=
  {| selection := None; display := true; flashing := true; timer := None;
     pendingTimers := []; nextTimer := 0; cursor_visibility := "";
     cursor_backgroundColor := ""; elementRef_left := ""; elementRef_top := "";
     elementRef_height := ""; inputWrap_top := ""; input_lineHeight := "";
     input_fontSize := ""; input_value := ""; input_focused := false |}.

(** The user double-clicked the first paragraph: the focus is the second
    paragraph at offset 0. *)
Definition sampleSelection : @Selection nat :=
  {| focus := Some (2%nat, 0%nat); otherRanges := 0; isCollapsed := false |}.

Definition emptySelection : @Selection nat :=
  {| focus := None; otherRanges := 0; isCollapsed := true |}.

Lemma updateCursorPosition_retargets_text_child_witness :
  retarget sampleHost 2%nat (focusOffset sampleSelection) = (3%nat, 0%nat)
  ∧ updateCursorPosition sampleHost (setSelection sampleSelection sampleInput)
    = placeCursor sampleHost 3%nat 0 (setSelection sampleSelection sampleInput)
  ∧ ∀ st', updateCursorPosition sampleHost (setSelection sampleSelection sampleInput)
           = Normal st' →
      elementRef_left st' =
        toString (rect_left (getRangePosition sampleHost
          {| startContainer := 3%nat; startOffset := 0 |})) +:+ "px".
Proof.
  apply (updateCursorPosition_retargets_text_child sampleHost
    (setSelection sampleSelection sampleInput) sampleSelection 2%nat 3%nat);
    by vm_compute.
Defined.

Lemma zero_ranges_hide_and_skip_witness :
  updateStateBySelection sampleHost emptySelection sampleInput
    = Normal (hide (setSelection emptySelection sampleInput))
  ∧ updateCursorPosition sampleHost (setSelection emptySelection sampleInput)
    = Normal (setSelection emptySelection sampleInput).
Proof.
  destruct (zero_ranges_hide_and_skip sampleHost emptySelection sampleInput eq_refl)
    as (Hu & _ & Hc).
  split; [exact Hu|]. by apply Hc.
Defined.

(** A caret at the start of the first paragraph. *)
Definition firstParagraphCaret : @Selection nat :=
  {| focus := Some (0%nat, 0%nat); otherRanges := 0; isCollapsed := true |}.

(** C7, as first stated, fails here: the computed line height of the first
    paragraph is ["normal"] and its font size ["16px"], so the case analysis
    gives 16; the rectangle of the range is 18 high, and the cursor box is
    made 18 high. *)
Lemma cursor_box_height_counterexample :
  ∃ st',
    updateCursorPosition sampleHost (setSelection firstParagraphCaret sampleInput) = Normal st'
    ∧ fontSize (getComputedStyle sampleHost 0%nat) = "16px"
    ∧ lineHeight (getComputedStyle sampleHost 0%nat) = "normal"
    ∧ cursorHeight "16px" "normal" = parseFloat "16px"
    ∧ toString (cursorHeight "16px" "normal") +:+ "px" = "16px"
    ∧ elementRef_height st' = "18px"
    ∧ elementRef_height st' ≠ toString (cursorHeight "16px" "normal") +:+ "px".
Proof. eexists. split_and!; by vm_compute. Qed.

Example cursorHeight_samples :
  cursorHeight "16px" "normal" = Some 16
  ∧ cursorHeight "16px" "24px" = Some 24
  ∧ cursorHeight "16px" "2" = Some 32.
Proof. by vm_compute. Qed.

Example updateCursorPosition_sample :
  ∃ st', updateCursorPosition sampleHost (setSelection sampleSelection sampleInput) = Normal st'
    ∧ elementRef_top st' = "57px"
    ∧ elementRef_height st' = "24px"
    ∧ input_fontSize st' = "16px".
Proof. eexists. split; [by vm_compute|]. by vm_compute. Qed.

End Cursor.

(** ** Abstract data of a format *)

Module Core.

(** [FormatAbstractData]: the snapshot a formatter reads from an element. *)
Record FormatAbstractData := {
  tag : string;
  attrs : gmap string string;
  styles : gmap string string;
  classes : list string
}.

Global Instance FormatAbstractData_eq_dec : EqDecision FormatAbstractData.
Proof. solve_decision. Defined.

End Core.

(** ** The margin formatter *)

Module Margin.
Import Core.

(** [FormatRendingContext]: the field [render] reads. *)
Record FormatRendingContext := { abstractData : FormatAbstractData }.

(** [VElement]: the members of a virtual element [render] uses, its tag
    name and its style map. *)
Record VElement := {
  tagName : string;
  velement_styles : gmap string string
}.

(** [new VElement(tagName)]. *)
Definition newVElement (tagName : string) : VElement :=
  {| tagName := tagName; velement_styles := ∅ |}.

(** [element.styles.set(key, value)]. *)
Definition setStyle (key value : string) (element : VElement) : VElement :=
  {| tagName := tagName element;
     velement_styles := <[key := value]> (velement_styles element) |}.

(** What [render] returns: a mode wrapping an element, or [null]. *)
Inductive RenderMode :=
  | ReplaceMode (replaceElement : VElement)
  | ChildSlotMode (slotElement : VElement).

(** An entry of the [margin] array: a style string, or the number that
    [i || 0] puts in place of a missing one. *)
Inductive marginEntry :=
  | Str (s : string)
  | Num (n : Z).

(** [i || 0] on the result of [styles.get]: [undefined] and the empty string
    are falsy. *)
Definition orZero (i : option string) : marginEntry :=
  match i with
  | Some s => if decide (s = "") then Num 0 else Str s
  | None => Num 0
  end.

(** The conversion [join] applies to an entry. *)
Definition entryToString (e : marginEntry) : string :=
  match e with
  | Str s => s
  | Num n => pretty n
  end.

(** [Array.prototype.join]. *)
Fixpoint join (separator : string) (l : list string) : string :=
  match l with
  | [] => ""
  | [x] => x
  | x :: rest => x +:+ separator +:+ join separator rest
  end.

(** ASCII case folding, as the [i] flag of a RegExp without the [u] flag
    does it on these characters. *)
Definition lowerAscii (c : Ascii.ascii) : Ascii.ascii :=
  let n := Ascii.nat_of_ascii c in
  if decide (65 ≤ n ≤ 90)%nat then Ascii.ascii_of_nat (n + 32) else c.

Fixpoint lowerCase (s : string) : string :=
  match s with
  | EmptyString => EmptyString
  | String c rest => String (lowerAscii c) (lowerCase rest)
  end.

(** [this.reg.test(tagName)] for [reg = new RegExp(`^(${tags.join('|')})$`,
    'i')], the tags being plain names (letters and digits) as are those of
    the two subclasses: the name equals one of the tags up to case. *)
Definition regTest (tags : list string) (tagName : string) : bool :=
  existsb (λ t, bool_decide (lowerCase t = lowerCase tagName)) tags.

(** [InlineMarginFormatter.inlineTags] and [BlockMarginFormatter.blockTags]. *)
Definition inlineTags : list string :=
  ["span"; "em"; "i"; "s"; "del"; "sup"; "sub"; "u"; "strong"].
Definition blockTags : list string :=
  ["div"; "p"; "h1"; "h2"; "h3"; "h4"; "h5"; "h6"; "nav"; "header"; "footer";
   "td"; "th"; "li"; "article"].

(** The array [margin] of [render]. *)
Definition marginEntries (context : FormatRendingContext) : list marginEntry :=
  orZero <$> [ styles (abstractData context) !! "marginTop";
               styles (abstractData context) !! "marginRight";
               styles (abstractData context) !! "marginLeft";
               styles (abstractData context) !! "marginBottom" ].

(** [margin.join(' ')]. *)
Definition marginString (context : FormatRendingContext) : string :=
  join " " (entryToString <$> marginEntries context).

(** [MarginFormatter.render] for a formatter built over [tags].  The
    existing element is mutated in place: the second component is that
    element once [render] has returned. *)
Definition render (tags : list string) (context : FormatRendingContext)
    (existingElement : option VElement) : option RenderMode * option VElement :=
  match existingElement with
  | Some element =>
      if regTest tags (tagName element)
      then (None, Some (setStyle "margin" (marginString context) element))
      else (Some (ChildSlotMode (setStyle "margin" (marginString context) (newVElement "span"))),
            Some element)
  | None =>
      (Some (ChildSlotMode (setStyle "margin" (marginString context) (newVElement "span"))),
       None)
  end.

(** *** Properties *)

Lemma marginString_marginLeft_only context :
  styles (abstractData context) !! "marginLeft" = Some "10px" →
  styles (abstractData context) !! "marginTop" = None →
  styles (abstractData context) !! "marginRight" = None →
  styles (abstractData context) !! "marginBottom" = None →
  marginString context = "0 0 10px 0".
Proof.
  intros Hl Ht Hr Hb. unfold marginString, marginEntries. simpl.
  by rewrite Hl, Ht, Hr, Hb.
Qed.

(** C2.  For abstract data whose only margin style is [marginLeft =
    "10px"], the margin string is ["0 0 10px 0"] (top, right, left, bottom,
    each missing value replaced by 0).  Without an existing element, or with
    one whose tag is not among the formatter's tags, [render] returns a child
    slot holding a new [span] whose only style is that margin, and leaves the
    existing element alone; with an existing element of a matching tag it sets
    the margin on that element and returns [null]. *)
Theorem render_marginLeft_only tags context existingElement :
  styles (abstractData context) !! "marginLeft" = Some "10px" →
  styles (abstractData context) !! "marginTop" = None →
  styles (abstractData context) !! "marginRight" = None →
  styles (abstractData context) !! "marginBottom" = None →
  marginString context = "0 0 10px 0"
  ∧ match existingElement with
    | Some element =>
        if regTest tags (tagName element)
        then render tags context existingElement =
               (None,
                Some {| tagName := tagName element;
                        velement_styles :=
                          <["margin" := "0 0 10px 0"]> (velement_styles element) |})
        else render tags context existingElement =
               (Some (ChildSlotMode
                  {| tagName := "span";
                     velement_styles := {["margin" := "0 0 10px 0"]} |}),
                Some element)
    | None =>
        render tags context existingElement =
          (Some (ChildSlotMode
             {| tagName := "span";
                velement_styles := {["margin" := "0 0 10px 0"]} |}),
           None)
    end.
Proof.
  intros Hl Ht Hr Hb.
  pose proof (marginString_marginLeft_only context Hl Ht Hr Hb) as Hm.
  split; [done|].
  unfold render. rewrite Hm.
  destruct existingElement as [element|]; [|done].
  by destruct (regTest tags (tagName element)).
Qed.

(** *** The sample of the specification *)

Definition sampleContext : FormatRendingContext :=
  {| abstractData :=
       {| tag := "span"; attrs := ∅; styles := {["marginLeft" := "10px"]}; classes := [] |} |}.

Definition sampleStrong : VElement :=
  {| tagName := "STRONG"; velement_styles := {["color" := "red"]} |}.

Lemma render_marginLeft_only_witness :
  marginString sampleContext = "0 0 10px 0"
  ∧ render inlineTags sampleContext (Some sampleStrong) =
      (None,
       Some {| tagName := "STRONG";
               velement_styles := <["margin" := "0 0 10px 0"]> {["color" := "red"]} |}).
Proof.
  destruct (render_marginLeft_only inlineTags sampleContext (Some sampleStrong))
    as [Hm Hr]; [done..|].
  split; [exact Hm|exact Hr].
Defined.

Example render_block_sample :
  render blockTags sampleContext (Some sampleStrong) =
    (Some (ChildSlotMode
       {| tagName := "span"; velement_styles := {["margin" := "0 0 10px 0"]} |}),
     Some sampleStrong).
Proof. reflexivity. Qed.

End Margin.

(** ** Format ranges and the format matrix *)

Module Format.
Import Core.

(** The state of a range. *)
Inductive FormatState := Valid | Invalid.

Global Instance FormatState_eq_dec : EqDecision FormatState.
Proof. solve_decision. Defined.

(** [FormatRange]: the span [[startIndex, endIndex)], its state, its
    abstract data and cache data, and the handler that owns it (the key of
    the matrix, a handler object being known by its identity). *)
Record FormatRange := {
  startIndex : Z;
  endIndex : Z;
  state : FormatState;
  abstractData : FormatAbstractData;
  cacheData : option string;
  handler : nat
}.

(** The data model asks [endIndex ≥ startIndex]. *)
Definition wellFormed (f : FormatRange) : Prop := startIndex f ≤ endIndex f.

(** Modelled from the spec: [FormatRange.overlaps] (./format is not part of
    the sources), "boolean by half-open interval intersection": the two
    spans have an index in common. *)
Definition overlaps (a b : FormatRange) : bool :=
  bool_decide (startIndex a `max` startIndex b < endIndex a `min` endIndex b).

(** The range [f] cut down to [[s, e)]. *)
Definition withSpan (f : FormatRange) (s e : Z) : FormatRange :=
  {| startIndex := s; endIndex := e; state := state f;
     abstractData := abstractData f; cacheData := cacheData f; handler := handler f |}.

(** What is left of [f] once the span of [cut] is taken out of it: nothing
    (removed), one piece (truncated) or two (split). *)
Definition subtract (f cut : FormatRange) : list FormatRange :=
  (if bool_decide (startIndex f < endIndex f `min` startIndex cut)
   then [withSpan f (startIndex f) (endIndex f `min` startIndex cut)] else [])
  ++
  (if bool_decide (startIndex f `max` endIndex cut < endIndex f)
   then [withSpan f (startIndex f `max` endIndex cut) (endIndex f)] else []).

(** The order the result list is kept in. *)
Definition startsBefore (a b : FormatRange) : Prop := startIndex a ≤ startIndex b.

Global Instance startsBefore_dec a b : Decision (startsBefore a b).
Proof. unfold startsBefore. apply _. Defined.

(** Two ranges coalesce when the second starts where the first ends and
    they carry the same state and abstract data. *)
Definition coalescible (a b : FormatRange) : bool :=
  bool_decide (endIndex a = startIndex b ∧ state a = state b
               ∧ abstractData a = abstractData b).

Fixpoint coalesce (l : list FormatRange) : list FormatRange :=
  match l with
  | [] => []
  | a :: rest =>
      match coalesce rest with
      | b :: rest' =>
          if coalescible a b then withSpan a (startIndex a) (endIndex b) :: rest'
          else a :: b :: rest'
      | [] => [a]
      end
  end.

Section MergeFormat.

(** The specification names two rules for an existing range that overlaps
    the new one: the existing range wins when [important] is false and the
    existing range is [Valid]; the new range wins when [important] is true.
    It is silent on the remaining case ([important] false, existing range
    not [Valid]); [undecided] settles it, [true] for the existing range. *)
Variable undecided : FormatRange → FormatRange → bool.

Definition existingWins (important : bool) (existing format : FormatRange) : bool :=
  if important then false
  else match state existing with
       | Valid => true
       | Invalid => undecided existing format
       end.

(** The walk over the existing ranges: the existing ranges that are kept
    (whole or cut), and what is left of the new range. *)
Fixpoint walk (important : bool) (format : FormatRange) (existing : list FormatRange)
    (pieces : list FormatRange) : list FormatRange * list FormatRange :=
  match existing with
  | [] => ([], pieces)
  | e :: rest =>
      if overlaps e format then
        if existingWins important e format then
          let '(kept, pieces) :=
            walk important format rest (pieces ≫= λ p, subtract p e) in
          (e :: kept, pieces)
        else
          let '(kept, pieces) := walk important format rest pieces in
          (subtract e format ++ kept, pieces)
      else
        let '(kept, pieces) := walk important format rest pieces in
        (e :: kept, pieces)
  end.

(** The ranges of one formatter after [format] is merged into them. *)
Definition mergeRanges (important : bool) (format : FormatRange)
    (existing : list FormatRange) : list FormatRange :=
  let '(kept, pieces) := walk important format existing [format] in
  coalesce (merge_sort startsBefore (kept ++ pieces)).

(** Modelled from the spec: [mergeFormat] of ./utils, which is not part of
    the sources.  "Fetch existing ranges for that Formatter (none → insert
    singleton list, done).  Otherwise, walk existing ranges; for each that
    overlaps the new range [one of the two rules above].  Non-overlapping
    existing ranges are preserved as-is.  Result list is kept sorted by
    startIndex ascending; adjacent ranges with identical state and
    abstractData are coalesced into one." *)
Definition mergeFormat (formatMatrix : gmap nat (list FormatRange)) (format : FormatRange)
    (important : bool) : gmap nat (list FormatRange) :=
  match formatMatrix !! handler format with
  | None => <[handler format := [format]]> formatMatrix
  | Some existing =>
      <[handler format := mergeRanges important format existing]> formatMatrix
  end.

(** [Single] (parser/single.ts): the parent fragment (by identity), the tag
    name and the format matrix. *)
Record Single := {
  parent : nat;
  tagName : string;
  formatMatrix : gmap nat (list FormatRange)
}.

(** [new Single(parent, tagName)]. *)
Definition newSingle (parent : nat) (tagName : string) : Single :=
  {| parent := parent; tagName := tagName; formatMatrix := ∅ |}.

(** [Single.mergeFormat(format, important = false)]. *)
Definition Single_mergeFormat (this : Single) (format : FormatRange) (important : bool) : Single :=
  {| parent := parent this; tagName := tagName this;
     formatMatrix := mergeFormat (formatMatrix this) format important |}.

(** [Single.getFormatRangesByHandler]. *)
Definition getFormatRangesByHandler (this : Single) (handler : nat) : option (list FormatRange) :=
  formatMatrix this !! handler.

(** [Single.setFormats]. *)
Definition setFormats (this : Single) (key : nat) (formatRanges : list FormatRange) : Single :=
  {| parent := parent this; tagName := tagName this;
     formatMatrix := <[key := formatRanges]> (formatMatrix this) |}.

(** [Single.cleanFormats]. *)
Definition cleanFormats (this : Single) : Single :=
  {| parent := parent this; tagName := tagName this; formatMatrix := ∅ |}.

(** A merge pass: the node after a sequence of [mergeFormat] calls. *)
Definition mergePass (this : Single) (formats : list (FormatRange * bool)) : Single :=
  foldl (λ s fi, Single_mergeFormat s fi.1 fi.2) this formats.

End MergeFormat.

(** *** The invariant of a list of ranges *)

(** No two ranges at distinct positions overlap. *)
Definition nonOverlapping (l : list FormatRange) : Prop :=
  ∀ i j a b, i ≠ j → l !! i = Some a → l !! j = Some b → overlaps a b = false.

(** The sequence is sorted by [startIndex], ascending. *)
Definition sortedByStart (l : list FormatRange) : Prop :=
  ∀ i j a b, (i < j)%nat → l !! i = Some a → l !! j = Some b → startIndex a ≤ startIndex b.

(** The invariant of a format matrix: under every handler, well-formed
    ranges, pairwise non-overlapping and sorted by [startIndex]. *)
Definition matrixInvariant (m : gmap nat (list FormatRange)) : Prop :=
  ∀ key ranges, m !! key = Some ranges →
    Forall wellFormed ranges ∧ nonOverlapping ranges ∧ sortedByStart ranges.

(** *** Intervals *)

(** [p] lies inside [q]. *)
Definition inside (p q : FormatRange) : Prop :=
  startIndex q ≤ startIndex p ∧ endIndex p ≤ endIndex q.

(** Every range of the list is disjoint from every later one. *)
Fixpoint pairwiseDisjoint (l : list FormatRange) : Prop :=
  match l with
  | [] => True
  | a :: rest => Forall (λ b, overlaps a b = false) rest ∧ pairwiseDisjoint rest
  end.

(** The invariant the merge keeps for the ranges of one formatter. *)
Definition goodRanges (l : list FormatRange) : Prop :=
  StronglySorted startsBefore l ∧ pairwiseDisjoint l ∧ Forall wellFormed l.

Ltac spans :=
  unfold overlaps, inside, wellFormed, startsBefore, withSpan in *; simpl in *;
  repeat match goal with
         | H : bool_decide _ = true |- _ => apply bool_decide_eq_true in H
         | H : bool_decide _ = false |- _ => apply bool_decide_eq_false in H
         end;
  split_and?;
  try match goal with
      | |- bool_decide _ = false => apply bool_decide_eq_false
      | |- bool_decide _ = true => apply bool_decide_eq_true
      end;
  try lia.

Lemma overlaps_sym a b : overlaps a b = overlaps b a.
Proof. unfold overlaps. apply bool_decide_ext. lia. Qed.

Lemma overlaps_nonempty a b :
  overlaps a b = true → startIndex a < endIndex a ∧ startIndex b < endIndex b.
Proof. intros Ho. spans. Qed.

Lemma inside_refl a : inside a a.
Proof. spans. Qed.

Lemma inside_trans a b c : inside a b → inside b c → inside a c.
Proof. intros ? ?. spans. Qed.

Lemma inside_disjoint p q x : inside p q → overlaps q x = false → overlaps p x = false.
Proof. intros Hi Ho. spans. Qed.

Lemma inside_disjoint_both p q x y :
  inside p x → inside q y → overlaps x y = false → overlaps p q = false.
Proof. intros Hp Hq Ho. spans. Qed.

Lemma elem_of_subtract p f cut :
  p ∈ subtract f cut →
  inside p f ∧ startIndex p < endIndex p ∧ overlaps p cut = false.
Proof.
  unfold subtract. intros Hin. apply elem_of_app in Hin as [Hin|Hin];
    case_bool_decide; try (by apply elem_of_nil in Hin);
    apply list_elem_of_singleton in Hin as ->; spans.
Qed.

Lemma subtract_pairwiseDisjoint f cut :
  startIndex cut ≤ endIndex cut → pairwiseDisjoint (subtract f cut).
Proof.
  intros Hc. unfold subtract. repeat case_bool_decide; simpl; repeat split;
    try apply Forall_nil_2; try (apply Forall_singleton); spans.
Qed.

Lemma pairwiseDisjoint_app l1 l2 :
  pairwiseDisjoint (l1 ++ l2) ↔
  pairwiseDisjoint l1 ∧ pairwiseDisjoint l2
  ∧ ∀ a b, a ∈ l1 → b ∈ l2 → overlaps a b = false.
Proof.
  induction l1 as [|x l1 IH]; simpl.
  - split; [intros ?; split_and!; [done..|]|tauto].
    intros a b Ha. by apply elem_of_nil in Ha.
  - rewrite Forall_app, IH. split.
    + intros ((Hx1 & Hx2) & H1 & H2 & H12). split_and!; try done.
      intros a b Ha Hb. apply elem_of_cons in Ha as [->|Ha]; [|by apply H12].
      by apply (proj1 (Forall_forall _ _) Hx2).
    + intros ((Hx1 & H1) & H2 & H12). split_and!; try done.
      * apply Forall_forall. intros b Hb. apply H12; [by left|done].
      * intros a b Ha Hb. apply H12; [by right|done].
Qed.

Lemma pairwiseDisjoint_Permutation l l' :
  l ≡ₚ l' → pairwiseDisjoint l → pairwiseDisjoint l'.
Proof.
  induction 1 as [|x l l' Hp IH|x y l|l l' l'' Hp1 IH1 Hp2 IH2]; simpl.
  - done.
  - intros [Hx Hl]. split; [by rewrite <- Hp|by apply IH].
  - intros [Hy [Hx Hl]]. apply Forall_cons in Hy as [Hyx Hy].
    split_and!; try done. apply Forall_cons. split; [|done].
    by rewrite overlaps_sym.
  - auto.
Qed.

Lemma pairwiseDisjoint_bind (f : FormatRange → list FormatRange) l :
  pairwiseDisjoint l →
  (∀ x, x ∈ l → Forall (λ p, inside p x) (f x) ∧ pairwiseDisjoint (f x)) →
  pairwiseDisjoint (l ≫= f).
Proof.
  induction l as [|x l IH]; [done|]. simpl. intros [Hx Hl] Hf.
  apply pairwiseDisjoint_app. split_and!.
  - apply Hf. by left.
  - apply IH; [done|]. intros y Hy. apply Hf. by right.
  - intros a b Ha Hb. apply list_elem_of_bind in Hb as (y & Hb & Hy).
    destruct (Hf x) as [Hfx _]; [by left|].
    destruct (Hf y) as [Hfy _]; [by right|].
    eapply inside_disjoint_both.
    + by apply (proj1 (Forall_forall _ _) Hfx).
    + by apply (proj1 (Forall_forall _ _) Hfy).
    + by apply (proj1 (Forall_forall _ _) Hx).
Qed.

Lemma pairwiseDisjoint_nonOverlapping l : pairwiseDisjoint l → nonOverlapping l.
Proof.
  induction l as [|x l IH]; intros Hl i j a b Hij Hi Hj; [done|].
  destruct Hl as [Hx Hl].
  destruct i as [|i], j as [|j]; simpl in *; simplify_eq.
  - apply (proj1 (Forall_forall _ _) Hx). by eapply list_elem_of_lookup_2.
  - rewrite overlaps_sym.
    apply (proj1 (Forall_forall _ _) Hx). by eapply list_elem_of_lookup_2.
  - eapply (IH Hl i j); [lia|done..].
Qed.

Lemma StronglySorted_sortedByStart l : StronglySorted startsBefore l → sortedByStart l.
Proof.
  induction 1 as [|x l Hl IH Hx]; intros i j a b Hij Hi Hj; [done|].
  destruct j as [|j]; [lia|]. destruct i as [|i]; simpl in *; simplify_eq.
  - apply (proj1 (Forall_forall _ _) Hx). by eapply list_elem_of_lookup_2.
  - eapply (IH i j); [lia|done..].
Qed.

Lemma sortedByStart_StronglySorted l : sortedByStart l → StronglySorted startsBefore l.
Proof.
  induction l as [|x l IH]; intros Hs; constructor.
  - apply IH. intros i j a b Hij Hi Hj. by apply (Hs (S i) (S j)); [lia|..].
  - apply Forall_forall. intros b Hb. apply list_elem_of_lookup_1 in Hb as [j Hj].
    by apply (Hs 0%nat (S j)); [lia|..].
Qed.

Global Instance startsBefore_trans : Transitive startsBefore.
Proof. intros a b c. unfold startsBefore. lia. Qed.

Global Instance startsBefore_total : Total startsBefore.
Proof. intros a b. unfold startsBefore. lia. Qed.

(** *** Coalescing keeps the invariant *)

Lemma coalesce_Forall (Q : FormatRange → Prop) l :
  (∀ a b, coalescible a b = true → wellFormed a → wellFormed b → Q a → Q b →
          Q (withSpan a (startIndex a) (endIndex b))) →
  Forall wellFormed l → Forall Q l →
  Forall wellFormed (coalesce l) ∧ Forall Q (coalesce l).
Proof.
  intros HQ. induction l as [|a l IH]; [done|].
  intros [Ha Hl]%Forall_cons [Qa Ql]%Forall_cons. simpl.
  destruct (IH Hl Ql) as [Hw Hq].
  destruct (coalesce l) as [|b rest]; [by split; apply Forall_singleton|].
  apply Forall_cons in Hw as [Hb Hw]. apply Forall_cons in Hq as [Qb Hq].
  destruct (coalescible a b) eqn:E.
  - split; (apply Forall_cons; split; [|done]); [|by apply HQ].
    unfold coalescible in E. apply bool_decide_eq_true in E. spans.
  - split; repeat (apply Forall_cons; split; try done).
Qed.

Lemma coalesce_goodRanges l : goodRanges l → goodRanges (coalesce l).
Proof.
  induction l as [|a l IH]; [done|]. intros (Hs & [Ha Hp] & Hw).
  apply StronglySorted_inv in Hs as [Hs Hsa].
  apply Forall_cons in Hw as [Hwa Hw].
  destruct (IH (conj Hs (conj Hp Hw))) as (Hs' & Hp' & Hw').
  assert (Forall (startsBefore a) (coalesce l)) as Hsa'.
  { apply (coalesce_Forall (startsBefore a) l); [|done..].
    intros x y _ _ _ Hx _. spans. }
  assert (Forall (λ b, overlaps a b = false) (coalesce l)) as Ha'.
  { apply (coalesce_Forall (λ b, overlaps a b = false) l); [|done..].
    intros x y E Hx Hy Ox Oy. unfold coalescible in E.
    apply bool_decide_eq_true in E. spans. }
  simpl. destruct (coalesce l) as [|b rest] eqn:Ec.
  { split_and!; [repeat constructor|by simpl|by apply Forall_singleton]. }
  apply StronglySorted_inv in Hs' as [Hs' Hsb].
  destruct Hp' as [Hb Hp']. apply Forall_cons in Hw' as [Hwb Hw'].
  apply Forall_cons in Hsa' as [Hab Hsa']. apply Forall_cons in Ha' as [Oab Ha'].
  destruct (coalescible a b) eqn:E.
  - unfold coalescible in E. apply bool_decide_eq_true in E.
    split_and!.
    + constructor; [done|]. eapply Forall_impl; [exact Hsa'|]. intros x Hx. spans.
    + simpl. split; [|done].
      apply Forall_forall. intros x Hx.
      pose proof (proj1 (Forall_forall _ _) Ha' x Hx) as O1.
      pose proof (proj1 (Forall_forall _ _) Hb x Hx) as O2. spans.
    + apply Forall_cons. split; [spans|done].
  - split_and!.
    + constructor; [by constructor|by apply Forall_cons].
    + simpl. split_and!; [by apply Forall_cons|done..].
    + by repeat (apply Forall_cons; split; try done).
Qed.

(** *** The walk keeps the ranges apart *)

Section MergeFacts.

Variable undecided : FormatRange → FormatRange → bool.

Lemma subtract_pieces f cut :
  startIndex cut ≤ endIndex cut →
  Forall (λ p, inside p f) (subtract f cut)
  ∧ pairwiseDisjoint (subtract f cut)
  ∧ Forall wellFormed (subtract f cut)
  ∧ Forall (λ p, overlaps p cut = false) (subtract f cut).
Proof.
  intros Hc. split_and!; [| by apply subtract_pairwiseDisjoint | |];
    apply Forall_forall; intros p Hp;
    destruct (elem_of_subtract p f cut Hp) as (Hi & Hn & Ho); [done| |done].
  unfold wellFormed. lia.
Qed.

Lemma walk_spec important format existing pieces kept pieces' :
  walk undecided important format existing pieces = (kept, pieces') →
  pairwiseDisjoint existing → Forall wellFormed existing →
  pairwiseDisjoint pieces → Forall wellFormed pieces →
  Forall (λ p, inside p format) pieces →
  pairwiseDisjoint kept ∧ Forall wellFormed kept
  ∧ pairwiseDisjoint pieces' ∧ Forall wellFormed pieces'
  ∧ Forall (λ p, inside p format) pieces'
  ∧ Forall (λ k, ∃ e, e ∈ existing ∧ inside k e) kept
  ∧ Forall (λ p', ∃ p, p ∈ pieces ∧ inside p' p) pieces'
  ∧ (∀ k p, k ∈ kept → p ∈ pieces' → overlaps k p = false).
Proof.
  revert pieces kept pieces'.
  induction existing as [|e rest IH]; intros pieces kept pieces' Hwalk Hd Hw Hpd Hpw Hpi.
  { simpl in Hwalk. injection Hwalk as <- <-. split_and!; try done.
    - apply Forall_forall. intros p Hp. exists p. split; [done|apply inside_refl].
    - intros k p Hk. by apply elem_of_nil in Hk. }
  destruct Hd as [He Hd]. apply Forall_cons in Hw as [Hwe Hw].
  simpl in Hwalk.
  destruct (overlaps e format) eqn:Ho.
  - destruct (overlaps_nonempty _ _ Ho) as [Hne Hnf].
    destruct (existingWins undecided important e format).
    + (* the existing range wins: the pieces of the new range lose its span *)
      destruct (walk undecided important format rest (pieces ≫= λ p, subtract p e))
        as [kept0 pieces0] eqn:Hrec.
      injection Hwalk as <- <-.
      assert (∀ p, Forall (λ q, inside q p) (subtract p e)
                   ∧ pairwiseDisjoint (subtract p e)
                   ∧ Forall wellFormed (subtract p e)
                   ∧ Forall (λ q, overlaps q e = false) (subtract p e)) as Hsub.
      { intros p. apply subtract_pieces. lia. }
      destruct (IH _ _ _ Hrec Hd Hw) as (K1 & K2 & P1 & P2 & P3 & K3 & P4 & X).
      * apply pairwiseDisjoint_bind; [done|]. intros p _.
        destruct (Hsub p) as (? & ? & _); done.
      * apply Forall_bind. apply Forall_forall. intros p _.
        by destruct (Hsub p) as (_ & _ & ? & _).
      * apply Forall_bind. apply Forall_forall. intros p Hp.
        destruct (Hsub p) as (Hin & _).
        eapply Forall_impl; [exact Hin|]. intros q Hq. simpl in Hq.
        eapply inside_trans; [exact Hq|].
        by apply (proj1 (Forall_forall _ _) Hpi).
      * split_and!; try done.
        -- simpl. split; [|done]. apply Forall_forall. intros k Hk.
           destruct (proj1 (Forall_forall _ _) K3 k Hk) as (e' & He' & Hke').
           rewrite overlaps_sym. eapply inside_disjoint; [exact Hke'|].
           rewrite overlaps_sym. by apply (proj1 (Forall_forall _ _) He).
        -- by apply Forall_cons.
        -- apply Forall_cons. split; [exists e; split; [by left|apply inside_refl]|].
           eapply Forall_impl; [exact K3|]. intros k (e' & He' & Hke').
           exists e'. split; [by right|done].
        -- eapply Forall_impl; [exact P4|]. intros p' (q & Hq & Hp'q).
           apply list_elem_of_bind in Hq as (p & Hq & Hp).
           exists p. split; [done|]. eapply inside_trans; [exact Hp'q|].
           destruct (Hsub p) as (Hin & _).
           by apply (proj1 (Forall_forall _ _) Hin).
        -- intros k p Hk Hp. apply elem_of_cons in Hk as [->|Hk]; [|by apply X].
           destruct (proj1 (Forall_forall _ _) P4 p Hp) as (q & Hq & Hpq).
           apply list_elem_of_bind in Hq as (p0 & Hq & Hp0).
           destruct (Hsub p0) as (_ & _ & _ & Hoe).
           rewrite overlaps_sym. eapply inside_disjoint; [exact Hpq|].
           by apply (proj1 (Forall_forall _ _) Hoe).
    + (* the new range wins: the existing range loses its span *)
      destruct (walk undecided important format rest pieces) as [kept0 pieces0] eqn:Hrec.
      injection Hwalk as <- <-.
      destruct (subtract_pieces e format) as (S1 & S2 & S3 & S4); [lia|].
      destruct (IH _ _ _ Hrec Hd Hw Hpd Hpw Hpi) as (K1 & K2 & P1 & P2 & P3 & K3 & P4 & X).
      split_and!; try done.
      * apply pairwiseDisjoint_app. split_and!; [done..|].
        intros a b Ha Hb.
        destruct (proj1 (Forall_forall _ _) K3 b Hb) as (e' & He' & Hbe').
        eapply inside_disjoint_both;
          [by apply (proj1 (Forall_forall _ _) S1)|exact Hbe'|].
        by apply (proj1 (Forall_forall _ _) He).
      * by apply Forall_app.
      * apply Forall_app. split.
        -- eapply Forall_impl; [exact S1|]. intros k Hk. exists e. split; [by left|done].
        -- eapply Forall_impl; [exact K3|]. intros k (e' & He' & Hke').
           exists e'. split; [by right|done].
      * intros k p Hk Hp. apply elem_of_app in Hk as [Hk|Hk]; [|by apply X].
        rewrite overlaps_sym.
        eapply inside_disjoint; [by apply (proj1 (Forall_forall _ _) P3)|].
        rewrite overlaps_sym. by apply (proj1 (Forall_forall _ _) S4).
  - (* no overlap: the existing range is preserved as it is *)
    destruct (walk undecided important format rest pieces) as [kept0 pieces0] eqn:Hrec.
    injection Hwalk as <- <-.
    destruct (IH _ _ _ Hrec Hd Hw Hpd Hpw Hpi) as (K1 & K2 & P1 & P2 & P3 & K3 & P4 & X).
    split_and!; try done.
    + simpl. split; [|done]. apply Forall_forall. intros k Hk.
      destruct (proj1 (Forall_forall _ _) K3 k Hk) as (e' & He' & Hke').
      rewrite overlaps_sym. eapply inside_disjoint; [exact Hke'|].
      rewrite overlaps_sym. by apply (proj1 (Forall_forall _ _) He).
    + by apply Forall_cons.
    + apply Forall_cons. split; [exists e; split; [by left|apply inside_refl]|].
      eapply Forall_impl; [exact K3|]. intros k (e' & He' & Hke').
      exists e'. split; [by right|done].
    + intros k p Hk Hp. apply elem_of_cons in Hk as [->|Hk]; [|by apply X].
      rewrite overlaps_sym.
      eapply inside_disjoint; [by apply (proj1 (Forall_forall _ _) P3)|].
      by rewrite overlaps_sym.
Qed.

Lemma mergeRanges_goodRanges important format existing :
  wellFormed format →
  pairwiseDisjoint existing → Forall wellFormed existing →
  goodRanges (mergeRanges undecided important format existing).
Proof.
  intros Hf Hd Hw. unfold mergeRanges.
  destruct (walk undecided important format existing [format]) as [kept pieces] eqn:Hwalk.
  destruct (walk_spec _ _ _ _ _ _ Hwalk Hd Hw) as (K1 & K2 & P1 & P2 & P3 & K3 & P4 & X).
  { simpl. split; [apply Forall_nil_2|done]. }
  { by apply Forall_singleton. }
  { apply Forall_singleton, inside_refl. }
  apply coalesce_goodRanges. split_and!.
  - apply StronglySorted_merge_sort; apply _.
  - eapply pairwiseDisjoint_Permutation; [symmetry; apply merge_sort_Permutation|].
    apply pairwiseDisjoint_app. by split_and!.
  - rewrite merge_sort_Permutation. by apply Forall_app.
Qed.

(** The invariant of a matrix: under every key, well-formed ranges, sorted,
    no two of which overlap. *)
Definition goodMatrix (m : gmap nat (list FormatRange)) : Prop :=
  ∀ key ranges, m !! key = Some ranges → goodRanges ranges.

Lemma nonOverlapping_pairwiseDisjoint l : nonOverlapping l → pairwiseDisjoint l.
Proof.
  induction l as [|x l IH]; [done|]. intros Hn. simpl. split.
  - apply Forall_forall. intros b Hb. apply list_elem_of_lookup_1 in Hb as [j Hj].
    by apply (Hn 0%nat (S j)).
  - apply IH. intros i j a b Hij Hi Hj. by apply (Hn (S i) (S j)); [lia|..].
Qed.

Lemma mergeFormat_goodMatrix m format important :
  wellFormed format → goodMatrix m →
  goodMatrix (mergeFormat undecided m format important).
Proof.
  intros Hf Hm key ranges. unfold mergeFormat.
  destruct (m !! handler format) as [existing|] eqn:E.
  - destruct (decide (key = handler format)) as [->|Hne].
    + rewrite lookup_insert_eq. intros [= <-].
      destruct (Hm _ _ E) as (_ & Hd & Hw). by apply mergeRanges_goodRanges.
    + rewrite lookup_insert_ne by done. apply Hm.
  - destruct (decide (key = handler format)) as [->|Hne].
    + rewrite lookup_insert_eq. intros [= <-]. split_and!.
      * repeat constructor.
      * simpl. split; [apply Forall_nil_2|done].
      * by apply Forall_singleton.
    + rewrite lookup_insert_ne by done. apply Hm.
Qed.

(** One merge already sorts the ranges of its formatter and keeps them
    apart, whatever their order was; the other keys are not touched. *)
Lemma mergeFormat_key m format important existing :
  wellFormed format →
  m !! handler format = Some existing →
  Forall wellFormed existing → nonOverlapping existing →
  ∃ ranges, mergeFormat undecided m format important !! handler format = Some ranges
    ∧ goodRanges ranges.
Proof.
  intros Hf E Hw Hn. unfold mergeFormat. rewrite E, lookup_insert_eq.
  eexists. split; [done|].
  apply mergeRanges_goodRanges; [done| |done].
  by apply nonOverlapping_pairwiseDisjoint.
Qed.

Lemma mergeFormat_other_key m format important key :
  key ≠ handler format →
  mergeFormat undecided m format important !! key = m !! key.
Proof.
  intros Hne. unfold mergeFormat.
  destruct (m !! handler format); by rewrite lookup_insert_ne.
Qed.

Lemma mergePass_goodMatrix this formats :
  Forall (λ fi, wellFormed fi.1) formats →
  goodMatrix (formatMatrix this) →
  goodMatrix (formatMatrix (mergePass undecided this formats)).
Proof.
  intros Hf. revert this. induction Hf as [|[f i] formats Hw Hf IH]; intros this Hm; [done|].
  simpl. apply IH. simpl. by apply mergeFormat_goodMatrix.
Qed.

Lemma goodMatrix_matrixInvariant m : goodMatrix m ↔ matrixInvariant m.
Proof.
  split; intros Hm key ranges Hk.
  - destruct (Hm key ranges Hk) as (Hs & Hd & Hw). split_and!; [done| |].
    + by apply pairwiseDisjoint_nonOverlapping.
    + by apply StronglySorted_sortedByStart.
  - destruct (Hm key ranges Hk) as (Hw & Hd & Hs). split_and!; [| |done].
    + by apply sortedByStart_StronglySorted.
    + by apply nonOverlapping_pairwiseDisjoint.
Qed.

(** The matrix of a new node has the invariant, and every merge pass from
    there keeps it. *)
Lemma newSingle_mergePass_invariant parent tagName formats :
  Forall (λ fi, wellFormed fi.1) formats →
  matrixInvariant (formatMatrix (mergePass undecided (newSingle parent tagName) formats)).
Proof.
  intros Hf. apply goodMatrix_matrixInvariant, mergePass_goodMatrix; [done|].
  intros key ranges Hk. simpl in Hk. by rewrite lookup_empty in Hk.
Qed.

(** C1.  After a merge pass the ranges stored under every handler are
    pairwise non-overlapping as half-open intervals and sorted by [startIndex]
    ascending: for a node built from a new one by [mergeFormat] calls, and,
    more generally, for any node whose matrix had this invariant before the
    pass. *)
Theorem mergeFormat_sorted_nonoverlapping formats :
  Forall (λ fi, wellFormed fi.1) formats →
  (∀ parent tagName key ranges,
     getFormatRangesByHandler (mergePass undecided (newSingle parent tagName) formats) key
       = Some ranges →
     nonOverlapping ranges ∧ sortedByStart ranges)
  ∧ (∀ this key ranges,
       matrixInvariant (formatMatrix this) →
       getFormatRangesByHandler (mergePass undecided this formats) key = Some ranges →
       nonOverlapping ranges ∧ sortedByStart ranges).
Proof.
  intros Hf.
  assert (∀ this key ranges,
            goodMatrix (formatMatrix this) →
            getFormatRangesByHandler (mergePass undecided this formats) key = Some ranges →
            nonOverlapping ranges ∧ sortedByStart ranges) as Hpass.
  { intros this key ranges Hm Hk.
    destruct (mergePass_goodMatrix this formats Hf Hm key ranges Hk) as (Hs & Hd & _).
    split; [by apply pairwiseDisjoint_nonOverlapping|by apply StronglySorted_sortedByStart]. }
  split.
  - intros parent tagName key ranges. apply Hpass.
    intros k l Hk. simpl in Hk. by rewrite lookup_empty in Hk.
  - intros this key ranges Hm. apply Hpass. by apply goodMatrix_matrixInvariant.
Qed.

End MergeFacts.

(** *** Bold over a paragraph *)

Definition strong : FormatAbstractData :=
  {| tag := "strong"; attrs := ∅; styles := ∅; classes := [] |}.

Definition bold (s e : Z) (st : FormatState) : FormatRange :=
  {| startIndex := s; endIndex := e; state := st; abstractData := strong;
     cacheData := None; handler := 7 |}.

(** The silent case settled for the new range. *)
Definition newWins (existing format : FormatRange) : bool := false.

Example mergeRanges_existing_wins :
  mergeRanges newWins false (bold 0 5 Valid) [bold 3 8 Valid] = [bold 0 8 Valid].
Proof. by vm_compute. Qed.

Example mergeRanges_split_new :
  mergeRanges newWins false (bold 0 10 Invalid) [bold 3 5 Valid]
  = [bold 0 3 Invalid; bold 3 5 Valid; bold 5 10 Invalid].
Proof. by vm_compute. Qed.

Example mergeRanges_important :
  mergeRanges newWins true (bold 4 6 Invalid) [bold 0 5 Valid; bold 5 9 Valid]
  = [bold 0 4 Valid; bold 4 6 Invalid; bold 6 9 Valid].
Proof. by vm_compute. Qed.

Example mergeRanges_preserved :
  mergeRanges newWins false (bold 10 12 Valid) [bold 0 5 Valid; bold 6 8 Invalid]
  = [bold 0 5 Valid; bold 6 8 Invalid; bold 10 12 Valid].
Proof. by vm_compute. Qed.

Definition samplePass : list (FormatRange * bool) :=
  [ (bold 3 8 Valid, false); (bold 0 5 Invalid, false); (bold 6 12 Invalid, true) ].

Example mergePass_sample :
  getFormatRangesByHandler (mergePass newWins (newSingle 0 "img") samplePass) 7
  = Some [bold 0 3 Invalid; bold 3 6 Valid; bold 6 12 Invalid].
Proof. by vm_compute. Qed.

Lemma mergeFormat_sorted_nonoverlapping_witness :
  nonOverlapping [bold 0 3 Invalid; bold 3 6 Valid; bold 6 12 Invalid]
  ∧ sortedByStart [bold 0 3 Invalid; bold 3 6 Valid; bold 6 12 Invalid].
Proof.
  refine (proj1 (mergeFormat_sorted_nonoverlapping newWins samplePass _) 0%nat "img" 7%nat _ _).
  - repeat constructor; by vm_compute.
  - by vm_compute.
Defined.

(** A matrix filled through [setFormats] need not have the invariant, and a
    merge that meets none of its ranges preserves them as they are. *)
Example mergeFormat_after_setFormats :
  getFormatRangesByHandler
    (Single_mergeFormat newWins
       (setFormats (newSingle 0 "img") 7 [bold 0 5 Valid; bold 3 8 Invalid])
       (bold 10 12 Valid) false) 7
  = Some [bold 0 5 Valid; bold 3 8 Invalid; bold 10 12 Valid].
Proof. by vm_compute. Qed.

End Format.

(** ** [Single.clone] over a store of objects *)

Module Store.
Import JS Core Format.

(** The objects a [Single] reaches.  A [Map] from handlers to arrays, an
    array of ranges, a range and its abstract data are separate objects,
    known by their location; a handler, like the parent fragment, is known by
    its identity and never followed. *)
Inductive object :=
  | OSingle (parent : nat) (tagName : string) (formatMatrix : nat)
  | OMap (entries : gmap nat nat)
  | OArray (items : list nat)
  | ORange (startIndex endIndex : Z) (state : FormatState) (abstractData : nat)
      (cacheData : option string) (handler : nat)
  | OData (data : FormatAbstractData).

(** A computation over the store that may throw. *)
Definition M (A : Type) : Type := gmap nat object → completion (A * gmap nat object).

Global Instance M_ret : MRet M := λ A a h, Normal (a, h).
Global Instance M_bind : MBind M := λ A B k c h,
  match c h with
  | Normal (a, h') => k a h'
  | Throw e => Throw e
  end.
Global Instance M_fmap : FMap M := λ A B f c, a ← c; mret (f a).

Definition throw {A} (e : error) : M A := λ _, Throw e.

(** [new]: the object gets a location no object has. *)
Definition alloc (o : object) : M nat := λ h,
  let l := fresh (dom h) in Normal (l, <[l := o]> h).

(** Reading a member of [null], [undefined] or an object of another class
    raises. *)
Definition readSingle (l : nat) : M (nat * string * nat) := λ h,
  match h !! l with
  | Some (OSingle parent tagName formatMatrix) => Normal ((parent, tagName, formatMatrix), h)
  | _ => Throw TypeError
  end.

Definition readMap (l : nat) : M (gmap nat nat) := λ h,
  match h !! l with
  | Some (OMap entries) => Normal (entries, h)
  | _ => Throw TypeError
  end.

Definition readArray (l : nat) : M (list nat) := λ h,
  match h !! l with
  | Some (OArray items) => Normal (items, h)
  | _ => Throw TypeError
  end.

Definition write (l : nat) (o : object) : M unit := λ h, Normal ((), <[l := o]> h).

(** [s.formatMatrix = m]. *)
Definition setFormatMatrix (s m : nat) : M unit :=
  '(parent, tagName, _) ← readSingle s;
  write s (OSingle parent tagName m).

(** [map.keys()], [map.get(key)] and [map.set(key, value)]. *)
Definition mapKeys (m : nat) : M (list nat) :=
  entries ← readMap m; mret (map_to_list entries).*1.

Definition mapGet (m key : nat) : M (option nat) :=
  entries ← readMap m; mret (entries !! key).

Definition mapSet (m key value : nat) : M unit :=
  entries ← readMap m; write m (OMap (<[key := value]> entries)).

(** [array.map(f)] and [array.forEach(f)]. *)
Fixpoint arrayMap (f : nat → M nat) (items : list nat) : M (list nat) :=
  match items with
  | [] => mret []
  | x :: rest => y ← f x; ys ← arrayMap f rest; mret (y :: ys)
  end.

Fixpoint arrayForEach (f : nat → M unit) (items : list nat) : M unit :=
  match items with
  | [] => mret ()
  | x :: rest => f x;; arrayForEach f rest
  end.

(** Modelled from the spec: [FormatRange.clone] (./format is not part of the
    sources), an "independent copy (deep for abstractData structures, since
    later mutation must not alias)": a new range object with the same
    indices, state, cache data and handler, over a new copy of the abstract
    data. *)
Definition FormatRange_clone (f : nat) : M nat := λ h,
  match h !! f with
  | Some (ORange startIndex endIndex state abstractData cacheData handler) =>
      match h !! abstractData with
      | Some (OData data) =>
          (d ← alloc (OData data);
           alloc (ORange startIndex endIndex state d cacheData handler)) h
      | _ => Throw TypeError
      end
  | _ => Throw TypeError
  end.

(** [new Single(parent, tagName)]: the field initialiser builds the
    matrix. *)
Definition Single_new (parent : nat) (tagName : string) : M nat :=
  m ← alloc (OMap ∅);
  alloc (OSingle parent tagName m).

(** The callback of the [forEach] in [clone]:
    [s.formatMatrix.set(key, this.formatMatrix.get(key).map(f => f.clone()))]. *)
Definition cloneEntry (formatMatrix s key : nat) : M unit :=
  '(_, _, target) ← readSingle s;
  source ← mapGet formatMatrix key;
  match source with
  | None => throw TypeError
  | Some array =>
      items ← readArray array;
      clones ← arrayMap FormatRange_clone items;
      copy ← alloc (OArray clones);
      mapSet target key copy
  end.

(** [Single.clone] (single.ts, lines 46-55). *)
Definition Single_clone (this : nat) : M nat :=
  '(parent, tagName, formatMatrix) ← readSingle this;
  s ← Single_new parent tagName;
  m ← alloc (OMap ∅);
  setFormatMatrix s m;;
  keys ← mapKeys formatMatrix;
  arrayForEach (cloneEntry formatMatrix s) keys;;
  mret s.

(** [Single.cleanFormats]: [this.formatMatrix.clear()]. *)
Definition Single_cleanFormats (this : nat) : M unit :=
  '(_, _, m) ← readSingle this;
  readMap m;;
  write m (OMap ∅).

(** [Single.setFormats(key, formatRanges)]:
    [this.formatMatrix.set(key, formatRanges)]. *)
Definition Single_setFormats (this key formatRanges : nat) : M unit :=
  '(_, _, m) ← readSingle this;
  mapSet m key formatRanges.

(** *** What a location stands for *)

(** The value of the range at [f]. *)
Definition reifyRange (h : gmap nat object) (f : nat) : option FormatRange :=
  match h !! f with
  | Some (ORange startIndex endIndex state abstractData cacheData handler) =>
      match h !! abstractData with
      | Some (OData data) =>
          Some {| startIndex := startIndex; endIndex := endIndex; state := state;
                  Format.abstractData := data; cacheData := cacheData; handler := handler |}
      | _ => None
      end
  | _ => None
  end.

(** The value of the array of ranges at [a]. *)
Definition reifyArray (h : gmap nat object) (a : nat) : option (list FormatRange) :=
  match h !! a with
  | Some (OArray items) => mapM (reifyRange h) items
  | _ => None
  end.

(** The value of the matrix at [m]: every array of the map has a value. *)
Definition reifyMatrix (h : gmap nat object) (m : nat) : option (gmap nat (list FormatRange)) :=
  match h !! m with
  | Some (OMap entries) =>
      let matrix := omap (reifyArray h) entries in
      if decide (dom matrix = dom entries) then Some matrix else None
  | _ => None
  end.

(** The value of the node at [s]: its parent, its tag name and the value of
    its matrix. *)
Definition reifySingle (h : gmap nat object) (s : nat) : option Single :=
  match h !! s with
  | Some (OSingle parent tagName formatMatrix) =>
      matrix ← reifyMatrix h formatMatrix;
      Some {| Format.parent := parent; Format.tagName := tagName;
              Format.formatMatrix := matrix |}
  | _ => None
  end.

(** *** Reading values in a larger store *)

Lemma reifyRange_weaken h h' f v :
  h ⊆ h' → reifyRange h f = Some v → reifyRange h' f = Some v.
Proof.
  intros Hsub. unfold reifyRange.
  destruct (h !! f) as [[| | |s e st d c hd|]|] eqn:Ef; try done.
  destruct (h !! d) as [[| | | |data]|] eqn:Ed; try done.
  intros [= <-].
  by rewrite (lookup_weaken _ _ _ _ Ef Hsub), (lookup_weaken _ _ _ _ Ed Hsub).
Qed.

Lemma reifyArray_Some h a r :
  reifyArray h a = Some r ↔
  ∃ items, h !! a = Some (OArray items)
    ∧ Forall2 (λ f v, reifyRange h f = Some v) items r.
Proof.
  unfold reifyArray. split.
  - destruct (h !! a) as [[| |items| |]|]; try done.
    intros Hm. exists items. split; [done|]. by apply mapM_Some.
  - intros (items & -> & Hf). by apply mapM_Some.
Qed.

Lemma reifyArray_weaken h h' a r :
  h ⊆ h' → reifyArray h a = Some r → reifyArray h' a = Some r.
Proof.
  intros Hsub. rewrite !reifyArray_Some. intros (items & Ha & Hf).
  exists items. split; [by eapply lookup_weaken|].
  eapply Forall2_impl; [exact Hf|]. intros f v. by apply reifyRange_weaken.
Qed.

(** The arrays of [entries] hold the values [matrix] gives. *)
Definition holds (h : gmap nat object) (entries : gmap nat nat)
    (matrix : gmap nat (list FormatRange)) : Prop :=
  dom entries = dom matrix
  ∧ ∀ key a, entries !! key = Some a →
      ∃ r, reifyArray h a = Some r ∧ matrix !! key = Some r.

Lemma reifyMatrix_Some h m matrix :
  reifyMatrix h m = Some matrix ↔
  ∃ entries, h !! m = Some (OMap entries) ∧ holds h entries matrix.
Proof.
  unfold reifyMatrix. split.
  - destruct (h !! m) as [[|entries| | |]|]; try done.
    case_decide as Hdom; [|done]. intros [= <-].
    exists entries. split; [done|]. split; [done|].
    intros key a Hk.
    assert (is_Some (omap (reifyArray h) entries !! key)) as [r Hr].
    { apply elem_of_dom. rewrite Hdom. apply elem_of_dom. by eexists. }
    exists r. split; [|done]. by rewrite lookup_omap, Hk in Hr.
  - intros (entries & -> & Hdom & Hh).
    assert (omap (reifyArray h) entries = matrix) as ->.
    { apply map_eq. intros key. rewrite lookup_omap.
      destruct (entries !! key) as [a|] eqn:Ek; simpl.
      - by destruct (Hh key a Ek) as (r & -> & ->).
      - symmetry. apply not_elem_of_dom. rewrite <- Hdom. by apply not_elem_of_dom. }
    by rewrite decide_True.
Qed.

Lemma holds_weaken h h' entries matrix :
  h ⊆ h' → holds h entries matrix → holds h' entries matrix.
Proof.
  intros Hsub [Hdom Hh]. split; [done|]. intros key a Hk.
  destruct (Hh key a Hk) as (r & Hr & Hm). exists r.
  split; [by eapply reifyArray_weaken|done].
Qed.

Lemma reifyMatrix_weaken h h' m matrix :
  h ⊆ h' → reifyMatrix h m = Some matrix → reifyMatrix h' m = Some matrix.
Proof.
  intros Hsub. rewrite !reifyMatrix_Some. intros (entries & Hm & Hh).
  exists entries. split; [by eapply lookup_weaken|by eapply holds_weaken].
Qed.

Lemma reifySingle_Some h s v :
  reifySingle h s = Some v ↔
  ∃ m, h !! s = Some (OSingle (Format.parent v) (Format.tagName v) m)
    ∧ reifyMatrix h m = Some (Format.formatMatrix v).
Proof.
  unfold reifySingle. split.
  - destruct (h !! s) as [[p t m| | | |]|]; try done.
    destruct (reifyMatrix h m) as [matrix|] eqn:Em; [|done]. simpl.
    intros [= <-]. by exists m.
  - intros (m & -> & ->). by destruct v.
Qed.

(** A value read in a store is read in every store that extends it. *)
Lemma reifySingle_weaken h h' s v :
  h ⊆ h' → reifySingle h s = Some v → reifySingle h' s = Some v.
Proof.
  intros Hsub. rewrite !reifySingle_Some. intros (m & Hs & Hm).
  exists m. split; [by eapply lookup_weaken|by eapply reifyMatrix_weaken].
Qed.

(** Writing a map over a map changes the value of no array. *)
Lemma reifyRange_write_map h l entries entries' f :
  h !! l = Some (OMap entries) →
  reifyRange (<[l := OMap entries']> h) f = reifyRange h f.
Proof.
  intros Hl. unfold reifyRange.
  destruct (decide (f = l)) as [->|Hf].
  { by rewrite lookup_insert_eq, Hl. }
  rewrite lookup_insert_ne by done.
  destruct (h !! f) as [[| | |s e st d c hd|]|]; try done.
  destruct (decide (d = l)) as [->|Hd].
  { by rewrite lookup_insert_eq, Hl. }
  by rewrite lookup_insert_ne.
Qed.

Lemma reifyArray_write_map h l entries entries' a :
  h !! l = Some (OMap entries) →
  reifyArray (<[l := OMap entries']> h) a = reifyArray h a.
Proof.
  intros Hl. unfold reifyArray.
  destruct (decide (a = l)) as [->|Ha].
  { by rewrite lookup_insert_eq, Hl. }
  rewrite lookup_insert_ne by done.
  destruct (h !! a) as [[| |items| |]|]; try done.
  induction items as [|f items IH]; [done|].
  simpl. by rewrite IH, (reifyRange_write_map h l entries entries' f Hl).
Qed.

(** *** [clone] allocates beside the store it reads *)

Lemma bind_Normal {A B} (c : M A) (k : A → M B) h a h' :
  c h = Normal (a, h') → (c ≫= k) h = k a h'.
Proof. intros E. unfold mbind, M_bind. by rewrite E. Qed.

Lemma alloc_union (h hc : gmap nat object) o :
  hc ##ₘ h →
  ∃ l, alloc o (h ∪ hc) = Normal (l, h ∪ <[l := o]> hc)
    ∧ h !! l = None ∧ hc !! l = None.
Proof.
  intros Hd. exists (fresh (dom (h ∪ hc))).
  pose proof (is_fresh (dom (h ∪ hc))) as Hf.
  apply not_elem_of_dom, lookup_union_None in Hf as [Hh Hc].
  split_and!; try done. unfold alloc. simpl. by rewrite insert_union_r.
Qed.

Lemma lookup_beside (h hc : gmap nat object) l o :
  hc ##ₘ h → hc !! l = Some o → (h ∪ hc) !! l = Some o ∧ h !! l = None.
Proof.
  intros Hd Hl. pose proof (map_disjoint_Some_l _ _ _ _ Hd Hl) as Hn.
  split; [|done]. by rewrite lookup_union_r.
Qed.

Lemma FormatRange_clone_spec (h hc : gmap nat object) f v :
  hc ##ₘ h → reifyRange h f = Some v →
  ∃ f' hc', FormatRange_clone f (h ∪ hc) = Normal (f', h ∪ hc')
    ∧ hc' ##ₘ h ∧ hc ⊆ hc' ∧ reifyRange hc' f' = Some v.
Proof.
  intros Hd. unfold reifyRange.
  destruct (h !! f) as [[| | |s e st d c hd|]|] eqn:Ef; try done.
  destruct (h !! d) as [[| | | |data]|] eqn:Ed; try done.
  intros [= <-]. unfold FormatRange_clone.
  rewrite (lookup_union_Some_l _ _ _ _ Ef), (lookup_union_Some_l _ _ _ _ Ed).
  destruct (alloc_union h hc (OData data) Hd) as (d' & Ea & Hhd & Hcd).
  rewrite (bind_Normal _ _ _ _ _ Ea).
  assert (<[d' := OData data]> hc ##ₘ h) as Hd1 by by apply map_disjoint_insert_l.
  destruct (alloc_union h _ (ORange s e st d' c hd) Hd1) as (f' & Ea' & Hhf & Hcf).
  rewrite Ea'. eexists f', _. split; [done|].
  assert (f' ≠ d') as Hne.
  { intros ->. by rewrite lookup_insert_eq in Hcf. }
  split_and!.
  - by apply map_disjoint_insert_l.
  - etrans; [|by apply insert_subseteq]. by apply insert_subseteq.
  - unfold reifyRange. rewrite lookup_insert_eq.
    rewrite lookup_insert_ne by done. by rewrite lookup_insert_eq.
Qed.

Lemma arrayMap_clone_spec (h : gmap nat object) items r :
  Forall2 (λ f v, reifyRange h f = Some v) items r →
  ∀ hc, hc ##ₘ h →
  ∃ items' hc', arrayMap FormatRange_clone items (h ∪ hc) = Normal (items', h ∪ hc')
    ∧ hc' ##ₘ h ∧ hc ⊆ hc'
    ∧ Forall2 (λ f v, reifyRange hc' f = Some v) items' r.
Proof.
  induction 1 as [|f v items r Hf Hitems IH]; intros hc Hd.
  - exists [], hc. by split_and!.
  - destruct (FormatRange_clone_spec h hc f v Hd Hf) as (f' & hc1 & E1 & Hd1 & Hs1 & Hr1).
    destruct (IH hc1 Hd1) as (items' & hc2 & E2 & Hd2 & Hs2 & Hr2).
    exists (f' :: items'), hc2. split_and!; try done.
    + simpl. rewrite (bind_Normal _ _ _ _ _ E1), (bind_Normal _ _ _ _ _ E2). done.
    + by etrans.
    + constructor; [by eapply reifyRange_weaken|done].
Qed.

(** The clone under construction: the node at [s] with its map at [target],
    the arrays of which hold copies of what [matrix] gives for their keys. *)
Definition building (hc : gmap nat object) (s target : nat) (parent : nat) (tagName : string)
    (copied : gmap nat nat) (matrix : gmap nat (list FormatRange)) : Prop :=
  s ≠ target
  ∧ hc !! s = Some (OSingle parent tagName target)
  ∧ hc !! target = Some (OMap copied)
  ∧ ∀ key a, copied !! key = Some a →
      ∃ r, reifyArray hc a = Some r ∧ matrix !! key = Some r.

Lemma cloneEntry_spec h formatMatrix entries matrix s target parent tagName key hc copied :
  h !! formatMatrix = Some (OMap entries) → holds h entries matrix →
  is_Some (entries !! key) →
  hc ##ₘ h → building hc s target parent tagName copied matrix →
  ∃ hc' copy, cloneEntry formatMatrix s key (h ∪ hc) = Normal ((), h ∪ hc')
    ∧ hc' ##ₘ h
    ∧ building hc' s target parent tagName (<[key := copy]> copied) matrix.
Proof.
  intros Hfm [Hdom Hh] [a Ha] Hd (Hst & Hs & Ht & Hc).
  destruct (Hh key a Ha) as (r & Hr & Hm).
  apply reifyArray_Some in Hr as (items & Harr & Hitems).
  destruct (lookup_beside h hc s _ Hd Hs) as [Hs' _].
  unfold cloneEntry.
  rewrite (bind_Normal (readSingle s) _ (h ∪ hc) (parent, tagName, target) (h ∪ hc))
    by (unfold readSingle; by rewrite Hs').
  cbv beta iota.
  rewrite (bind_Normal (mapGet formatMatrix key) _ (h ∪ hc) (Some a) (h ∪ hc)).
  2:{ unfold mapGet. rewrite (bind_Normal (readMap formatMatrix) _ (h ∪ hc) entries (h ∪ hc)).
      - by rewrite Ha.
      - unfold readMap. by rewrite (lookup_union_Some_l _ _ _ _ Hfm). }
  rewrite (bind_Normal (readArray a) _ (h ∪ hc) items (h ∪ hc))
    by (unfold readArray; by rewrite (lookup_union_Some_l _ _ _ _ Harr)).
  destruct (arrayMap_clone_spec h items r Hitems hc Hd) as (items' & hc1 & E1 & Hd1 & Hs1 & Hr1).
  rewrite (bind_Normal _ _ _ _ _ E1).
  destruct (alloc_union h hc1 (OArray items') Hd1) as (copy & E2 & Hhc & Hcc).
  rewrite (bind_Normal _ _ _ _ _ E2).
  set (hc2 := <[copy := OArray items']> hc1).
  assert (hc2 ##ₘ h) as Hd2 by by apply map_disjoint_insert_l.
  assert (hc1 ⊆ hc2) as Hs2 by by apply insert_subseteq.
  assert (hc2 !! target = Some (OMap copied)) as Ht2.
  { eapply lookup_weaken; [|exact Hs2]. exact (lookup_weaken _ _ _ _ Ht Hs1). }
  destruct (lookup_beside h hc2 target _ Hd2 Ht2) as [Ht2' Hht].
  unfold mapSet.
  rewrite (bind_Normal (readMap target) _ (h ∪ hc2) copied (h ∪ hc2))
    by (unfold readMap; by rewrite Ht2').
  unfold write. rewrite insert_union_r by done.
  eexists _, copy. split; [done|].
  assert (copy ≠ target) as Hct.
  { intros ->. rewrite (lookup_weaken _ _ _ _ Ht Hs1) in Hcc. done. }
  unfold building. split_and!.
  - by apply map_disjoint_insert_l.
  - done.
  - rewrite lookup_insert_ne by done.
    eapply lookup_weaken; [|exact Hs2]. exact (lookup_weaken _ _ _ _ Hs Hs1).
  - by rewrite lookup_insert_eq.
  - intros key' a' Hk'.
    rewrite (reifyArray_write_map hc2 target copied _ a' Ht2).
    destruct (decide (key' = key)) as [->|Hne].
    + rewrite lookup_insert_eq in Hk'. injection Hk' as <-.
      exists r. split; [|done]. apply reifyArray_Some. exists items'.
      split; [by apply lookup_insert_eq|].
      eapply Forall2_impl; [exact Hr1|]. intros f v. by apply reifyRange_weaken.
    + rewrite lookup_insert_ne in Hk' by done.
      destruct (Hc key' a' Hk') as (r' & Hr' & Hm'). exists r'. split; [|done].
      eapply reifyArray_weaken; [|exact Hr']. by etrans.
Qed.

Lemma cloneLoop_spec h formatMatrix entries matrix s target parent tagName keys :
  h !! formatMatrix = Some (OMap entries) → holds h entries matrix →
  (∀ key, key ∈ keys → is_Some (entries !! key)) →
  ∀ hc copied, hc ##ₘ h → building hc s target parent tagName copied matrix →
  ∃ hc' copied',
    arrayForEach (cloneEntry formatMatrix s) keys (h ∪ hc) = Normal ((), h ∪ hc')
    ∧ hc' ##ₘ h
    ∧ building hc' s target parent tagName copied' matrix
    ∧ dom copied' = dom copied ∪ list_to_set keys.
Proof.
  intros Hfm Hh. induction keys as [|key keys IH]; intros Hkeys hc copied Hd Hb.
  - exists hc, copied. split_and!; try done. simpl. by rewrite (right_id_L ∅ (∪)).
  - destruct (cloneEntry_spec h formatMatrix entries matrix s target parent tagName key
                hc copied Hfm Hh) as (hc1 & copy & E1 & Hd1 & Hb1); [|done..|].
    { apply Hkeys. by left. }
    destruct (IH (λ k Hk, Hkeys k (list_elem_of_further _ _ _ Hk)) hc1 _ Hd1 Hb1)
      as (hc2 & copied2 & E2 & Hd2 & Hb2 & Hdom2).
    exists hc2, copied2. split_and!; try done.
    + simpl. rewrite (bind_Normal _ _ _ _ _ E1). exact E2.
    + rewrite Hdom2, dom_insert_L. simpl.
      by rewrite (comm_L (∪) {[key]}), <- (assoc_L (∪)).
Qed.

(** [clone] returns normally, and the clone can be read, to the value of
    the original, in the objects [clone] allocated alone. *)
Lemma Single_clone_allocates (h : gmap nat object) (this : nat) (v : Single) :
  reifySingle h this = Some v →
  ∃ s hc,
    Single_clone this h = Normal (s, h ∪ hc)
    ∧ hc ##ₘ h
    ∧ reifySingle hc s = Some v.
Proof.
  intros Hv. pose proof Hv as Hv0.
  apply reifySingle_Some in Hv as (fm & Hthis & Hm).
  apply reifyMatrix_Some in Hm as (entries & Hfm & Hh).
  set (p := Format.parent v) in *. set (t := Format.tagName v) in *.
  assert ((∅ : gmap nat object) ##ₘ h) as Hd0 by apply map_disjoint_empty_l.
  destruct (alloc_union h ∅ (OMap ∅) Hd0) as (m0 & E0 & Hh0 & _).
  set (hc1 := <[m0 := OMap ∅]> (∅ : gmap nat object)) in *.
  assert (hc1 ##ₘ h) as Hd1 by by apply map_disjoint_insert_l.
  destruct (alloc_union h hc1 (OSingle p t m0) Hd1) as (s & E1 & Hhs & Hcs).
  set (hc2 := <[s := OSingle p t m0]> hc1) in *.
  assert (hc2 ##ₘ h) as Hd2 by by apply map_disjoint_insert_l.
  destruct (alloc_union h hc2 (OMap ∅) Hd2) as (m & E2 & Hhm & Hcm).
  set (hc3 := <[m := OMap ∅]> hc2) in *.
  assert (hc3 ##ₘ h) as Hd3 by by apply map_disjoint_insert_l.
  assert (m ≠ s) as Hms.
  { intros ->. unfold hc2 in Hcm. by rewrite lookup_insert_eq in Hcm. }
  assert (hc3 !! s = Some (OSingle p t m0)) as Hs3.
  { unfold hc3, hc2. rewrite lookup_insert_ne by done. apply lookup_insert_eq. }
  destruct (lookup_beside h hc3 s _ Hd3 Hs3) as [Hs3' _].
  set (hc4 := <[s := OSingle p t m]> hc3).
  assert (hc4 ##ₘ h) as Hd4 by by apply map_disjoint_insert_l.
  assert (building hc4 s m p t ∅ (Format.formatMatrix v)) as Hb.
  { unfold building, hc4. split_and!; [done| | |].
    - apply lookup_insert_eq.
    - rewrite lookup_insert_ne by done. apply lookup_insert_eq.
    - intros key a. by rewrite lookup_empty. }
  destruct (cloneLoop_spec h fm entries (Format.formatMatrix v) s m p t
              (map_to_list entries).*1 Hfm Hh) with (hc := hc4) (copied := (∅ : gmap nat nat))
    as (hc' & copied' & E5 & Hd5 & Hb5 & Hdom5); [|done..|].
  { intros key Hk. apply list_elem_of_fmap in Hk as ([k a] & -> & Hk).
    apply elem_of_map_to_list in Hk. by eexists. }
  exists s, hc'. split_and!; [|done|].
  - rewrite <- (right_id_L ∅ (∪) h) at 1.
    unfold Single_clone.
    rewrite (bind_Normal (readSingle this) _ (h ∪ ∅) (p, t, fm) (h ∪ ∅))
      by (unfold readSingle; by rewrite (lookup_union_Some_l _ _ _ _ Hthis)).
    cbv beta iota.
    assert (Single_new p t (h ∪ ∅) = Normal (s, h ∪ hc2)) as En.
    { unfold Single_new. rewrite (bind_Normal _ _ _ _ _ E0). exact E1. }
    rewrite (bind_Normal _ _ _ _ _ En).
    rewrite (bind_Normal _ _ _ _ _ E2).
    rewrite (bind_Normal (setFormatMatrix s m) _ (h ∪ hc3) () (h ∪ hc4)).
    2:{ unfold setFormatMatrix.
        rewrite (bind_Normal (readSingle s) _ (h ∪ hc3) (p, t, m0) (h ∪ hc3))
          by (unfold readSingle; by rewrite Hs3').
        unfold write. by rewrite insert_union_r. }
    rewrite (bind_Normal (mapKeys fm) _ (h ∪ hc4) (map_to_list entries).*1 (h ∪ hc4)).
    2:{ unfold mapKeys.
        rewrite (bind_Normal (readMap fm) _ (h ∪ hc4) entries (h ∪ hc4)); [done|].
        unfold readMap. by rewrite (lookup_union_Some_l _ _ _ _ Hfm). }
    by rewrite (bind_Normal _ _ _ _ _ E5).
  - destruct Hb5 as (_ & Hs5 & Hm5 & Hc5).
    apply reifySingle_Some. exists m. split; [done|].
    apply reifyMatrix_Some. exists copied'. split; [done|]. split; [|done].
    rewrite Hdom5, dom_empty_L, (left_id_L ∅ (∪)).
    destruct Hh as [<- _]. symmetry. apply leibniz_equiv, dom_alt.
Qed.

(** C5.  [clone] returns a new node with the same parent and tag name
    whose matrix is deep-equal to the original's, and the two share no object:
    everything the clone reaches lies in the objects [clone] allocated, beside
    the store it was called in.  So the original keeps its value when any
    object of the clone is overwritten (a range added to or removed from an
    array or the map of the clone, the abstract data of a cloned range
    changed), and the clone keeps its value whatever is done to the objects
    of the original. *)
Theorem Single_clone_deep_equal_independent (h : gmap nat object) (this : nat) (v : Single) :
  reifySingle h this = Some v →
  ∃ s hc,
    Single_clone this h = Normal (s, h ∪ hc)
    ∧ hc ##ₘ h
    ∧ reifySingle hc s = Some v
    ∧ reifySingle (h ∪ hc) s = Some v
    ∧ reifySingle (h ∪ hc) this = Some v
    ∧ (∀ l o, l ∈ dom hc → reifySingle (<[l := o]> (h ∪ hc)) this = Some v)
    ∧ (∀ hc', hc' ##ₘ h → reifySingle (h ∪ hc') this = Some v)
    ∧ (∀ h', h' ##ₘ hc → reifySingle (h' ∪ hc) s = Some v).
Proof.
  intros Hv.
  destruct (Single_clone_allocates h this v Hv) as (s & hc & E & Hd & Hs).
  exists s, hc. split_and!; try done.
  - eapply reifySingle_weaken; [|exact Hs]. by apply map_union_subseteq_r.
  - eapply reifySingle_weaken; [|exact Hv]. apply map_union_subseteq_l.
  - intros l o Hl. eapply reifySingle_weaken; [|exact Hv].
    apply elem_of_dom in Hl as [o' Hl].
    rewrite insert_union_r by by eapply map_disjoint_Some_l.
    apply map_union_subseteq_l.
  - intros hc' _. eapply reifySingle_weaken; [|exact Hv]. apply map_union_subseteq_l.
  - intros h' Hd'. eapply reifySingle_weaken; [|exact Hs]. by apply map_union_subseteq_r.
Qed.

(** The methods of the source that change a matrix, called on the clone:
    the original keeps its value. *)
Lemma clone_then_cleanFormats (h : gmap nat object) (this : nat) (v : Single) :
  reifySingle h this = Some v →
  ∃ s h1 h2,
    Single_clone this h = Normal (s, h1)
    ∧ Single_cleanFormats s h1 = Normal ((), h2)
    ∧ reifySingle h2 this = Some v
    ∧ reifySingle h2 s = Some (cleanFormats v).
Proof.
  intros Hv.
  destruct (Single_clone_allocates h this v Hv) as (s & hc & E & Hd & Hs).
  apply reifySingle_Some in Hs as (m & Hs & Hm).
  apply reifyMatrix_Some in Hm as (copied & Hm & _).
  destruct (lookup_beside h hc s _ Hd Hs) as [Hs' _].
  destruct (lookup_beside h hc m _ Hd Hm) as [Hm' _].
  exists s, (h ∪ hc), (<[m := OMap ∅]> (h ∪ hc)). split_and!; [done| | |].
  - unfold Single_cleanFormats.
    rewrite (bind_Normal (readSingle s) _ (h ∪ hc) (Format.parent v, Format.tagName v, m) (h ∪ hc))
      by (unfold readSingle; by rewrite Hs').
    cbv beta iota.
    by rewrite (bind_Normal (readMap m) _ (h ∪ hc) copied (h ∪ hc))
      by (unfold readMap; by rewrite Hm').
  - eapply reifySingle_weaken; [|exact Hv].
    rewrite insert_union_r by by eapply map_disjoint_Some_l.
    apply map_union_subseteq_l.
  - apply reifySingle_Some. exists m. simpl.
    assert (s ≠ m) as Hne by (intros ->; rewrite Hs in Hm; done).
    split; [by rewrite lookup_insert_ne|].
    unfold reifyMatrix. rewrite lookup_insert_eq, omap_empty. by rewrite decide_True.
Qed.

Lemma clone_then_setFormats (h : gmap nat object) (this : nat) (v : Single)
    (key formatRanges : nat) :
  reifySingle h this = Some v →
  ∃ s h1 h2,
    Single_clone this h = Normal (s, h1)
    ∧ Single_setFormats s key formatRanges h1 = Normal ((), h2)
    ∧ reifySingle h2 this = Some v.
Proof.
  intros Hv.
  destruct (Single_clone_allocates h this v Hv) as (s & hc & E & Hd & Hs).
  apply reifySingle_Some in Hs as (m & Hs & Hm).
  apply reifyMatrix_Some in Hm as (copied & Hm & _).
  destruct (lookup_beside h hc s _ Hd Hs) as [Hs' _].
  destruct (lookup_beside h hc m _ Hd Hm) as [Hm' _].
  exists s, (h ∪ hc), (<[m := OMap (<[key := formatRanges]> copied)]> (h ∪ hc)).
  split_and!; [done| |].
  - unfold Single_setFormats.
    rewrite (bind_Normal (readSingle s) _ (h ∪ hc) (Format.parent v, Format.tagName v, m) (h ∪ hc))
      by (unfold readSingle; by rewrite Hs').
    cbv beta iota. unfold mapSet.
    by rewrite (bind_Normal (readMap m) _ (h ∪ hc) copied (h ∪ hc))
      by (unfold readMap; by rewrite Hm').
  - eapply reifySingle_weaken; [|exact Hv].
    rewrite insert_union_r by by eapply map_disjoint_Some_l.
    apply map_union_subseteq_l.
Qed.

(** *** A node with two bold ranges *)

Definition sampleStore : gmap nat object :=
  {[ 0%nat := OSingle 100 "img" 1;
     1%nat := OMap {[ 7%nat := 2%nat ]};
     2%nat := OArray [3%nat; 5%nat];
     3%nat := ORange 0 3 Valid 4 None 7;
     4%nat := OData strong;
     5%nat := ORange 5 9 Invalid 6 (Some "cache") 7;
     6%nat := OData strong ]}.

Definition sampleSingle : Single :=
  {| Format.parent := 100; Format.tagName := "img";
     Format.formatMatrix :=
       {[ 7%nat := [ bold 0 3 Valid;
                     {| startIndex := 5; endIndex := 9; state := Invalid;
                        Format.abstractData := strong; cacheData := Some "cache";
                        handler := 7 |} ] ]} |}.

Example reifySingle_sample : reifySingle sampleStore 0 = Some sampleSingle.
Proof. by vm_compute. Qed.

Example Single_clone_sample :
  ∃ s h', Single_clone 0 sampleStore = Normal (s, h')
    ∧ s = 8%nat
    ∧ reifySingle h' s = Some sampleSingle
    ∧ reifySingle h' 0 = Some sampleSingle.
Proof. eexists _, _. split_and!; by vm_compute. Qed.

Lemma Single_clone_deep_equal_independent_witness :
  ∃ s hc,
    Single_clone 0 sampleStore = Normal (s, sampleStore ∪ hc)
    ∧ hc ##ₘ sampleStore
    ∧ reifySingle hc s = Some sampleSingle
    ∧ reifySingle (sampleStore ∪ hc) s = Some sampleSingle
    ∧ reifySingle (sampleStore ∪ hc) 0 = Some sampleSingle
    ∧ (∀ l o, l ∈ dom hc → reifySingle (<[l := o]> (sampleStore ∪ hc)) 0 = Some sampleSingle)
    ∧ (∀ hc', hc' ##ₘ sampleStore → reifySingle (sampleStore ∪ hc') 0 = Some sampleSingle)
    ∧ (∀ h', h' ##ₘ hc → reifySingle (h' ∪ hc) s = Some sampleSingle).
Proof.
  apply (Single_clone_deep_equal_independent sampleStore 0 sampleSingle).
  by vm_compute.
Defined.

(** The store after [clone], then [em] written into the abstract data of the
    first cloned range (location 10) and the second range dropped from the
    cloned array (location 14): the clone has changed, the original has
    not. *)
Definition em : FormatAbstractData :=
  {| tag := "em"; attrs := ∅; styles := ∅; classes := [] |}.

Example mutate_clone_sample :
  ∃ h', Single_clone 0 sampleStore = Normal (8%nat, h')
    ∧ h' !! 10%nat = Some (OData strong)
    ∧ h' !! 14%nat = Some (OArray [11%nat; 13%nat])
    ∧ let h'' := <[14%nat := OArray [11%nat]]> (<[10%nat := OData em]> h') in
      reifySingle h'' 0 = Some sampleSingle
      ∧ reifySingle h'' 8 =
          Some {| Format.parent := 100; Format.tagName := "img";
                  Format.formatMatrix :=
                    {[ 7%nat := [ {| startIndex := 0; endIndex := 3; state := Valid;
                                     Format.abstractData := em; cacheData := None;
                                     handler := 7 |} ] ]} |}.
Proof. eexists. split_and!; by vm_compute. Qed.

End Store.

(** ** [Single.render] over a store of DOM elements *)

Module Render.
Import JS Core Format.

(** One entry of [getCanApplyFormats]: the handler (by identity, possibly
    missing), the state and the cache data handed to its [render]. *)
Record ApplyFormat := {
  af_handler : option nat;
  af_state : FormatState;
  af_cacheData : option string
}.

(** [new VMediaNode(parent, formats, index)]. *)
Record VMediaNode := {
  vm_parent : nat;
  vm_formats : list ApplyFormat;
  vm_index : nat
}.

(** Where an element hangs: under another element, or under the document
    fragment [render] returns. *)
Inductive parentRef :=
  | InElement (l : nat)
  | InFragment.

(** An [HTMLElement]: its tag name, its children, its parent and its
    [VIRTUAL_NODE] property. *)
Record Element := {
  el_tagName : string;
  el_children : list nat;
  el_parent : option parentRef;
  el_virtualNode : option VMediaNode
}.

(** What a commander's [render] returns: a [ReplaceModel], a
    [ChildSlotModel] (their element may be [null]), or anything else. *)
Inductive RenderModel :=
  | ReplaceModel (replaceElement : option nat)
  | ChildSlotModel (slotElement : option nat)
  | NoModel.

(** The [DocumentFragment] returned by [render]. *)
Record DocumentFragment := { childNodes : list nat }.

(** The local variables of [render] the reducer reads and writes. *)
Record Locals := {
  node : option nat;
  container : option nat;
  slotContainer : option nat
}.

Definition withChildren (e : Element) (children : list nat) : Element :=
  {| el_tagName := el_tagName e; el_children := children;
     el_parent := el_parent e; el_virtualNode := el_virtualNode e |}.

Definition withParent (e : Element) (p : option parentRef) : Element :=
  {| el_tagName := el_tagName e; el_children := el_children e;
     el_parent := p; el_virtualNode := el_virtualNode e |}.

Definition withVirtualNode (e : Element) (v : VMediaNode) : Element :=
  {| el_tagName := el_tagName e; el_children := el_children e;
     el_parent := el_parent e; el_virtualNode := Some v |}.

(** [document.createElement(tagName)]. *)
Definition createElement (tagName : string) (d : gmap nat Element) : nat * gmap nat Element :=
  let l := fresh (dom d) in
  (l, <[l := {| el_tagName := tagName; el_children := []; el_parent := None;
                el_virtualNode := None |}]> d).

(** [element[VIRTUAL_NODE] = vNode]; setting a property of [null] raises. *)
Definition setVirtualNode (element : option nat) (v : VMediaNode) (d : gmap nat Element) :
    completion (gmap nat Element) :=
  match element with
  | None => Throw TypeError
  | Some l =>
      match d !! l with
      | Some e => Normal (<[l := withVirtualNode e v]> d)
      | None => Throw TypeError
      end
  end.

(** [a] is [n] or one of its ancestors. *)
Fixpoint isInclusiveAncestor (d : gmap nat Element) (fuel : nat) (a n : nat) : bool :=
  bool_decide (a = n) ||
  match fuel with
  | O => true
  | S fuel =>
      match d !! n with
      | Some e =>
          match el_parent e with
          | Some (InElement p) => isInclusiveAncestor d fuel a p
          | _ => false
          end
      | None => false
      end
  end.

(** The removal of [child] from the children of its parent. *)
Definition detach (child : nat) (d : gmap nat Element) : gmap nat Element :=
  match d !! child with
  | Some e =>
      match el_parent e with
      | Some (InElement p) =>
          alter (λ pe, withChildren pe (filter (λ c, c ≠ child) (el_children pe))) p d
      | _ => d
      end
  | None => d
  end.

(** [parent.appendChild(child)]: a [null] child raises a TypeError, a child
    that contains the parent a HierarchyRequestError; otherwise the child
    leaves its parent and becomes the last child of [parent]. *)
Definition appendChild (parent : nat) (child : option nat) (d : gmap nat Element) :
    completion (gmap nat Element) :=
  match child with
  | None => Throw TypeError
  | Some c =>
      match d !! parent, d !! c with
      | Some _, Some ce =>
          if isInclusiveAncestor d (size d) c parent then Throw HierarchyRequestError
          else
            let d := detach c d in
            let d := alter (λ pe, withChildren pe (el_children pe ++ [c])) parent d in
            Normal (<[c := withParent ce (Some (InElement parent))]> d)
      | _, _ => Throw TypeError
      end
  end.

(** [host.appendChild(node)] for the fragment [host], which no element
    reaches: the node leaves its parent and is the child of the fragment. *)
Definition appendToFragment (child : nat) (d : gmap nat Element) :
    completion (DocumentFragment * gmap nat Element) :=
  match d !! child with
  | Some ce =>
      Normal ({| childNodes := [child] |},
              <[child := withParent ce (Some InFragment)]> (detach child d))
  | None => Throw TypeError
  end.

Section Render.

(** [next.handler.execCommand.render(state, node, cacheData)], by the
    identity of the handler: the commanders are not part of the sources, and
    a render may build and change elements as it likes. *)
Variable execRender :
  nat → FormatState → option nat → option string → gmap nat Element →
  completion (RenderModel * gmap nat Element).

(** [getCanApplyFormats] (./utils) and [Fragment.find] are not part of the
    sources either. *)
Variable getCanApplyFormats : gmap nat (list FormatRange) → list ApplyFormat.
Variable find : nat → Single → nat.

(** The reducer of [render] (single.ts, lines 68-90). *)
Definition renderStep (vNode : VMediaNode) (next : ApplyFormat)
    (acc : Locals * gmap nat Element) : completion (Locals * gmap nat Element) :=
  let '(locals, d) := acc in
  match af_handler next with
  | None => Normal (locals, d)
  | Some handler =>
      '(renderModel, d) ← execRender handler (af_state next) (node locals) (af_cacheData next) d;
      match renderModel with
      | ReplaceModel replaceElement =>
          d ← setVirtualNode replaceElement vNode d;
          Normal ({| node := replaceElement; container := replaceElement;
                     slotContainer := replaceElement |}, d)
      | ChildSlotModel slotElement =>
          '(container, d) ←
            match node locals with
            | Some n => d ← appendChild n slotElement d; Normal (container locals, d)
            | None => Normal (slotElement, d)
            end;
          d ← setVirtualNode slotElement vNode d;
          Normal ({| node := slotElement; container := container;
                     slotContainer := slotElement |}, d)
      | NoModel => Normal (locals, d)
      end
  end.

(** [Array.prototype.reduce] with an initial value, over a reducer that may
    throw. *)
Fixpoint reduceFrom {A B} (f : A → B → completion B) (l : list A) (acc : B) : completion B :=
  match l with
  | [] => Normal acc
  | x :: rest => f x acc ≫= reduceFrom f rest
  end.

(** The fold as the specification words it: the accumulated node alone is
    carried from one format to the next, in the order of the formats, by the
    left fold of the library; a replacement takes the place of the accumulated
    node, a slot is appended to it (or starts the chain when there is none)
    and takes its place, either is tagged with the virtual node, and a format
    that raises ends the rendering. *)
Definition foldStep (vNode : VMediaNode) (acc : completion (option nat * gmap nat Element))
    (next : ApplyFormat) : completion (option nat * gmap nat Element) :=
  '(accumulated, d) ← acc;
  match af_handler next with
  | None => Normal (accumulated, d)
  | Some handler =>
      '(renderModel, d) ←
        execRender handler (af_state next) accumulated (af_cacheData next) d;
      match renderModel with
      | ReplaceModel replaceElement =>
          d ← setVirtualNode replaceElement vNode d;
          Normal (replaceElement, d)
      | ChildSlotModel slotElement =>
          d ← match accumulated with
              | Some n => appendChild n slotElement d
              | None => Normal d
              end;
          d ← setVirtualNode slotElement vNode d;
          Normal (slotElement, d)
      | NoModel => Normal (accumulated, d)
      end
  end.

(** [Single.render] (single.ts, lines 57-95). *)
Definition Single_render (this : Single) (d : gmap nat Element) :
    completion (DocumentFragment * gmap nat Element) :=
  let canApplyFormats := getCanApplyFormats (formatMatrix this) in
  let index := find (parent this) this in
  let vNode := {| vm_parent := parent this; vm_formats := canApplyFormats;
                  vm_index := index |} in
  let '(el, d) := createElement (tagName this) d in
  d ← setVirtualNode (Some el) vNode d;
  '(locals, d) ← reduceFrom (renderStep vNode) canApplyFormats
                   ({| node := Some el; container := None; slotContainer := None |}, d);
  match node locals with
  | Some n => appendToFragment n d
  | None => Normal ({| childNodes := [] |}, d)
  end.

(** *** The DOM operations *)

Lemma setVirtualNode_Normal element v (d d' : gmap nat Element) :
  setVirtualNode element v d = Normal d' →
  ∃ l e, element = Some l ∧ d !! l = Some e
    ∧ d' = <[l := withVirtualNode e v]> d.
Proof.
  unfold setVirtualNode. destruct element as [l|]; [|done].
  destruct (d !! l) as [e|] eqn:E; [|done]. intros [= <-]. by exists l, e.
Qed.

Lemma detach_lookup child (d : gmap nat Element) l :
  ∃ f, detach child d !! l = f <$> d !! l
    ∧ ∀ e, el_parent (f e) = el_parent e ∧ el_virtualNode (f e) = el_virtualNode e
           ∧ el_tagName (f e) = el_tagName e.
Proof.
  unfold detach. destruct (d !! child) as [ce|]; [|by exists id; rewrite option_fmap_id].
  destruct (el_parent ce) as [[p|]|]; try (by exists id; rewrite option_fmap_id).
  rewrite lookup_alter. case_decide.
  - subst. by exists (λ pe, withChildren pe (filter (λ c, c ≠ child) (el_children pe))).
  - by exists id; rewrite option_fmap_id.
Qed.

Lemma appendChild_Normal parent child (d d' : gmap nat Element) :
  appendChild parent child d = Normal d' →
  ∃ c ce pe, child = Some c ∧ c ≠ parent
    ∧ d' !! c = Some ce ∧ el_parent ce = Some (InElement parent)
    ∧ (∀ e, d !! c = Some e → el_virtualNode ce = el_virtualNode e
                              ∧ el_tagName ce = el_tagName e
                              ∧ el_children ce = el_children e)
    ∧ d' !! parent = Some pe ∧ last (el_children pe) = Some c.
Proof.
  unfold appendChild. destruct child as [c|]; [|done].
  destruct (d !! parent) as [pe0|] eqn:Ep; [|done].
  destruct (d !! c) as [ce0|] eqn:Ec; [|done].
  destruct (isInclusiveAncestor d (size d) c parent) eqn:Ea; [done|].
  intros [= <-].
  assert (c ≠ parent) as Hne.
  { intros ->. destruct (size d); simpl in Ea; by rewrite bool_decide_eq_true_2 in Ea. }
  destruct (detach_lookup c d parent) as (f & Hf & _). rewrite Ep in Hf. simpl in Hf.
  eexists c, _, _. split_and!; [done|done| | | | |].
  - apply lookup_insert_eq.
  - done.
  - intros e He. rewrite Ec in He. by injection He as <-.
  - rewrite lookup_insert_ne by done. rewrite lookup_alter_eq, Hf. done.
  - simpl. by rewrite last_snoc.
Qed.

Lemma appendToFragment_Normal child (d d' : gmap nat Element) frag :
  appendToFragment child d = Normal (frag, d') →
  childNodes frag = [child]
  ∧ ∃ e, d' !! child = Some e ∧ el_parent e = Some InFragment.
Proof.
  unfold appendToFragment. destruct (d !! child) as [ce|]; [|done].
  intros [= <- <-]. split; [done|]. eexists. split; [apply lookup_insert_eq|done].
Qed.

(** *** The fold *)

(** What one step of the reducer does, by the handler of the format and the
    model its [render] returns. *)
Lemma renderStep_Normal vNode next locals (d0 : gmap nat Element) locals' d' :
  renderStep vNode next (locals, d0) = Normal (locals', d') →
  match af_handler next with
  | None => locals' = locals ∧ d' = d0
  | Some handler =>
      ∃ model d1,
        execRender handler (af_state next) (node locals) (af_cacheData next) d0
          = Normal (model, d1)
        ∧ match model with
          | ReplaceModel replaceElement =>
              ∃ l e, replaceElement = Some l ∧ d1 !! l = Some e
                ∧ node locals' = Some l ∧ container locals' = Some l
                ∧ d' = <[l := withVirtualNode e vNode]> d1
          | ChildSlotModel slotElement =>
              ∃ l e, slotElement = Some l ∧ node locals' = Some l
                ∧ d' !! l = Some e ∧ el_virtualNode e = Some vNode
                ∧ match node locals with
                  | Some n =>
                      el_parent e = Some (InElement n)
                      ∧ (∃ ne, d' !! n = Some ne ∧ last (el_children ne) = Some l)
                      ∧ container locals' = container locals
                  | None =>
                      container locals' = Some l
                      ∧ ∃ e1, d1 !! l = Some e1 ∧ d' = <[l := withVirtualNode e1 vNode]> d1
                  end
          | NoModel => locals' = locals ∧ d' = d1
          end
  end.
Proof.
  unfold renderStep. destruct (af_handler next) as [handler|]; [|by intros [= <- <-]].
  destruct (execRender handler (af_state next) (node locals) (af_cacheData next) d0)
    as [[model d1]|err] eqn:Er; [|done].
  intros Hstep. exists model, d1. split; [done|].
  simpl in Hstep. destruct model as [r|s|].
  - destruct (setVirtualNode r vNode d1) as [d2|] eqn:Ev; [|done].
    simpl in Hstep. injection Hstep as <- <-.
    apply setVirtualNode_Normal in Ev as (l & e & -> & He & ->). by exists l, e.
  - destruct (node locals) as [n|] eqn:En.
    + destruct (appendChild n s d1) as [d2|] eqn:Ea; [|done]. simpl in Hstep.
      destruct (setVirtualNode s vNode d2) as [d3|] eqn:Ev; [|done].
      simpl in Hstep. injection Hstep as <- <-.
      apply appendChild_Normal in Ea as (c & ce & pe & -> & Hne & Hc & Hp & _ & Hn & Hl).
      apply setVirtualNode_Normal in Ev as (l & e & [= <-] & He & ->).
      rewrite Hc in He. injection He as <-.
      exists c, (withVirtualNode ce vNode). split_and!; try done.
      * apply lookup_insert_eq.
      * exists pe. by rewrite lookup_insert_ne.
    + simpl in Hstep.
      destruct (setVirtualNode s vNode d1) as [d3|] eqn:Ev; [|done].
      simpl in Hstep. injection Hstep as <- <-.
      apply setVirtualNode_Normal in Ev as (l & e & -> & He & ->).
      exists l, (withVirtualNode e vNode). split_and!; try done.
      * apply lookup_insert_eq.
      * by exists e.
  - by injection Hstep as <- <-.
Qed.

(** The accumulated node is never [null]: a model with no element raises
    when it is tagged. *)
Lemma renderStep_node vNode next locals (d0 : gmap nat Element) locals' d' :
  renderStep vNode next (locals, d0) = Normal (locals', d') →
  is_Some (node locals) → is_Some (node locals').
Proof.
  intros Hstep Hn. apply renderStep_Normal in Hstep.
  destruct (af_handler next); [|by destruct Hstep as [-> _]].
  destruct Hstep as ([r|s|] & d1 & _ & Hm).
  - destruct Hm as (l & e & _ & _ & -> & _). by eexists.
  - destruct Hm as (l & e & _ & -> & _). by eexists.
  - by destruct Hm as [-> _].
Qed.

Lemma reduceFrom_node vNode formats locals (d0 : gmap nat Element) locals' d' :
  reduceFrom (renderStep vNode) formats (locals, d0) = Normal (locals', d') →
  is_Some (node locals) → is_Some (node locals').
Proof.
  revert locals d0. induction formats as [|next formats IH]; intros locals d0.
  - by intros [= <- <-].
  - intros Hr Hn. cbn [reduceFrom] in Hr.
    destruct (renderStep vNode next (locals, d0)) as [[l1 d1]|] eqn:E;
      unfold mbind, completion_bind in Hr; [|done].
    eapply IH; [exact Hr|]. by eapply renderStep_node.
Qed.

(** The accumulated node and the document of a state of the reducer. *)
Definition accumulatedOf (acc : Locals * gmap nat Element) : option nat * gmap nat Element :=
  (node acc.1, acc.2).

Lemma foldStep_renderStep vNode next (acc : Locals * gmap nat Element) :
  foldStep vNode (Normal (accumulatedOf acc)) next
  = renderStep vNode next acc ≫= λ acc', Normal (accumulatedOf acc').
Proof.
  destruct acc as [locals d0]. unfold foldStep, renderStep, accumulatedOf. simpl.
  destruct (af_handler next) as [handler|]; [|done].
  destruct (execRender handler (af_state next) (node locals) (af_cacheData next) d0)
    as [[model d1]|]; [|done].
  simpl. destruct model as [r|s|]; [| |done].
  - by destruct (setVirtualNode r vNode d1).
  - destruct (node locals) as [n|]; simpl.
    + destruct (appendChild n s d1) as [d2|]; [|done]. simpl.
      by destruct (setVirtualNode s vNode d2).
    + by destruct (setVirtualNode s vNode d1).
Qed.

Lemma foldl_foldStep_Throw vNode formats e :
  foldl (foldStep vNode) (Throw e) formats = Throw e.
Proof. induction formats as [|next formats IH]; [done|]. exact IH. Qed.

Lemma reduceFrom_foldl vNode formats (acc : Locals * gmap nat Element) :
  reduceFrom (renderStep vNode) formats acc ≫= (λ acc', Normal (accumulatedOf acc'))
  = foldl (foldStep vNode) (Normal (accumulatedOf acc)) formats.
Proof.
  revert acc. induction formats as [|next formats IH]; intros acc; [done|].
  cbn [reduceFrom foldl]. rewrite foldStep_renderStep.
  destruct (renderStep vNode next acc) as [acc1|e]; unfold mbind at 2 3, completion_bind.
  - apply IH.
  - by rewrite foldl_foldStep_Throw.
Qed.

(** C3.  [Single.render] is the left fold of the applicable formats, in
    their order, from a bare element of the node's tag name tagged with the
    virtual node: what it returns is what the fold of the steps below returns,
    raised errors included.  In a step, a format without handler and a model
    that is neither kind leave the accumulated node in place; a
    [ReplaceModel] makes its element the accumulated node, whatever that was,
    and leaves the other elements as [render] left them; a [ChildSlotModel]
    appends its element as the last child of the accumulated node (or starts
    the chain when there is none) and makes it the accumulated node; either
    element is tagged with the same virtual node.  The returned fragment has
    the final accumulated node for sole child. *)
Theorem Single_render_is_fold (this : Single) (d : gmap nat Element) :
  let formats := getCanApplyFormats (formatMatrix this) in
  let vNode := {| vm_parent := parent this; vm_formats := formats;
                  vm_index := find (parent this) this |} in
  let el := fresh (dom d) in
  let bare := {| el_tagName := tagName this; el_children := []; el_parent := None;
                 el_virtualNode := Some vNode |} in
  let folded := foldl (foldStep vNode) (Normal (Some el, <[el := bare]> d)) formats in
  Single_render this d =
    ('(accumulated, d') ← folded;
     match accumulated with
     | Some n => appendToFragment n d'
     | None => Normal ({| childNodes := [] |}, d')
     end)
  ∧ (∀ next acc, af_handler next = None → foldStep vNode acc next = acc)
  ∧ (∀ next accumulated d0 handler e,
       af_handler next = Some handler →
       execRender handler (af_state next) accumulated (af_cacheData next) d0 = Throw e →
       foldStep vNode (Normal (accumulated, d0)) next = Throw e)
  ∧ (∀ next accumulated d0 handler model d1,
       af_handler next = Some handler →
       execRender handler (af_state next) accumulated (af_cacheData next) d0
         = Normal (model, d1) →
       match model with
       | ReplaceModel replaceElement =>
           foldStep vNode (Normal (accumulated, d0)) next =
             match replaceElement ≫= λ l, (λ e, (l, e)) <$> d1 !! l with
             | Some (l, e) => Normal (Some l, <[l := withVirtualNode e vNode]> d1)
             | None => Throw TypeError
             end
       | ChildSlotModel slotElement =>
           match accumulated with
           | Some n =>
               foldStep vNode (Normal (accumulated, d0)) next =
                 (d2 ← appendChild n slotElement d1;
                  d3 ← setVirtualNode slotElement vNode d2;
                  Normal (slotElement, d3))
               ∧ ∀ accumulated' d',
                   foldStep vNode (Normal (accumulated, d0)) next = Normal (accumulated', d') →
                   ∃ l e ne, slotElement = Some l ∧ accumulated' = Some l
                     ∧ d' !! l = Some e ∧ el_virtualNode e = Some vNode
                     ∧ el_parent e = Some (InElement n)
                     ∧ d' !! n = Some ne ∧ last (el_children ne) = Some l
           | None =>
               foldStep vNode (Normal (accumulated, d0)) next =
                 match slotElement ≫= λ l, (λ e, (l, e)) <$> d1 !! l with
                 | Some (l, e) => Normal (Some l, <[l := withVirtualNode e vNode]> d1)
                 | None => Throw TypeError
                 end
           end
       | NoModel => foldStep vNode (Normal (accumulated, d0)) next = Normal (accumulated, d1)
       end)
  ∧ (∀ fragment d', Single_render this d = Normal (fragment, d') →
       ∃ d1 n e,
         folded = Normal (Some n, d1)
         ∧ childNodes fragment = [n]
         ∧ d' !! n = Some e ∧ el_parent e = Some InFragment).
Proof.
  intros formats vNode el bare folded.
  set (start := ({| node := Some el; container := None; slotContainer := None |},
                 <[el := bare]> d)).
  assert (Single_render this d =
    ('(locals, d') ← reduceFrom (renderStep vNode) formats start;
     match node locals with
     | Some n => appendToFragment n d'
     | None => Normal ({| childNodes := [] |}, d')
     end)) as Hunfold.
  { unfold Single_render, createElement, setVirtualNode.
    fold formats. fold vNode. fold el.
    rewrite lookup_insert_eq. simpl. by rewrite insert_insert_eq. }
  assert (folded = reduceFrom (renderStep vNode) formats start
                   ≫= λ acc', Normal (accumulatedOf acc')) as Hfolded.
  { symmetry. apply (reduceFrom_foldl vNode formats start). }
  split_and!.
  - rewrite Hunfold, Hfolded.
    destruct (reduceFrom (renderStep vNode) formats start) as [[locals d1]|]; done.
  - intros next [[accumulated d0]|e] Hh; unfold foldStep; simpl; by rewrite ?Hh.
  - intros next accumulated d0 handler e Hh Hr. unfold foldStep. simpl. by rewrite Hh, Hr.
  - intros next accumulated d0 handler model d1 Hh Hr.
    destruct model as [r|s|].
    + unfold foldStep, setVirtualNode. simpl. rewrite Hh, Hr. simpl.
      destruct r as [l|]; [|done]. simpl. by destruct (d1 !! l).
    + destruct accumulated as [n|].
      * split; [unfold foldStep; simpl; by rewrite Hh, Hr|].
        intros accumulated' d' Hstep.
        change (Normal (Some n, d0)) with
          (Normal (accumulatedOf
             ({| node := Some n; container := None; slotContainer := None |}, d0)))
          in Hstep.
        rewrite foldStep_renderStep in Hstep.
        destruct (renderStep vNode next
                    ({| node := Some n; container := None; slotContainer := None |}, d0))
          as [[locals' d'']|] eqn:Es; [|done].
        injection Hstep as <- <-.
        apply renderStep_Normal in Es. rewrite Hh in Es.
        destruct Es as (model & d1' & Hr' & Hm). simpl in Hr'. rewrite Hr in Hr'.
        injection Hr' as <- <-.
        destruct Hm as (l & e & -> & Hn & He & Hv & Hp & (ne & Hne & Hl) & _).
        by exists l, e, ne.
      * unfold foldStep, setVirtualNode. simpl. rewrite Hh, Hr. simpl.
        destruct s as [l|]; [|done]. simpl. by destruct (d1 !! l).
    + unfold foldStep. simpl. by rewrite Hh, Hr.
  - intros fragment d'. rewrite Hunfold, Hfolded.
    destruct (reduceFrom (renderStep vNode) formats start) as [[locals d1]|] eqn:Er; [|done].
    simpl. pose proof (reduceFrom_node _ _ _ _ _ _ Er) as [n Hn]; [by eexists|].
    rewrite Hn. intros Ha. apply appendToFragment_Normal in Ha as (Hc & e & He & Hp).
    exists d1, n, e. unfold accumulatedOf. simpl. by rewrite Hn.
Qed.

End Render.

(** *** An image with a bold format and a link format *)

(** Handler 1 answers with a child slot, a new [strong]; handler 2 with a
    replacement, a new [a]; any other handler with nothing. *)
Definition sampleRender (handler : nat) (state : FormatState) (rawElement : option nat)
    (cacheData : option string) (d : gmap nat Element) :
    completion (RenderModel * gmap nat Element) :=
  if decide (handler = 1%nat) then
    let '(l, d) := createElement "strong" d in Normal (ChildSlotModel (Some l), d)
  else if decide (handler = 2%nat) then
    let '(l, d) := createElement "a" d in Normal (ReplaceModel (Some l), d)
  else Normal (NoModel, d).

Definition sampleFormats (handlers : list nat) : list ApplyFormat :=
  (λ h, {| af_handler := Some h; af_state := Valid; af_cacheData := None |}) <$> handlers.

Definition sampleNode : Single := newSingle 0 "img".

Definition sampleVNode (handlers : list nat) : VMediaNode :=
  {| vm_parent := 0; vm_formats := sampleFormats handlers; vm_index := 0 |}.

(** With the bold format alone: the [strong] is appended to the [img], then
    moved into the fragment; the [img] is left without child or parent. *)
Example Single_render_slot_sample :
  Single_render sampleRender (λ _, sampleFormats [1%nat]) (λ _ _, 0%nat) sampleNode ∅
  = Normal
      ({| childNodes := [1%nat] |},
       {[ 0%nat := {| el_tagName := "img"; el_children := []; el_parent := None;
                      el_virtualNode := Some (sampleVNode [1%nat]) |};
          1%nat := {| el_tagName := "strong"; el_children := [];
                      el_parent := Some InFragment;
                      el_virtualNode := Some (sampleVNode [1%nat]) |} ]}).
Proof. by vm_compute. Qed.

(** With the bold format, then the link format, then an unknown one: the
    [a] replaces the [strong], which stays under the [img]. *)
Example Single_render_replace_sample :
  Single_render sampleRender (λ _, sampleFormats [1%nat; 2%nat; 3%nat]) (λ _ _, 0%nat)
    sampleNode ∅
  = Normal
      ({| childNodes := [2%nat] |},
       {[ 0%nat := {| el_tagName := "img"; el_children := [1%nat]; el_parent := None;
                      el_virtualNode := Some (sampleVNode [1%nat; 2%nat; 3%nat]) |};
          1%nat := {| el_tagName := "strong"; el_children := [];
                      el_parent := Some (InElement 0);
                      el_virtualNode := Some (sampleVNode [1%nat; 2%nat; 3%nat]) |};
          2%nat := {| el_tagName := "a"; el_children := [];
                      el_parent := Some InFragment;
                      el_virtualNode := Some (sampleVNode [1%nat; 2%nat; 3%nat]) |} ]}).
Proof. by vm_compute. Qed.

(** A render that hands back the accumulated node as its slot makes
    [appendChild] raise. *)
Example Single_render_cycle_sample :
  Single_render (λ _ _ rawElement _ d, Normal (ChildSlotModel rawElement, d))
    (λ _, sampleFormats [1%nat]) (λ _ _, 0%nat) sampleNode ∅
  = Throw HierarchyRequestError.
Proof. by vm_compute. Qed.

End Render.

(** ** More of the [Editor] class: empty selections, the order of ranges,
    the task queue, the gate on commands and the toolbar *)

Module EditorFacts.
Import JS Toolbar.

Section Status.

Context {Doc Config Node : Type}.

Implicit Types (editor : @EditFrame Doc Node) (handler : @Handler Doc Config Node).
Implicit Types (delta : @CommonMatchDelta Config Node).

(** X1.  Without a selected range [updateToolbarStatus] raises a TypeError as
    soon as there is a handler (the [reduce] of its first handler has no
    element to start from, and no [updateStatus] is reached); without handlers
    it returns and has called nothing. *)
Theorem updateToolbarStatus_without_range (handlers : list (@Handler Doc Config Node))
    editor log :
  getRanges editor = [] →
  updateToolbarStatus handlers editor log =
    match handlers with
    | [] => Normal log
    | _ :: _ => Throw TypeError
    end.
Proof.
  intros E. unfold updateToolbarStatus. rewrite E. by destruct handlers.
Qed.

Lemma forallb_Permutation {A} (f : A → bool) (l l' : list A) :
  l ≡ₚ l' → forallb f l = forallb f l'.
Proof.
  induction 1 as [|x l l' _ IH|x y l|l l' l'' _ IH1 _ IH2]; simpl.
  - done.
  - by rewrite IH.
  - by destruct (f x), (f y).
  - by rewrite IH1.
Qed.

Lemma existsb_Permutation {A} (f : A → bool) (l l' : list A) :
  l ≡ₚ l' → existsb f l = existsb f l'.
Proof.
  induction 1 as [|x l l' _ IH|x y l|l l' l'' _ IH1 _ IH2]; simpl.
  - done.
  - by rewrite IH.
  - by destruct (f x), (f y).
  - by rewrite IH1.
Qed.

Lemma reduce_Normal (deltas : list (@CommonMatchDelta Config Node)) delta :
  reduce reduceDelta deltas = Normal delta →
  inSingleContainer delta = forallb inSingleContainer deltas
  ∧ overlap delta = forallb overlap deltas
  ∧ contain delta = existsb contain deltas
  ∧ disable delta = existsb disable deltas.
Proof.
  destruct deltas as [|d ds]; [done|]. simpl. intros [= <-].
  by rewrite foldl_reduceDelta.
Qed.

(** X2.  The four flags of the reduced delta do not depend on the order in
    which the ranges are matched: only [container], [config] and [range]
    are those of whichever range comes last. *)
Theorem reduced_flags_ignore_order (deltas deltas' : list (@CommonMatchDelta Config Node))
    delta delta' :
  deltas ≡ₚ deltas' →
  reduce reduceDelta deltas = Normal delta →
  reduce reduceDelta deltas' = Normal delta' →
  inSingleContainer delta = inSingleContainer delta'
  ∧ overlap delta = overlap delta'
  ∧ contain delta = contain delta'
  ∧ disable delta = disable delta'.
Proof.
  intros Hp E E'.
  apply reduce_Normal in E as (-> & -> & -> & ->).
  apply reduce_Normal in E' as (-> & -> & -> & ->).
  split_and!;
    first [by apply forallb_Permutation | by apply existsb_Permutation].
Qed.

End Status.

Section Machine.

Context {Doc Config Node Hook : Type} `{EqDecision Node}.

(** [EditFrame.updateContents(html)] and [EditFrame.use(hooks)] belong to
    the edit frame, whose code is not part of the sources. *)
Variable updateContents : string → @EditFrame Doc Node → @EditFrame Doc Node.
Variable useHooks : Hook → @EditFrame Doc Node → @EditFrame Doc Node.

(** [HandlerType]. *)
Inductive HandlerType := Button | Select | Dropdown | ActionSheet.

(** [HandlerOption]: its type and its hooks, if any; [oid] stands for the
    identity of the option. *)
Record HandlerOption := {
  oid : nat;
  type : HandlerType;
  hooks : option Hook
}.

(** The handler classes are not part of the sources: the handler a button or
    a dropdown option makes, and the handlers of the items of a select or an
    action sheet. *)
Variable newButtonHandler newDropdownHandler : HandlerOption → @Handler Doc Config Node.
Variable selectOptions actionSheetOptions : HandlerOption → list (@Handler Doc Config Node).

(** A child of the toolbar: a split line, or the element of the widget made
    for an option. *)
Inductive Widget :=
  | SplitLine
  | ElementOf (option : HandlerOption).

(** An entry of [options.handlers]: an option, or a group of options. *)
Inductive Entry :=
  | One (option : HandlerOption)
  | Group (options : list HandlerOption).

(** The fields of the [Editor], with what the second subscription to
    [onSelectionChange] remembers ([distinctUntilChanged]) and the calls of
    [paths.update] so far. *)
Record Editor := {
  frame : @EditFrame Doc Node;
  toolbar : list Widget;
  handlers : list (@Handler Doc Config Node);
  isFirst : bool;
  canApplyAction : bool;
  tasks : list (@EditFrame Doc Node → @EditFrame Doc Node);
  readyState : bool;
  lastEndContainer : option Node;
  pathUpdates : list Node
}.

(** The editor when the constructor starts working on [options.handlers]. *)
Definition newEditor (frame : @EditFrame Doc Node) : Editor :=
  {| frame := frame; toolbar := []; handlers := []; isFirst := true;
     canApplyAction := false; tasks := []; readyState := false;
     lastEndContainer := None; pathUpdates := [] |}.

Definition withFrame (ed : Editor) (f : @EditFrame Doc Node) : Editor :=
  {| frame := f; toolbar := toolbar ed; handlers := handlers ed; isFirst := isFirst ed;
     canApplyAction := canApplyAction ed; tasks := tasks ed; readyState := readyState ed;
     lastEndContainer := lastEndContainer ed; pathUpdates := pathUpdates ed |}.

(** [Editor.run]. *)
Definition run (fn : @EditFrame Doc Node → @EditFrame Doc Node) (ed : Editor) : Editor :=
  if readyState ed then withFrame ed (fn (frame ed))
  else
    {| frame := frame ed; toolbar := toolbar ed; handlers := handlers ed;
       isFirst := isFirst ed; canApplyAction := canApplyAction ed;
       tasks := tasks ed ++ [fn]; readyState := readyState ed;
       lastEndContainer := lastEndContainer ed; pathUpdates := pathUpdates ed |}.

(** The subscription to [editor.onReady]:
    [this.tasks.forEach(fn => fn()); this.readyState = true]. *)
Definition onReady (ed : Editor) : Editor :=
  {| frame := foldl (λ f fn, fn f) (frame ed) (tasks ed);
     toolbar := toolbar ed; handlers := handlers ed; isFirst := isFirst ed;
     canApplyAction := canApplyAction ed; tasks := tasks ed; readyState := true;
     lastEndContainer := lastEndContainer ed; pathUpdates := pathUpdates ed |}.

(** [Editor.updateContentHTML] and [Editor.focus]. *)
Definition updateContentHTML (html : string) (ed : Editor) : Editor :=
  run (updateContents html) ed.

Definition focus (ed : Editor) : Editor := run focusBody ed.

(** The four [add...Handler] methods: the element of the widget joins the
    toolbar and its handlers join [handlers]. *)
Definition handlersOf (option : HandlerOption) : list (@Handler Doc Config Node) :=
  match type option with
  | Button => [newButtonHandler option]
  | Select => selectOptions option
  | Dropdown => [newDropdownHandler option]
  | ActionSheet => actionSheetOptions option
  end.

Definition addWidget (option : HandlerOption) (ed : Editor) : Editor :=
  {| frame := frame ed; toolbar := toolbar ed ++ [ElementOf option];
     handlers := handlers ed ++ handlersOf option; isFirst := isFirst ed;
     canApplyAction := canApplyAction ed; tasks := tasks ed; readyState := readyState ed;
     lastEndContainer := lastEndContainer ed; pathUpdates := pathUpdates ed |}.

(** [Editor.addHandler]. *)
Definition addHandler (option : HandlerOption) (ed : Editor) : Editor :=
  let ed :=
    {| frame := frame ed; toolbar := toolbar ed; handlers := handlers ed; isFirst := false;
       canApplyAction := canApplyAction ed; tasks := tasks ed; readyState := readyState ed;
       lastEndContainer := lastEndContainer ed; pathUpdates := pathUpdates ed |} in
  let ed := addWidget option ed in
  match hooks option with
  | Some h => run (useHooks h) ed
  | None => ed
  end.

(** [Editor.addGroup]. *)
Definition addGroup (options : list HandlerOption) (ed : Editor) : Editor :=
  let ed :=
    if isFirst ed then ed
    else
      {| frame := frame ed; toolbar := toolbar ed ++ [SplitLine]; handlers := handlers ed;
         isFirst := isFirst ed; canApplyAction := canApplyAction ed; tasks := tasks ed;
         readyState := readyState ed; lastEndContainer := lastEndContainer ed;
         pathUpdates := pathUpdates ed |} in
  foldl (λ ed option, addHandler option ed) ed options.

(** The loop of the constructor over [options.handlers]. *)
Definition addEntries (entries : list Entry) (ed : Editor) : Editor :=
  foldl (λ ed entry,
    match entry with
    | One option => addHandler option ed
    | Group options => addGroup options ed
    end) ed entries.

(** What [onApply] of a handler leads to:
    [onApply.pipe(filter(() => this.canApplyAction)).subscribe(() => this.apply(handler))]. *)
Definition onApply (handler : @Handler Doc Config Node) (ed : Editor) : Editor :=
  if canApplyAction ed then withFrame ed (apply handler (frame ed)) else ed.

(** The second subscription to [onSelectionChange]: the [map] sets
    [canApplyAction] and reads [getRangeAt(0).endContainer], which raises when
    the selection has no range; [distinctUntilChanged] lets the node through
    when it is not the one seen last; [paths.update] receives it.  The result
    tells whether the [map] raised. *)
Definition onSelectionChange (ed : Editor) : Editor * bool :=
  match getRangeAt (frame ed) 0 with
  | None =>
      ({| frame := frame ed; toolbar := toolbar ed; handlers := handlers ed;
          isFirst := isFirst ed; canApplyAction := true; tasks := tasks ed;
          readyState := readyState ed; lastEndContainer := lastEndContainer ed;
          pathUpdates := pathUpdates ed |}, true)
  | Some r =>
      let node := endContainer r in
      ({| frame := frame ed; toolbar := toolbar ed; handlers := handlers ed;
          isFirst := isFirst ed; canApplyAction := true; tasks := tasks ed;
          readyState := readyState ed; lastEndContainer := Some node;
          pathUpdates :=
            if decide (lastEndContainer ed = Some node) then pathUpdates ed
            else pathUpdates ed ++ [node] |}, false)
  end.

(** The user changes the selection to [ranges], and the subscription
    runs. *)
Definition select (ranges : list (@Range Node)) (ed : Editor) : Editor * bool :=
  onSelectionChange (withFrame ed
    {| contents := contents (frame ed); snapshots := snapshots (frame ed);
       selectionRanges := ranges; bodyFocused := bodyFocused (frame ed);
       console := console (frame ed) |}).

(** A run of selection changes, up to the first that raises. *)
Fixpoint selectAll (selections : list (list (@Range Node))) (ed : Editor) : Editor :=
  match selections with
  | [] => ed
  | ranges :: rest =>
      let '(ed, raised) := select ranges ed in
      if raised then ed else selectAll rest ed
  end.

(** *** The task queue *)

Lemma run_fields fn (ed : Editor) :
  toolbar (run fn ed) = toolbar ed ∧ handlers (run fn ed) = handlers ed
  ∧ isFirst (run fn ed) = isFirst ed ∧ canApplyAction (run fn ed) = canApplyAction ed
  ∧ readyState (run fn ed) = readyState ed.
Proof. unfold run. destruct (readyState ed) eqn:E; simpl; by rewrite ?E. Qed.

Lemma run_all_waiting fns (ed : Editor) :
  readyState ed = false →
  frame (foldl (λ ed fn, run fn ed) ed fns) = frame ed
  ∧ tasks (foldl (λ ed fn, run fn ed) ed fns) = tasks ed ++ fns
  ∧ readyState (foldl (λ ed fn, run fn ed) ed fns) = false.
Proof.
  revert ed. induction fns as [|fn fns IH]; intros ed Hr; simpl.
  - by rewrite app_nil_r.
  - destruct (IH (run fn ed)) as (Hf & Ht & Hs).
    { unfold run. by rewrite Hr. }
    rewrite Hf, Ht, Hs. unfold run. rewrite Hr. simpl. by rewrite <- app_assoc.
Qed.

Lemma run_all_ready fns (ed : Editor) :
  readyState ed = true →
  frame (foldl (λ ed fn, run fn ed) ed fns) = foldl (λ f fn, fn f) (frame ed) fns.
Proof.
  revert ed. induction fns as [|fn fns IH]; intros ed Hr; [done|]. simpl.
  rewrite IH; unfold run; by rewrite Hr.
Qed.

(** X3.  Tasks handed to [run] before the frame is ready change nothing
    until it is; when it is, they run in the order they were handed in, and
    the tasks handed in afterwards run at once: the frame is the one the
    whole sequence of tasks, in order, makes of the first. *)
Theorem run_keeps_the_order (ed : Editor) before after :
  readyState ed = false → tasks ed = [] →
  frame (foldl (λ ed fn, run fn ed) ed before) = frame ed
  ∧ frame (foldl (λ ed fn, run fn ed)
             (onReady (foldl (λ ed fn, run fn ed) ed before)) after)
    = foldl (λ f fn, fn f) (frame ed) (before ++ after).
Proof.
  intros Hr Ht. destruct (run_all_waiting before ed Hr) as (Hf & Htasks & _).
  split; [done|].
  rewrite run_all_ready by done. unfold onReady. simpl.
  rewrite Hf, Htasks, Ht. simpl. by rewrite foldl_app.
Qed.

(** *** The gate on commands *)

Lemma onApply_closed (ed : Editor) hs :
  canApplyAction ed = false → foldl (λ ed h, onApply h ed) ed hs = ed.
Proof.
  intros Hc. induction hs as [|h hs IH]; [done|]. simpl.
  unfold onApply at 2. by rewrite Hc.
Qed.

(** X4.  Until the selection has changed once, the [onApply] of a handler
    applies nothing: after any number of them the editor is as it was, its
    tasks and its toolbar included. *)
Theorem no_command_before_selection (frame0 : @EditFrame Doc Node) entries hs :
  foldl (λ ed h, onApply h ed) (addEntries entries (newEditor frame0)) hs
  = addEntries entries (newEditor frame0).
Proof.
  apply onApply_closed.
  assert (∀ ed o, canApplyAction (addHandler o ed) = canApplyAction ed) as Hh.
  { intros ed o. unfold addHandler. destruct (hooks o); [|done].
    by destruct (run_fields (useHooks h) (addWidget o
      {| frame := frame ed; toolbar := toolbar ed; handlers := handlers ed; isFirst := false;
         canApplyAction := canApplyAction ed; tasks := tasks ed; readyState := readyState ed;
         lastEndContainer := lastEndContainer ed; pathUpdates := pathUpdates ed |}))
      as (_ & _ & _ & -> & _). }
  assert (∀ os ed, canApplyAction (foldl (λ ed o, addHandler o ed) ed os) = canApplyAction ed)
    as Hhs.
  { induction os as [|o os IH]; intros ed; [done|]. simpl. by rewrite IH, Hh. }
  assert (∀ ed, canApplyAction (addEntries entries ed) = canApplyAction ed) as He.
  { unfold addEntries. induction entries as [|e es IH]; intros ed; [done|]. simpl.
    rewrite IH. destruct e as [o|os]; [apply Hh|].
    unfold addGroup. rewrite Hhs. by destruct (isFirst ed). }
  by rewrite He.
Qed.

(** X5.  A selection change that finds no range raises in the [map] of the
    subscription, after [canApplyAction] was set: nothing is sent to the path
    display, yet the commands are enabled all the same, and the [onApply] of
    a handler that follows applies its command, with no range to work on. *)
Theorem selection_without_range_opens_gate (ed : Editor) handler :
  let ed' := (select [] ed).1 in
  (select [] ed).2 = true
  ∧ canApplyAction ed' = true
  ∧ pathUpdates ed' = pathUpdates ed
  ∧ getRanges (frame ed') = []
  ∧ onApply handler ed' = withFrame ed' (apply handler (frame ed')).
Proof.
  cbv zeta. by split_and!.
Qed.

(** *** The path display *)

(** No two calls of [paths.update] in a row are for the same node. *)
Definition noRepeat (l : list Node) : Prop :=
  ∀ i a b, l !! i = Some a → l !! S i = Some b → a ≠ b.

Lemma noRepeat_snoc l node :
  noRepeat l → last l ≠ Some node → noRepeat (l ++ [node]).
Proof.
  intros Hl Hn i a b Ha Hb.
  destruct (decide (S i < length l)%nat) as [Hlt|Hge].
  - rewrite lookup_app_l in Ha by lia. rewrite lookup_app_l in Hb by lia. by eapply Hl.
  - assert (S i = length l) as Hi.
    { apply lookup_lt_Some in Hb. rewrite length_app in Hb. simpl in Hb. lia. }
    rewrite lookup_app_l in Ha by lia.
    rewrite lookup_app_r in Hb by lia.
    replace (S i - length l)%nat with 0%nat in Hb by lia. injection Hb as <-.
    intros ->. apply Hn. rewrite last_lookup.
    replace (pred (length l)) with i by lia. done.
Qed.

Lemma select_paths ranges (ed : Editor) :
  noRepeat (pathUpdates ed) → lastEndContainer ed = last (pathUpdates ed) →
  noRepeat (pathUpdates (select ranges ed).1)
  ∧ lastEndContainer (select ranges ed).1 = last (pathUpdates (select ranges ed).1).
Proof.
  intros Hn Hl. unfold select, onSelectionChange, getRangeAt. simpl.
  destruct (ranges !! 0%nat) as [r|]; simpl; [|done].
  case_decide as Hd.
  - split; [done|]. by rewrite <- Hl.
  - split; [|by rewrite last_snoc].
    apply noRepeat_snoc; [done|]. by rewrite <- Hl.
Qed.

(** X6.  Whatever the selection changes, [paths.update] is never called
    twice in a row for the same end container. *)
Theorem paths_updated_on_change_only (frame0 : @EditFrame Doc Node) selections :
  noRepeat (pathUpdates (selectAll selections (newEditor frame0))).
Proof.
  assert (∀ ed, noRepeat (pathUpdates ed) → lastEndContainer ed = last (pathUpdates ed) →
                noRepeat (pathUpdates (selectAll selections ed))) as Hall.
  { induction selections as [|ranges rest IH]; intros ed Hn Hl; [done|].
    simpl. destruct (select_paths ranges ed Hn Hl) as [Hn' Hl'].
    destruct (select ranges ed) as [ed' raised]. simpl in *.
    destruct raised; [done|]. by apply IH. }
  apply Hall; [|done]. intros i a b Ha. done.
Qed.

(** *** The toolbar *)

Global Instance Widget_split_dec (w : Widget) : Decision (w ≠ SplitLine).
Proof. destruct w; [right; by intros ?|left; done]. Defined.

(** The options of the entries, in order. *)
Definition optionsOf (entries : list Entry) : list HandlerOption :=
  entries ≫= λ entry, match entry with One o => [o] | Group os => os end.

(** The toolbar is empty as long as [isFirst] holds, and starts with the
    element of a widget afterwards. *)
Definition toolbarStarted (ed : Editor) : Prop :=
  if isFirst ed then toolbar ed = []
  else ∃ o rest, toolbar ed = ElementOf o :: rest.

Lemma addHandler_spec o (ed : Editor) :
  toolbarStarted ed →
  toolbarStarted (addHandler o ed)
  ∧ isFirst (addHandler o ed) = false
  ∧ handlers (addHandler o ed) = handlers ed ++ handlersOf o
  ∧ toolbar (addHandler o ed) = toolbar ed ++ [ElementOf o].
Proof.
  intros Hs. unfold addHandler.
  set (ed1 := addWidget o _).
  assert (toolbarStarted ed1 ∧ isFirst ed1 = false
          ∧ handlers ed1 = handlers ed ++ handlersOf o
          ∧ toolbar ed1 = toolbar ed ++ [ElementOf o]) as H1.
  { unfold ed1, toolbarStarted in *. simpl. split_and!; try done.
    destruct (isFirst ed).
    - rewrite Hs. by eexists _, _.
    - destruct Hs as (o' & rest & ->). by eexists _, _. }
  destruct (hooks o) as [h|]; [|done].
  destruct (run_fields (useHooks h) ed1) as (Ht & Hh & Hf & _).
  unfold toolbarStarted. rewrite Ht, Hh, Hf. apply H1.
Qed.

Lemma addHandlers_spec os (ed : Editor) :
  toolbarStarted ed →
  toolbarStarted (foldl (λ ed o, addHandler o ed) ed os)
  ∧ handlers (foldl (λ ed o, addHandler o ed) ed os) = handlers ed ++ (os ≫= handlersOf)
  ∧ filter (λ w, w ≠ SplitLine) (toolbar (foldl (λ ed o, addHandler o ed) ed os))
    = filter (λ w, w ≠ SplitLine) (toolbar ed) ++ (ElementOf <$> os).
Proof.
  revert ed. induction os as [|o os IH]; intros ed Hs; simpl.
  - by rewrite !app_nil_r.
  - destruct (addHandler_spec o ed Hs) as (Hs1 & _ & Hh1 & Ht1).
    destruct (IH _ Hs1) as (Hs2 & Hh2 & Ht2).
    split_and!; [done| |].
    + rewrite Hh2, Hh1. by rewrite <- app_assoc.
    + rewrite Ht2, Ht1, filter_app. simpl.
      rewrite filter_cons_True by done. rewrite filter_nil. by rewrite <- app_assoc.
Qed.

Lemma addGroup_spec os (ed : Editor) :
  toolbarStarted ed →
  toolbarStarted (addGroup os ed)
  ∧ handlers (addGroup os ed) = handlers ed ++ (os ≫= handlersOf)
  ∧ filter (λ w, w ≠ SplitLine) (toolbar (addGroup os ed))
    = filter (λ w, w ≠ SplitLine) (toolbar ed) ++ (ElementOf <$> os).
Proof.
  intros Hs. unfold addGroup. destruct (isFirst ed) eqn:Hf.
  - by apply addHandlers_spec.
  - set (ed1 := {| frame := frame ed; toolbar := toolbar ed ++ [SplitLine] |}).
    assert (toolbarStarted ed1) as Hs1.
    { unfold toolbarStarted in *. simpl. rewrite Hf in *.
      destruct Hs as (o & rest & ->). by eexists _, _. }
    destruct (addHandlers_spec os ed1 Hs1) as (Hs2 & Hh2 & Ht2).
    split_and!; [done|done|].
    rewrite Ht2. unfold ed1. simpl. rewrite filter_app.
    rewrite (filter_cons_False _ SplitLine) by (by intros ?).
    by rewrite filter_nil, app_nil_r.
Qed.

(** X7.  The toolbar the constructor builds never starts with a split
    line; apart from split lines it holds the elements of the widgets of the
    options, in the order of [options.handlers] with the groups flattened,
    and [handlers] lists the handlers of those widgets in the same order. *)
Theorem toolbar_follows_the_options (frame0 : @EditFrame Doc Node) entries :
  let ed := addEntries entries (newEditor frame0) in
  head (toolbar ed) ≠ Some SplitLine
  ∧ filter (λ w, w ≠ SplitLine) (toolbar ed) = ElementOf <$> optionsOf entries
  ∧ handlers ed = optionsOf entries ≫= handlersOf.
Proof.
  cbv zeta.
  assert (∀ ed, toolbarStarted ed →
            toolbarStarted (addEntries entries ed)
            ∧ handlers (addEntries entries ed)
              = handlers ed ++ (optionsOf entries ≫= handlersOf)
            ∧ filter (λ w, w ≠ SplitLine) (toolbar (addEntries entries ed))
              = filter (λ w, w ≠ SplitLine) (toolbar ed) ++ (ElementOf <$> optionsOf entries))
    as Hall.
  { unfold addEntries, optionsOf.
    induction entries as [|e es IH]; intros ed Hs; simpl.
    - by rewrite !app_nil_r.
    - assert (∃ os, (match e with One o => [o] | Group os => os end) = os
                ∧ toolbarStarted (match e with
                                  | One o => addHandler o ed
                                  | Group os => addGroup os ed
                                  end)
                ∧ handlers (match e with
                            | One o => addHandler o ed
                            | Group os => addGroup os ed
                            end) = handlers ed ++ (os ≫= handlersOf)
                ∧ filter (λ w, w ≠ SplitLine)
                    (toolbar (match e with
                              | One o => addHandler o ed
                              | Group os => addGroup os ed
                              end))
                  = filter (λ w, w ≠ SplitLine) (toolbar ed) ++ (ElementOf <$> os))
        as (os & -> & Hs1 & Hh1 & Ht1).
      { destruct e as [o|os].
        - exists [o]. destruct (addHandlers_spec [o] ed Hs) as (? & ? & ?). by split_and!.
        - exists os. destruct (addGroup_spec os ed Hs) as (? & ? & ?). by split_and!. }
      destruct (IH _ Hs1) as (Hs2 & Hh2 & Ht2).
      split_and!; [done| |].
      + rewrite Hh2, Hh1, bind_app. by rewrite <- app_assoc.
      + rewrite Ht2, Ht1, fmap_app. by rewrite <- app_assoc. }
  destruct (Hall (newEditor frame0)) as (Hs & Hh & Ht); [done|].
  split_and!; [|done|done].
  unfold toolbarStarted in Hs.
  destruct (isFirst (addEntries entries (newEditor frame0))).
  - by rewrite Hs.
  - destruct Hs as (o & rest & ->). done.
Qed.

End Machine.

Lemma updateToolbarStatus_without_range_witness :
  updateToolbarStatus sampleHandlers
    {| contents := "<p></p>"; snapshots := []; selectionRanges := [];
       bodyFocused := false; console := [] |} []
  = Throw TypeError.
Proof.
  exact (updateToolbarStatus_without_range sampleHandlers
    {| contents := "<p></p>"; snapshots := []; selectionRanges := [];
       bodyFocused := false; console := [] |} [] eq_refl).
Defined.

(** *** Samples *)

Definition emptyFrame : @EditFrame string nat :=
  {| contents := "<p></p>"; snapshots := []; selectionRanges := [];
     bodyFocused := false; console := [] |}.

Definition sampleDelta (a b : bool) (start : nat) : @CommonMatchDelta string nat :=
  {| inSingleContainer := a; overlap := b; contain := a; container := None;
     config := None; disable := b; range := sampleRange start 9 |}.

Definition reducedSample (start : nat) : @CommonMatchDelta string nat :=
  {| inSingleContainer := false; overlap := false; contain := true; container := None;
     config := None; disable := true; range := sampleRange start 9 |}.

Lemma reduced_flags_ignore_order_witness :
  inSingleContainer (reducedSample 2) = inSingleContainer (reducedSample 1)
  ∧ overlap (reducedSample 2) = overlap (reducedSample 1)
  ∧ contain (reducedSample 2) = contain (reducedSample 1)
  ∧ disable (reducedSample 2) = disable (reducedSample 1).
Proof.
  refine (reduced_flags_ignore_order
    [sampleDelta true false 1; sampleDelta false true 2]
    [sampleDelta false true 2; sampleDelta true false 1]
    (reducedSample 2) (reducedSample 1) _ _ _).
  - apply perm_swap.
  - reflexivity.
  - reflexivity.
Defined.

(** Two updates of the contents handed in before the frame is ready, the
    focus asked for afterwards. *)
Definition setContents (html : string) (f : @EditFrame string nat) : @EditFrame string nat :=
  {| contents := html; snapshots := snapshots f; selectionRanges := selectionRanges f;
     bodyFocused := bodyFocused f; console := console f |}.

Lemma run_keeps_the_order_witness :
  frame (foldl (λ ed fn, run fn ed) (newEditor (Config := string) (Hook := unit) emptyFrame)
           [setContents "<p>a</p>"; setContents "<p>b</p>"])
    = emptyFrame
  ∧ frame (foldl (λ ed fn, run fn ed)
             (onReady (foldl (λ ed fn, run fn ed)
                         (newEditor (Config := string) (Hook := unit) emptyFrame)
                         [setContents "<p>a</p>"; setContents "<p>b</p>"]))
             [focusBody])
    = foldl (λ f fn, fn f) emptyFrame
        ([setContents "<p>a</p>"; setContents "<p>b</p>"] ++ [focusBody]).
Proof.
  exact (run_keeps_the_order (newEditor (Config := string) (Hook := unit) emptyFrame)
           [setContents "<p>a</p>"; setContents "<p>b</p>"] [focusBody] eq_refl eq_refl).
Defined.

Example run_sample :
  frame (foldl (λ ed fn, run fn ed)
           (onReady (foldl (λ ed fn, run fn ed)
                       (newEditor (Config := string) (Hook := unit) emptyFrame)
                       [setContents "<p>a</p>"; setContents "<p>b</p>"]))
           [focusBody])
  = {| contents := "<p>b</p>"; snapshots := []; selectionRanges := [];
       bodyFocused := true; console := [] |}.
Proof. reflexivity. Qed.

End EditorFacts.

(** ** More of the [Input] class: the blink timer, the display, the fix-up
    and the failure of the cursor placement *)

Module InputFacts.
Import JS Cursor.

Section Blink.

Context {Node number : Type} `{JsNumber number}.

Implicit Types (st : @Input Node) (s : @Selection Node) (host : @Host Node number).

(** The fields of a new [Input]: [_display = true], [flashing = true],
    [timer = null], no selection, and elements without inline style. *)
Definition newInput : @Input Node :=
  {| selection := None; display := true; flashing := true; timer := None;
     pendingTimers := []; nextTimer := 0; cursor_visibility := "";
     cursor_backgroundColor := ""; elementRef_left := ""; elementRef_top := "";
     elementRef_height := ""; inputWrap_top := ""; input_lineHeight := "";
     input_fontSize := ""; input_value := ""; input_focused := false |}.

(** The subscriptions to [mousedown] and [mouseup]: [this.flashing = v]. *)
Definition setFlashing (v : bool) st : @Input Node :=
  {| selection := selection st; display := display st; flashing := v;
     timer := timer st; pendingTimers := pendingTimers st; nextTimer := nextTimer st;
     cursor_visibility := cursor_visibility st;
     cursor_backgroundColor := cursor_backgroundColor st;
     elementRef_left := elementRef_left st; elementRef_top := elementRef_top st;
     elementRef_height := elementRef_height st; inputWrap_top := inputWrap_top st;
     input_lineHeight := input_lineHeight st; input_fontSize := input_fontSize st;
     input_value := input_value st; input_focused := input_focused st |}.

(** The callback [toggleShowHide] of [show]:
    [this.display = !this.display || !this.flashing] and a new timer. *)
Definition toggleShowHide st : @Input Node :=
  startTimer (setDisplay (negb (display st) || negb (flashing st)) st).

(** The host runs the callback of the pending timer [t], which is pending no
    more; a timer that was cleared never fires. *)
Definition fire (t : nat) st : @Input Node :=
  if decide (t ∈ pendingTimers st) then
    toggleShowHide
      {| selection := selection st; display := display st; flashing := flashing st;
         timer := timer st; pendingTimers := filter (λ t', t' ≠ t) (pendingTimers st);
         nextTimer := nextTimer st;
         cursor_visibility := cursor_visibility st;
         cursor_backgroundColor := cursor_backgroundColor st;
         elementRef_left := elementRef_left st; elementRef_top := elementRef_top st;
         elementRef_height := elementRef_height st; inputWrap_top := inputWrap_top st;
         input_lineHeight := input_lineHeight st; input_fontSize := input_fontSize st;
         input_value := input_value st; input_focused := input_focused st |}
  else st.

(** [Input.cleanValue] and [Input.focus]. *)
Definition cleanValue st : @Input Node :=
  {| selection := selection st; display := display st; flashing := flashing st;
     timer := timer st; pendingTimers := pendingTimers st; nextTimer := nextTimer st;
     cursor_visibility := cursor_visibility st;
     cursor_backgroundColor := cursor_backgroundColor st;
     elementRef_left := elementRef_left st; elementRef_top := elementRef_top st;
     elementRef_height := elementRef_height st; inputWrap_top := inputWrap_top st;
     input_lineHeight := input_lineHeight st; input_fontSize := input_fontSize st;
     input_value := ""; input_focused := input_focused st |}.

(** [this.input.blur()]: a focused textarea loses the focus and the
    subscription to [onBlur] runs [hide]; on a textarea without the focus
    nothing happens. *)
Definition blurInput st : @Input Node :=
  if input_focused st then
    hide
      {| selection := selection st; display := display st; flashing := flashing st;
         timer := timer st; pendingTimers := pendingTimers st; nextTimer := nextTimer st;
         cursor_visibility := cursor_visibility st;
         cursor_backgroundColor := cursor_backgroundColor st;
         elementRef_left := elementRef_left st; elementRef_top := elementRef_top st;
         elementRef_height := elementRef_height st; inputWrap_top := inputWrap_top st;
         input_lineHeight := input_lineHeight st; input_fontSize := input_fontSize st;
         input_value := input_value st; input_focused := false |}
  else st.

Definition focus st : @Input Node := focusInput (blurInput (cleanValue st)).

(** What happens to an [Input]: the selection changes, the mouse goes down
    or up in the document, the document scrolls, the textarea loses the
    focus, [focus] is called, a timer fires. *)
Inductive Event :=
  | SelectionChanged (s : @Selection Node)
  | MouseDown
  | MouseUp
  | Scroll
  | Blur
  | Focus
  | TimerFired (t : nat).

(** The state after an event.  When [updateStateBySelection] or
    [updateCursorPosition] raises, the state is the one reached when it
    raised: the selection is stored, and nothing else is written. *)
Definition step host (e : Event) st : @Input Node :=
  match e with
  | SelectionChanged s =>
      match updateStateBySelection host s st with
      | Normal st' => st'
      | Throw _ => setSelection s st
      end
  | MouseDown => setFlashing false st
  | MouseUp => setFlashing true st
  | Scroll =>
      match updateCursorPosition host st with
      | Normal st' => st'
      | Throw _ => st
      end
  | Blur => blurInput st
  | Focus => focus st
  | TimerFired t => fire t st
  end.

Definition steps host (events : list Event) st : @Input Node :=
  foldl (λ st e, step host e st) st events.

(** *** The blink timer *)

(** At most one timer is pending, and it is the one [this.timer] names. *)
Definition oneTimer st : Prop :=
  pendingTimers st = [] ∨ ∃ t, pendingTimers st = [t] ∧ timer st = Some t.

Lemma hide_oneTimer st : oneTimer st → pendingTimers (hide st) = [].
Proof.
  intros [Hp|(t & Hp & Ht)]; unfold hide, clearTimer; simpl.
  - rewrite Hp. by destruct (timer st).
  - rewrite Ht, Hp. rewrite filter_cons_False by (by intros ?). done.
Qed.

Lemma show_oneTimer st :
  oneTimer st → pendingTimers (show st) = [nextTimer st] ∧ timer (show st) = Some (nextTimer st).
Proof.
  intros [Hp|(t & Hp & Ht)]; unfold show, clearTimer; simpl.
  - rewrite Hp. by destruct (timer st).
  - rewrite Ht, Hp. rewrite filter_cons_False by (by intros ?). done.
Qed.

Lemma placeCursor_timers host c k st st' :
  placeCursor host c k st = Normal st' →
  pendingTimers st' = pendingTimers st ∧ timer st' = timer st
  ∧ display st' = display st ∧ cursor_visibility st' = cursor_visibility st
  ∧ input_focused st' = input_focused st ∧ selection st' = selection st
  ∧ nextTimer st' = nextTimer st ∧ flashing st' = flashing st
  ∧ input_value st' = input_value st.
Proof.
  unfold placeCursor. destruct (styledElement host c); [|done]. by intros [= <-].
Qed.

Lemma updateCursorPosition_timers host st st' :
  updateCursorPosition host st = Normal st' →
  pendingTimers st' = pendingTimers st ∧ timer st' = timer st
  ∧ display st' = display st ∧ cursor_visibility st' = cursor_visibility st
  ∧ input_focused st' = input_focused st ∧ selection st' = selection st
  ∧ nextTimer st' = nextTimer st ∧ flashing st' = flashing st
  ∧ input_value st' = input_value st.
Proof.
  unfold updateCursorPosition. destruct (selection st) as [s|] eqn:Es;
    [|by intros [= <-]].
  case_decide; [by intros [= <-]|].
  destruct (focusNode s) as [c|]; [|done].
  destruct (retarget host c (focusOffset s)) as [c' k'].
  intros Hp. apply placeCursor_timers in Hp. by rewrite Es in Hp.
Qed.

Lemma blurInput_oneTimer st : oneTimer st → oneTimer (blurInput st).
Proof.
  intros Ho. unfold blurInput. destruct (input_focused st); [|done].
  left. apply hide_oneTimer. exact Ho.
Qed.

Lemma step_oneTimer host e st : oneTimer st → oneTimer (step host e st).
Proof.
  intros Ho. destruct e as [s| | | | | |t]; simpl.
  - unfold updateStateBySelection. case_decide.
    + left. apply hide_oneTimer. exact Ho.
    + destruct (updateCursorPosition host (setSelection s st)) as [st1|] eqn:Eu;
        unfold mbind, completion_bind; [|done].
      apply updateCursorPosition_timers in Eu as (Hp & Ht & _).
      assert (oneTimer st1) as Ho1.
      { unfold oneTimer. rewrite Hp, Ht. exact Ho. }
      destruct (isCollapsed s).
      * right. exists (nextTimer st1). by apply show_oneTimer.
      * left. by apply hide_oneTimer.
  - done.
  - done.
  - destruct (updateCursorPosition host st) as [st1|] eqn:Eu; [|done].
    apply updateCursorPosition_timers in Eu as (Hp & Ht & _).
    unfold oneTimer. by rewrite Hp, Ht.
  - by apply blurInput_oneTimer.
  - unfold focus. by apply (blurInput_oneTimer (cleanValue st)).
  - unfold fire. case_decide as Hin; [|done].
    right. exists (nextTimer st). unfold toggleShowHide, startTimer. simpl.
    destruct Ho as [Hp|(t' & Hp & Ht)].
    + rewrite Hp in Hin. by apply elem_of_nil in Hin.
    + rewrite Hp in Hin. apply list_elem_of_singleton in Hin as ->.
      rewrite Hp. rewrite filter_cons_False by (by intros ?). done.
Qed.

(** X8.  Whatever happens to a new [Input] (selection changes, mouse
    buttons, scrolling, blur, timers firing), it never has two blink timers
    pending, and the one that is pending is the one [this.timer] names: no
    timer started by [show] or by the blink itself is left running behind a
    later one. *)
Theorem one_blink_timer host (events : list Event) :
  (length (pendingTimers (steps host events newInput)) ≤ 1)%nat
  ∧ ∀ t, t ∈ pendingTimers (steps host events newInput) →
         timer (steps host events newInput) = Some t.
Proof.
  assert (∀ st, oneTimer st → oneTimer (steps host events st)) as Hall.
  { unfold steps. induction events as [|e es IH]; intros st Ho; [done|].
    simpl. apply IH. by apply step_oneTimer. }
  destruct (Hall newInput) as [Hp|(t & Hp & Ht)]; [by left| |]; rewrite Hp.
  - split; [simpl; lia|]. intros t Hin. by apply elem_of_nil in Hin.
  - split; [simpl; lia|]. intros t' Hin. by apply list_elem_of_singleton in Hin as ->.
Qed.

(** *** The display after a selection change *)

(** X9.  When [updateStateBySelection] returns, the selection is stored,
    the cursor is displayed exactly when the selection has a range and is
    collapsed, the visibility style agrees with the display, a blink timer is
    pending exactly in that case too (for an [Input] with at most one timer),
    and the textarea has the focus as soon as the selection has a range. *)
Theorem updateStateBySelection_display host s st st' :
  oneTimer st →
  updateStateBySelection host s st = Normal st' →
  selection st' = Some s
  ∧ display st' = bool_decide (rangeCount s ≠ 0%nat) && isCollapsed s
  ∧ cursor_visibility st' = (if display st' then "visible" else "hidden")
  ∧ pendingTimers st' = (if display st' then [nextTimer st] else [])
  ∧ input_focused st' = (bool_decide (rangeCount s ≠ 0%nat) || input_focused st).
Proof.
  intros Ho. unfold updateStateBySelection. case_decide as Hr.
  - intros [= <-]. rewrite bool_decide_eq_false_2 by (by intros ?). simpl.
    split_and!; try done. apply (hide_oneTimer (setSelection s st)). exact Ho.
  - destruct (updateCursorPosition host (setSelection s st)) as [st1|] eqn:Eu;
      unfold mbind, completion_bind; [|done].
    apply updateCursorPosition_timers in Eu as (Hp & Ht & Hd & Hv & Hf & Hs & Hn & _).
    assert (oneTimer st1) as Ho1.
    { unfold oneTimer. rewrite Hp, Ht. exact Ho. }
    rewrite bool_decide_eq_true_2 by done.
    intros [= <-]. destruct (isCollapsed s); simpl.
    + split_and!; try done.
      destruct (show_oneTimer st1 Ho1) as [Hp' _]. unfold show in Hp'. simpl in Hp'.
      rewrite Hp'. by rewrite Hn.
    + split_and!; try done. by apply (hide_oneTimer st1).
Qed.

(** *** Blinking while the mouse button is down *)

Lemma fire_flashing t st : flashing (fire t st) = flashing st.
Proof. unfold fire. by case_decide. Qed.

Lemma fire_not_flashing t st :
  flashing st = false → display st = true → display (fire t st) = true.
Proof.
  intros Hf Hd. unfold fire. case_decide; [|done].
  unfold toggleShowHide. simpl. rewrite Hf. by rewrite orb_true_r.
Qed.

(** X10.  While the mouse button is down ([flashing] is false) the cursor
    does not blink: once a pending timer has fired the cursor is visible,
    and it stays visible however many timers fire after it. *)
Theorem no_blink_while_mouse_down host t (ts : list nat) st :
  t ∈ pendingTimers st →
  display (steps host (TimerFired <$> (t :: ts)) (step host MouseDown st)) = true
  ∧ cursor_visibility (steps host (TimerFired <$> (t :: ts)) (step host MouseDown st))
    = "visible".
Proof.
  intros Hin. simpl.
  assert (∀ st0, flashing st0 = false → display st0 = true →
            cursor_visibility st0 = "visible" →
            display (steps host (TimerFired <$> ts) st0) = true
            ∧ cursor_visibility (steps host (TimerFired <$> ts) st0) = "visible") as Hall.
  { unfold steps. induction ts as [|t' ts IH]; intros st0 Hf Hd Hv; [done|].
    simpl. apply IH.
    - by rewrite fire_flashing.
    - by apply fire_not_flashing.
    - unfold fire. case_decide; [|done]. unfold toggleShowHide. simpl.
      rewrite Hf. by rewrite orb_true_r. }
  apply Hall; unfold fire; simpl; rewrite decide_True by done;
    unfold toggleShowHide; simpl; by rewrite ?orb_true_r.
Qed.

(** *** The fix-up of the start position *)

(** X11.  The fix-up of lines 196-202 needs no second pass: the position it
    returns is left alone by the fix-up, because the text node it moves to
    is not an element. *)
Theorem retarget_is_stable host container k :
  retarget host (retarget host container k).1 (retarget host container k).2
  = retarget host container k.
Proof.
  unfold retarget at 2 3 4.
  destruct (decide (nodeType host container = ELEMENT_NODE)) as [He|Hne].
  - destruct (childNodes host container !! k) as [child|] eqn:Ek.
    + destruct (decide (nodeType host child = TEXT_NODE)) as [Ht|Hnt]; simpl.
      * unfold retarget. rewrite decide_False; [done|].
        rewrite Ht. unfold TEXT_NODE, ELEMENT_NODE. lia.
      * unfold retarget. rewrite decide_True by done. rewrite Ek.
        by rewrite decide_False.
    + simpl. unfold retarget. rewrite decide_True by done. by rewrite Ek.
  - simpl. unfold retarget. by rewrite decide_False.
Qed.

(** *** When the placement of the cursor fails *)

(** X12.  [updateCursorPosition] raises exactly when the selection has a
    range and the node at the start position after the fix-up is not an
    element and has no parent: [getComputedStyle] is then called on [null].
    What it raises is a [TypeError]. *)
Theorem updateCursorPosition_raises_iff host st e :
  updateCursorPosition host st = Throw e ↔
  e = TypeError
  ∧ ∃ s container,
      selection st = Some s ∧ focusNode s = Some container
      ∧ nodeType host (retarget host container (focusOffset s)).1 ≠ ELEMENT_NODE
      ∧ parentNode host (retarget host container (focusOffset s)).1 = None.
Proof.
  unfold updateCursorPosition. split.
  - destruct (selection st) as [s|]; [|done].
    case_decide as Hr; [done|].
    destruct (focusNode s) as [c|] eqn:Ef.
    + destruct (retarget host c (focusOffset s)) as [c' k'] eqn:Er.
      unfold placeCursor, styledElement.
      case_decide as He; [done|].
      destruct (parentNode host c') eqn:Ep; [done|].
      intros [= <-]. split; [done|]. exists s, c. by rewrite Er.
    + unfold rangeCount in Hr. unfold focusNode in Ef.
      by destruct (Cursor.focus s).
  - intros (-> & s & c & Hs & Hf & Hne & Hp). rewrite Hs.
    rewrite decide_False.
    2:{ unfold rangeCount. unfold focusNode in Hf. by destruct (Cursor.focus s). }
    rewrite Hf.
    destruct (retarget host c (focusOffset s)) as [c' k'] eqn:Er. simpl in *.
    unfold placeCursor, styledElement. rewrite decide_False by done. by rewrite Hp.
Qed.

(** *** Scrolling *)

(** X13.  Scrolling the document only moves the cursor: whether or not the
    placement succeeds, the selection, the display and its visibility style,
    the blink timers, the flashing flag, the value and the focus of the
    textarea are what they were. *)
Theorem scroll_only_moves host st :
  selection (step host Scroll st) = selection st
  ∧ display (step host Scroll st) = display st
  ∧ cursor_visibility (step host Scroll st) = cursor_visibility st
  ∧ timer (step host Scroll st) = timer st
  ∧ pendingTimers (step host Scroll st) = pendingTimers st
  ∧ flashing (step host Scroll st) = flashing st
  ∧ input_value (step host Scroll st) = input_value st
  ∧ input_focused (step host Scroll st) = input_focused st.
Proof.
  simpl. destruct (updateCursorPosition host st) as [st1|] eqn:Eu; [|done].
  apply updateCursorPosition_timers in Eu
    as (Hp & Ht & Hd & Hv & Hf & Hs & Hn & Hfl & Hval).
  by split_and!.
Qed.

End Blink.

(** *** Samples *)

Lemma updateStateBySelection_display_witness :
  oneTimer (@sampleInput)
  ∧ ∃ st',
      updateStateBySelection sampleHost firstParagraphCaret sampleInput = Normal st'
      ∧ selection st' = Some firstParagraphCaret
      ∧ display st' = bool_decide (rangeCount firstParagraphCaret ≠ 0%nat)
                      && isCollapsed firstParagraphCaret
      ∧ cursor_visibility st' = (if display st' then "visible" else "hidden")
      ∧ pendingTimers st' = (if display st' then [nextTimer sampleInput] else [])
      ∧ input_focused st'
        = (bool_decide (rangeCount firstParagraphCaret ≠ 0%nat) || input_focused sampleInput).
Proof.
  split; [by left|]. eexists. split; [reflexivity|].
  apply (updateStateBySelection_display sampleHost firstParagraphCaret sampleInput);
    [by left|reflexivity].
Defined.

Lemma no_blink_while_mouse_down_witness :
  0%nat ∈ pendingTimers (show sampleInput)
  ∧ display (steps sampleHost (TimerFired <$> [0; 1; 2]%nat)
       (step sampleHost MouseDown (show sampleInput))) = true
  ∧ cursor_visibility (steps sampleHost (TimerFired <$> [0; 1; 2]%nat)
       (step sampleHost MouseDown (show sampleInput))) = "visible".
Proof.
  assert (0%nat ∈ pendingTimers (show sampleInput)) as Hin by (vm_compute; constructor).
  split; [exact Hin|].
  exact (no_blink_while_mouse_down sampleHost 0%nat [1; 2]%nat (show sampleInput) Hin).
Defined.

(** With the mouse button up the cursor blinks: the timer started by [show]
    hides it, the next one shows it again; a timer that is not pending does
    nothing. *)
Example blink_sample :
  display (steps sampleHost [TimerFired 0] (show sampleInput)) = false
  ∧ display (steps sampleHost [TimerFired 0; TimerFired 1] (show sampleInput)) = true
  ∧ steps sampleHost [TimerFired 0; TimerFired 0] (show sampleInput)
    = steps sampleHost [TimerFired 0] (show sampleInput).
Proof. by vm_compute. Qed.

End InputFacts.

(** ** The [Events] class: keymaps and the dispatch of [keydown] *)

Module Keymaps.

(** [Keymap]: the optional modifiers and the key, one string or an array. *)
Record Keymap := {
  ctrlKey : option bool;
  shiftKey : option bool;
  altKey : option bool;
  key : string + list string
}.

(** The members of a [KeyboardEvent] the subscription reads. *)
Record KeyboardEvent := {
  ev_key : string;
  ev_altKey : bool;
  ev_shiftKey : bool;
  ev_ctrlKey : bool;
  ev_metaKey : bool
}.

Section Events.

(** The callbacks of the keymaps, by identity. *)
Context {Action : Type}.

(** [isMac], and the RegExp of line 75 built from [ev.key], as the test it
    performs on a string; [None] when the constructor rejects the pattern. *)
Variable isMac : bool.
Variable newRegExp : string → option (string → bool).

Record KeymapAction := {
  keymap : Keymap;
  action : Action
}.

(** An [Events] object: its keymaps, the local [isWriting] of [setup] and
    the value of its input. *)
Record Events := {
  keymaps : list KeymapAction;
  isWriting : bool;
  input_value : string
}.

(** [new Events(input)] for an input holding [value]. *)
Definition newEvents (value : string) : Events :=
  {| keymaps := []; isWriting := false; input_value := value |}.

(** [Events.addKeymap]. *)
Definition addKeymap (config : KeymapAction) (this : Events) : Events :=
  {| keymaps := keymaps this ++ [config]; isWriting := isWriting this;
     input_value := input_value this |}.

(** The subscriptions to [compositionstart] and [compositionend]. *)
Definition compositionstart (this : Events) : Events :=
  {| keymaps := keymaps this; isWriting := true; input_value := input_value this |}.

Definition compositionend (this : Events) : Events :=
  {| keymaps := keymaps this; isWriting := false; input_value := input_value this |}.

(** What a [keydown] comes to: stopped by the filter, raised by the RegExp
    constructor, handed to an action after [preventDefault], or left alone. *)
Inductive Outcome :=
  | Filtered
  | SyntaxError
  | Fired (a : Action)
  | Unhandled.

(** [!!v] for an optional boolean. *)
Definition truthy (v : option bool) : bool := default false v.

(** Lines 77-79: the test of the key, or of one of the keys. *)
Definition keyTest (reg : string → bool) (k : Keymap) : bool :=
  match key k with
  | inl s => reg s
  | inr l => existsb (λ b, b) (reg <$> l)
  end.

(** Lines 80-83. *)
Definition matches (reg : string → bool) (ev : KeyboardEvent) (config : KeymapAction) : bool :=
  keyTest reg (keymap config)
  && bool_decide (truthy (altKey (keymap config)) = ev_altKey ev)
  && bool_decide (truthy (shiftKey (keymap config)) = ev_shiftKey ev)
  && bool_decide (truthy (ctrlKey (keymap config))
                  = if isMac then ev_metaKey ev else ev_ctrlKey ev).

(** The loop of lines 76-87, which returns at the first match. *)
Fixpoint dispatch (reg : string → bool) (ev : KeyboardEvent) (configs : list KeymapAction) :
    Outcome :=
  match configs with
  | [] => Unhandled
  | config :: rest =>
      if matches reg ev config then Fired (action config) else dispatch reg ev rest
  end.

(** The subscription to [keydown], behind its filter. *)
Definition keydown (ev : KeyboardEvent) (this : Events) : Outcome :=
  if negb (isWriting this) || bool_decide (input_value this = "") then
    match newRegExp (ev_key ev) with
    | Some reg => dispatch reg ev (keymaps this)
    | None => SyntaxError
    end
  else Filtered.

(** *** Properties *)

Lemma dispatch_app reg ev (l1 l2 : list KeymapAction) :
  dispatch reg ev (l1 ++ l2) =
    match dispatch reg ev l1 with
    | Unhandled => dispatch reg ev l2
    | o => o
    end.
Proof.
  induction l1 as [|c l1 IH]; simpl; [by destruct (dispatch reg ev l2)|].
  by destruct (matches reg ev c).
Qed.

(** X14.  A keymap added later never takes a key from one added before: a
    [keydown] that an action handled is handled by the same action after
    [addKeymap], and one that was stopped or raised is still stopped or
    raises.  The new keymap is tried only for a [keydown] no keymap
    handled. *)
Theorem addKeymap_never_overrides (config : KeymapAction) (ev : KeyboardEvent) (this : Events) :
  keydown ev (addKeymap config this) =
    match keydown ev this with
    | Unhandled =>
        match newRegExp (ev_key ev) with
        | Some reg => if matches reg ev config then Fired (action config) else Unhandled
        | None => Unhandled
        end
    | o => o
    end.
Proof.
  unfold keydown. simpl.
  destruct (negb (isWriting this) || bool_decide (input_value this = "")); [|done].
  destruct (newRegExp (ev_key ev)) as [reg|]; [|done].
  rewrite dispatch_app. simpl.
  by destruct (dispatch reg ev (keymaps this)).
Qed.

(** X15.  On a Mac the Control key plays no part in a shortcut, and
    elsewhere the Meta key plays none: two [keydown] events that differ only
    in that modifier come to the same. *)
Theorem keydown_ignores_other_modifier (ev ev' : KeyboardEvent) (this : Events) :
  ev_key ev' = ev_key ev →
  ev_altKey ev' = ev_altKey ev →
  ev_shiftKey ev' = ev_shiftKey ev →
  (if isMac then ev_metaKey ev' = ev_metaKey ev else ev_ctrlKey ev' = ev_ctrlKey ev) →
  keydown ev' this = keydown ev this.
Proof.
  intros Hk Ha Hs Hm. unfold keydown. rewrite Hk.
  destruct (negb (isWriting this) || bool_decide (input_value this = "")); [|done].
  destruct (newRegExp (ev_key ev)) as [reg|]; [|done].
  induction (keymaps this) as [|c l IH]; simpl; [done|].
  assert (matches reg ev' c = matches reg ev c) as ->; [|by rewrite IH].
  unfold matches. rewrite Ha, Hs. by destruct isMac; rewrite Hm.
Qed.

(** The events of an input session. *)
Inductive InputEvent :=
  | CompositionStart
  | CompositionEnd
  | Typed (value : string)
  | KeyDown (ev : KeyboardEvent).

(** The state after an event, and the actions fired so far, latest first. *)
Definition handle (e : InputEvent) (acc : Events * list Action) : Events * list Action :=
  let '(this, fired) := acc in
  match e with
  | CompositionStart => (compositionstart this, fired)
  | CompositionEnd => (compositionend this, fired)
  | Typed value =>
      ({| keymaps := keymaps this; isWriting := isWriting this; input_value := value |},
       fired)
  | KeyDown ev =>
      match keydown ev this with
      | Fired a => (this, a :: fired)
      | _ => (this, fired)
      end
  end.

Definition session (events : list InputEvent) (acc : Events * list Action) :
    Events * list Action :=
  foldl (λ acc e, handle e acc) acc events.

(** The input method is composing a non-empty text. *)
Definition composing (this : Events) : Prop :=
  isWriting this = true ∧ input_value this ≠ "".

(** Events that leave a composition going: key presses, and text that is
    not empty. *)
Definition keepsComposing (e : InputEvent) : Prop :=
  match e with
  | KeyDown _ => True
  | Typed value => value ≠ ""
  | _ => False
  end.

(** X16.  While the input method composes a non-empty text no shortcut
    fires: after [compositionstart] on a non-empty input, however many keys
    are pressed and whatever non-empty text is typed, no action has been
    run. *)
Theorem no_shortcut_while_composing (events : list InputEvent) (this : Events)
    (fired : list Action) :
  input_value this ≠ "" →
  Forall keepsComposing events →
  (session (CompositionStart :: events) (this, fired)).2 = fired.
Proof.
  intros Hv Hall. unfold session. simpl.
  assert (composing (compositionstart this)) as Hc by done.
  revert Hc. generalize (compositionstart this) as st.
  induction Hall as [|e events He Hall IH]; intros st Hc; [done|].
  simpl. destruct e as [| |value|ev]; try done.
  - apply IH. by destruct Hc.
  - assert (keydown ev st = Filtered) as ->; [|by apply IH].
    unfold keydown. destruct Hc as [-> Hne]. simpl.
    by rewrite bool_decide_eq_false_2.
Qed.

End Events.

(** *** Samples *)

(** A test that takes a key name up to the case of ASCII letters, as the
    RegExp of a key made of letters and digits does. *)
Definition sampleRegExp (pattern : string) : option (string → bool) :=
  Some (λ k, bool_decide (Margin.lowerCase k = Margin.lowerCase pattern)).

Definition ctrlB : Keymap :=
  {| ctrlKey := Some true; shiftKey := None; altKey := None; key := inl "b" |}.

Definition sampleKeymaps : Events (Action := string) :=
  addKeymap {| keymap := ctrlB; action := "italic" |}
    (addKeymap {| keymap := ctrlB; action := "bold" |} (newEvents "")).

Definition pressCtrlB : KeyboardEvent :=
  {| ev_key := "B"; ev_altKey := false; ev_shiftKey := false; ev_ctrlKey := true;
     ev_metaKey := false |}.

Example keydown_sample :
  keydown false sampleRegExp pressCtrlB sampleKeymaps = Fired "bold"
  ∧ keydown true sampleRegExp pressCtrlB sampleKeymaps = Unhandled.
Proof. by vm_compute. Qed.

Lemma keydown_ignores_other_modifier_witness :
  keydown false sampleRegExp
    {| ev_key := "B"; ev_altKey := false; ev_shiftKey := false; ev_ctrlKey := true;
       ev_metaKey := true |} sampleKeymaps
  = keydown false sampleRegExp pressCtrlB sampleKeymaps.
Proof.
  by apply (keydown_ignores_other_modifier false sampleRegExp).
Defined.

Lemma no_shortcut_while_composing_witness :
  (session false sampleRegExp
     [CompositionStart; KeyDown pressCtrlB; Typed "ni"; KeyDown pressCtrlB]
     ({| keymaps := keymaps sampleKeymaps; isWriting := false; input_value := "n" |}, [])).2
  = [].
Proof.
  apply (no_shortcut_while_composing false sampleRegExp
           [KeyDown pressCtrlB; Typed "ni"; KeyDown pressCtrlB]); [done|].
  repeat constructor; done.
Defined.

End Keymaps.

(** ** More of the margin formatter: [match], and [render] on its own
    output *)

Module MarginFacts.
Import Core Margin.

(** [FormatEffect], as far as [match] uses it. *)
Inductive FormatEffect :=
  | Valid
  | Invalid.

(** What [match] is given: abstract data, or an [HTMLElement] with its tag
    name and its inline style, which reads as the empty string for a
    property that is not set. *)
Inductive Target :=
  | AbstractData (p : FormatAbstractData)
  | HTMLElement (tagName : string) (style : string → string).

Definition styleKeys : list string :=
  ["margin"; "marginLeft"; "marginRight"; "marginTop"; "marginBottom"].

(** [!!i] for what [styles.get] and [style[key]] return. *)
Definition truthy (i : option string) : bool :=
  match i with
  | Some s => negb (bool_decide (s = ""))
  | None => false
  end.

(** [MarginFormatter.match] for a formatter built over [tags]. *)
Definition matchFormat (tags : list string) (p : Target) : FormatEffect :=
  if negb (regTest tags (match p with
                         | AbstractData p => tag p
                         | HTMLElement tagName _ => tagName
                         end))
  then Invalid
  else
    match p with
    | AbstractData p =>
        if bool_decide (0 < length (filter (λ i, truthy i = true)
                                      ((λ key, styles p !! key) <$> styleKeys)))%nat
        then Valid else Invalid
    | HTMLElement _ style =>
        if bool_decide (0 < length (filter (λ i, truthy i = true)
                                      ((λ key, Some (style key)) <$> styleKeys)))%nat
        then Valid else Invalid
    end.

Definition tagOf (p : Target) : string :=
  match p with
  | AbstractData p => tag p
  | HTMLElement tagName _ => tagName
  end.

(** *** Properties *)

Lemma matchFormat_Valid tags p : matchFormat tags p = Valid → regTest tags (tagOf p) = true.
Proof.
  unfold matchFormat. fold (tagOf p). by destruct (regTest tags (tagOf p)).
Qed.

Lemma regTest_elem tags name :
  regTest tags name = true → ∃ t, t ∈ tags ∧ lowerCase t = lowerCase name.
Proof.
  unfold regTest. rewrite existsb_exists. intros (t & Hin & Ht).
  exists t. split; [by apply list_elem_of_In|]. by apply bool_decide_eq_true in Ht.
Qed.

(** X17.  Nothing is matched by both margin formatters: whatever the case
    of its tag name and whatever its styles, an element or abstract data that
    the inline formatter finds valid is invalid for the block formatter, and
    the other way round. *)
Theorem inline_and_block_exclude (p : Target) :
  matchFormat inlineTags p = Invalid ∨ matchFormat blockTags p = Invalid.
Proof.
  destruct (matchFormat inlineTags p) eqn:Hi; [|by left].
  destruct (matchFormat blockTags p) eqn:Hb; [|by right].
  exfalso.
  apply matchFormat_Valid, regTest_elem in Hi as (ti & Hti & Ei).
  apply matchFormat_Valid, regTest_elem in Hb as (tb & Htb & Eb).
  assert (lowerCase ti = lowerCase tb) as E by congruence.
  clear Ei Eb. unfold inlineTags in Hti. unfold blockTags in Htb.
  repeat (apply elem_of_cons in Hti as [->|Hti]);
    [..|by apply elem_of_nil in Hti];
    repeat (apply elem_of_cons in Htb as [->|Htb]);
    try (by apply elem_of_nil in Htb); by vm_compute in E.
Qed.

(** X18.  [match] looks at the [margin] shorthand, [render] does not:
    abstract data of a matching tag whose only margin style is a non-empty
    [margin] is valid for the formatter, and is rendered with the margin
    ["0 0 0 0"]. *)
Theorem shorthand_matches_but_renders_zero tags (p : FormatAbstractData) (m : string)
    (existingElement : option VElement) :
  regTest tags (tag p) = true →
  styles p !! "margin" = Some m →
  m ≠ "" →
  styles p !! "marginTop" = None →
  styles p !! "marginRight" = None →
  styles p !! "marginLeft" = None →
  styles p !! "marginBottom" = None →
  matchFormat tags (AbstractData p) = Valid
  ∧ marginString {| abstractData := p |} = "0 0 0 0"
  ∧ ∀ mode element, render tags {| abstractData := p |} existingElement = (mode, element) →
      match mode with
      | Some (ChildSlotMode slot) => velement_styles slot !! "margin" = Some "0 0 0 0"
      | Some (ReplaceMode _) => False
      | None => ∃ e, element = Some e ∧ velement_styles e !! "margin" = Some "0 0 0 0"
      end.
Proof.
  intros Hreg Hm Hne Ht Hr Hl Hb.
  assert (marginString {| abstractData := p |} = "0 0 0 0") as Hs.
  { unfold marginString, marginEntries. simpl. by rewrite Ht, Hr, Hl, Hb. }
  split_and!; [|exact Hs|].
  - unfold matchFormat. rewrite Hreg. simpl. rewrite Hm.
    rewrite filter_cons_True by (simpl; by rewrite bool_decide_eq_false_2).
    case_bool_decide as Hlen; [done|]. simpl in Hlen. lia.
  - intros mode element. unfold render. rewrite Hs.
    destruct existingElement as [e|].
    + destruct (regTest tags (tagName e)); intros [= <- <-].
      * eexists. split; [done|]. simpl. apply lookup_insert_eq.
      * simpl. apply lookup_insert_eq.
    + intros [= <- <-]. simpl. apply lookup_insert_eq.
Qed.

(** X19.  The inline formatter takes the [span] it makes for its own: the
    slot element of a first [render] is, for a second [render], an existing
    element of a matching tag, whose margin is set in place; with the same
    context the element is left as it was.  The block formatter does not
    know the [span] and wraps again. *)
Theorem render_on_own_slot (context context' : FormatRendingContext) :
  let slot := setStyle "margin" (marginString context) (newVElement "span") in
  render inlineTags context None = (Some (ChildSlotMode slot), None)
  ∧ render inlineTags context' (Some slot)
    = (None, Some (setStyle "margin" (marginString context') (newVElement "span")))
  ∧ render inlineTags context (Some slot) = (None, Some slot)
  ∧ render blockTags context' (Some slot)
    = (Some (ChildSlotMode (setStyle "margin" (marginString context') (newVElement "span"))),
       Some slot).
Proof.
  intros slot. by split_and!.
Qed.

(** X20.  [render] touches an existing element only to set its margin: its
    tag name and its other styles are what they were, and an element of a tag
    the formatter does not know is not touched at all. *)
Theorem render_keeps_the_rest tags context (element : VElement) :
  ∃ element',
    (render tags context (Some element)).2 = Some element'
    ∧ tagName element' = tagName element
    ∧ (∀ key, key ≠ "margin" → velement_styles element' !! key = velement_styles element !! key)
    ∧ (regTest tags (tagName element) = false → element' = element).
Proof.
  unfold render. destruct (regTest tags (tagName element)); simpl.
  - eexists. split_and!; [done|done| |done].
    intros key Hk. simpl. by rewrite lookup_insert_ne.
  - by exists element.
Qed.

(** *** Samples *)

Definition shorthandOnly : FormatAbstractData :=
  {| tag := "P"; attrs := ∅; styles := {["margin" := "4px"]}; classes := [] |}.

Lemma shorthand_matches_but_renders_zero_witness :
  matchFormat blockTags (AbstractData shorthandOnly) = Valid
  ∧ marginString {| abstractData := shorthandOnly |} = "0 0 0 0".
Proof.
  destruct (shorthand_matches_but_renders_zero blockTags shorthandOnly "4px" None)
    as (Hv & Hs & _); [by vm_compute..|].
  by split.
Defined.

Example matchFormat_samples :
  matchFormat inlineTags (AbstractData shorthandOnly) = Invalid
  ∧ matchFormat blockTags
      (HTMLElement "DIV" (λ key, if decide (key = "marginTop") then "1em" else "")) = Valid
  ∧ matchFormat blockTags (HTMLElement "DIV" (λ _, "")) = Invalid.
Proof. by vm_compute. Qed.

End MarginFacts.

(** ** More of [Single.render]: formats that render nothing, models that
    make it raise, and the tag of the result *)

Module RenderFacts.
Import JS Core Format Render.

Section Render.

Variable execRender :
  nat → FormatState → option nat → option string → gmap nat Element →
  completion (RenderModel * gmap nat Element).
Variable getCanApplyFormats : gmap nat (list FormatRange) → list ApplyFormat.
Variable find : nat → Single → nat.

Implicit Types (d : gmap nat Element) (this : Single) (vNode : VMediaNode).

(** The virtual node [render] builds, the bare element it creates, and the
    state in which the reduction starts. *)
Definition vNodeOf this : VMediaNode :=
  {| vm_parent := parent this; vm_formats := getCanApplyFormats (formatMatrix this);
     vm_index := find (parent this) this |}.

Definition bareElement this (p : option parentRef) : Element :=
  {| el_tagName := tagName this; el_children := []; el_parent := p;
     el_virtualNode := Some (vNodeOf this) |}.

Definition startOf this d : Locals * gmap nat Element :=
  ({| node := Some (fresh (dom d)); container := None; slotContainer := None |},
   <[fresh (dom d) := bareElement this None]> d).

(** A format that renders nothing: it has no handler, or the [render] of its
    handler returns no model and leaves the document alone (as the [render]
    of [ListCommander], which returns [undefined]). *)
Definition idle (next : ApplyFormat) : Prop :=
  match af_handler next with
  | None => True
  | Some handler =>
      ∀ rawElement d,
        execRender handler (af_state next) rawElement (af_cacheData next) d = Normal (NoModel, d)
  end.

Lemma Single_render_unfold this d :
  Single_render execRender getCanApplyFormats find this d =
    ('(locals, d') ← reduceFrom (renderStep execRender (vNodeOf this))
                      (getCanApplyFormats (formatMatrix this)) (startOf this d);
     match node locals with
     | Some n => appendToFragment n d'
     | None => Normal ({| childNodes := [] |}, d')
     end).
Proof.
  unfold Single_render, createElement, setVirtualNode, startOf, bareElement, vNodeOf.
  rewrite lookup_insert_eq. simpl. by rewrite insert_insert_eq.
Qed.

Lemma reduceFrom_app {A B} (f : A → B → completion B) (l1 l2 : list A) (acc : B) :
  reduceFrom f (l1 ++ l2) acc = reduceFrom f l1 acc ≫= reduceFrom f l2.
Proof.
  revert acc. induction l1 as [|x l1 IH]; intros acc; [done|].
  simpl. destruct (f x acc) as [acc1|]; [|done]. apply IH.
Qed.

Lemma reduceFrom_idle vNode (formats : list ApplyFormat) (acc : Locals * gmap nat Element) :
  Forall idle formats → reduceFrom (renderStep execRender vNode) formats acc = Normal acc.
Proof.
  intros Hall. revert acc. induction Hall as [|next formats Hn Hall IH]; intros [locals d];
    [done|].
  cbn [reduceFrom]. assert (renderStep execRender vNode next (locals, d) = Normal (locals, d)) as ->.
  { unfold renderStep, idle in *. destruct (af_handler next) as [handler|]; [|done].
    by rewrite Hn. }
  apply IH.
Qed.

(** X21.  When no applicable format renders anything (none has a handler,
    or the handlers return no model and leave the document alone), [render]
    returns a fragment whose only child is the new element of the node's tag
    name, without children, tagged with the virtual node; nothing else in the
    document has changed. *)
Theorem render_without_models this d :
  Forall idle (getCanApplyFormats (formatMatrix this)) →
  Single_render execRender getCanApplyFormats find this d =
    Normal ({| childNodes := [fresh (dom d)] |},
            <[fresh (dom d) := bareElement this (Some InFragment)]> d).
Proof.
  intros Hall. rewrite Single_render_unfold, reduceFrom_idle by done.
  unfold startOf. simpl. unfold appendToFragment. rewrite lookup_insert_eq.
  unfold detach. rewrite lookup_insert_eq. simpl. by rewrite insert_insert_eq.
Qed.

(** A model without element. *)
Definition noElement (model : RenderModel) : Prop :=
  model = ReplaceModel None ∨ model = ChildSlotModel None.

Lemma render_raises this d pre next post locals d0 e :
  getCanApplyFormats (formatMatrix this) = pre ++ next :: post →
  reduceFrom (renderStep execRender (vNodeOf this)) pre (startOf this d) = Normal (locals, d0) →
  renderStep execRender (vNodeOf this) next (locals, d0) = Throw e →
  Single_render execRender getCanApplyFormats find this d = Throw e.
Proof.
  intros Hf Hpre Hstep. rewrite Single_render_unfold, Hf, reduceFrom_app, Hpre.
  unfold mbind, completion_bind. cbn [reduceFrom]. by rewrite Hstep.
Qed.

(** X22.  A [ReplaceModel] or a [ChildSlotModel] without element makes
    [render] raise a TypeError, wherever in the list of formats it is
    returned: nothing is skipped and no fragment comes back. *)
Theorem model_without_element_raises this d pre next post locals d0 handler model d1 :
  getCanApplyFormats (formatMatrix this) = pre ++ next :: post →
  reduceFrom (renderStep execRender (vNodeOf this)) pre (startOf this d) = Normal (locals, d0) →
  af_handler next = Some handler →
  execRender handler (af_state next) (node locals) (af_cacheData next) d0 = Normal (model, d1) →
  noElement model →
  Single_render execRender getCanApplyFormats find this d = Throw TypeError.
Proof.
  intros Hf Hpre Hh Hr Hm. eapply render_raises; [exact Hf|exact Hpre|].
  unfold renderStep. rewrite Hh, Hr. simpl.
  destruct Hm as [-> | ->]; [done|].
  by destruct (node locals).
Qed.

(** X23.  A [ChildSlotModel] whose element is the accumulated node, or one
    of the elements that contain it, makes [render] raise a
    HierarchyRequestError: the element cannot be appended to the node. *)
Theorem slot_around_the_node_raises this d pre next post locals d0 handler slot n d1 :
  getCanApplyFormats (formatMatrix this) = pre ++ next :: post →
  reduceFrom (renderStep execRender (vNodeOf this)) pre (startOf this d) = Normal (locals, d0) →
  af_handler next = Some handler →
  node locals = Some n →
  execRender handler (af_state next) (Some n) (af_cacheData next) d0
    = Normal (ChildSlotModel (Some slot), d1) →
  is_Some (d1 !! n) →
  is_Some (d1 !! slot) →
  isInclusiveAncestor d1 (size d1) slot n = true →
  Single_render execRender getCanApplyFormats find this d = Throw HierarchyRequestError.
Proof.
  intros Hf Hpre Hh Hn Hr [ne Hne] [se Hse] Ha. eapply render_raises; [exact Hf|exact Hpre|].
  unfold renderStep. rewrite Hh, Hn, Hr. simpl.
  unfold appendChild. by rewrite Hne, Hse, Ha.
Qed.

(** The [render] of the handlers leaves the [VIRTUAL_NODE] property of the
    elements of the document alone. *)
Definition keepsTags : Prop :=
  ∀ handler state rawElement cacheData d model d1,
    execRender handler state rawElement cacheData d = Normal (model, d1) →
    ∀ l e, d !! l = Some e → ∃ e1, d1 !! l = Some e1 ∧ el_virtualNode e1 = el_virtualNode e.

(** The accumulated node is an element tagged with [vNode]. *)
Definition tagged vNode (acc : Locals * gmap nat Element) : Prop :=
  ∃ n e, node acc.1 = Some n ∧ acc.2 !! n = Some e ∧ el_virtualNode e = Some vNode.

Lemma renderStep_tagged vNode next acc acc' :
  keepsTags →
  renderStep execRender vNode next acc = Normal acc' →
  tagged vNode acc → tagged vNode acc'.
Proof.
  intros Hk Hstep (n & e & Hn & He & Hv). destruct acc as [locals d0], acc' as [locals' d'].
  simpl in *. apply renderStep_Normal in Hstep.
  destruct (af_handler next) as [handler|]; [|destruct Hstep as [-> ->]; by exists n, e].
  destruct Hstep as (model & d1 & Hr & Hm). destruct model as [r|s|].
  - destruct Hm as (l & e1 & _ & He1 & Hn' & _ & ->).
    exists l, (withVirtualNode e1 vNode). simpl. by rewrite lookup_insert_eq.
  - destruct Hm as (l & e1 & _ & Hn' & He1 & Hv1 & _). by exists l, e1.
  - destruct Hm as [-> ->].
    destruct (Hk _ _ _ _ _ _ _ Hr n e He) as (e1 & He1 & Hv1).
    exists n, e1. simpl. by rewrite Hv1.
Qed.

Lemma reduceFrom_tagged vNode formats acc acc' :
  keepsTags →
  reduceFrom (renderStep execRender vNode) formats acc = Normal acc' →
  tagged vNode acc → tagged vNode acc'.
Proof.
  intros Hk. revert acc. induction formats as [|next formats IH]; intros acc.
  - by intros [= <-].
  - cbn [reduceFrom]. destruct (renderStep execRender vNode next acc) as [acc1|] eqn:E;
      unfold mbind, completion_bind; [|done].
    intros Hr Ht. eapply IH; [exact Hr|]. by eapply renderStep_tagged.
Qed.

(** X24.  Whatever the formats render, the element [render] hands back in
    its fragment carries the virtual node of this node, provided the handlers
    do not touch that property of the elements they are given: it is set on
    the new element, on every replacement and on every slot. *)
Theorem rendered_element_is_tagged this d fragment d' :
  keepsTags →
  Single_render execRender getCanApplyFormats find this d = Normal (fragment, d') →
  ∃ n e,
    childNodes fragment = [n] ∧ d' !! n = Some e
    ∧ el_virtualNode e = Some (vNodeOf this)
    ∧ el_parent e = Some InFragment.
Proof.
  intros Hk. rewrite Single_render_unfold.
  destruct (reduceFrom (renderStep execRender (vNodeOf this))
              (getCanApplyFormats (formatMatrix this)) (startOf this d))
    as [[locals d1]|] eqn:Er; [|done].
  simpl. eapply reduceFrom_tagged in Er as (n & e & Hn & He & Hv); [|done|].
  2:{ exists (fresh (dom d)), (bareElement this None). simpl.
      by rewrite lookup_insert_eq. }
  simpl in Hn, He. rewrite Hn. unfold appendToFragment. rewrite He.
  intros [= <- <-]. exists n, (withParent e (Some InFragment)).
  split_and!; try done. apply lookup_insert_eq.
Qed.

End Render.

(** *** Samples *)

(** A handler whose [render] returns [undefined], as that of
    [ListCommander] does. *)
Definition listRender (handler : nat) (state : FormatState) (rawElement : option nat)
    (cacheData : option string) (d : gmap nat Element) :
    completion (RenderModel * gmap nat Element) :=
  Normal (NoModel, d).

Lemma render_without_models_witness :
  Single_render listRender (λ _, sampleFormats [1%nat; 2%nat]) (λ _ _, 0%nat) sampleNode ∅
  = Normal ({| childNodes := [fresh (dom (∅ : gmap nat Element))] |},
            <[fresh (dom (∅ : gmap nat Element)) :=
                bareElement (λ _, sampleFormats [1%nat; 2%nat]) (λ _ _, 0%nat) sampleNode
                  (Some InFragment)]> ∅).
Proof.
  apply (render_without_models listRender (λ _, sampleFormats [1%nat; 2%nat]) (λ _ _, 0%nat)
           sampleNode ∅).
  repeat constructor; done.
Defined.

(** Handler 1 answers with a slot that has no element. *)
Definition nullSlotRender (handler : nat) (state : FormatState) (rawElement : option nat)
    (cacheData : option string) (d : gmap nat Element) :
    completion (RenderModel * gmap nat Element) :=
  if decide (handler = 1%nat) then Normal (ChildSlotModel None, d)
  else sampleRender handler state rawElement cacheData d.

Lemma model_without_element_raises_witness :
  Single_render nullSlotRender (λ _, sampleFormats [2%nat; 1%nat]) (λ _ _, 0%nat) sampleNode ∅
  = Throw TypeError.
Proof.
  eapply (model_without_element_raises nullSlotRender (λ _, sampleFormats [2%nat; 1%nat])
            (λ _ _, 0%nat) sampleNode ∅
            (sampleFormats [2%nat]) _ []);
    [reflexivity|by vm_compute|reflexivity|reflexivity|by right].
Defined.

(** A handler that hands the element it is given back as its slot. *)
Definition echoRender (handler : nat) (state : FormatState) (rawElement : option nat)
    (cacheData : option string) (d : gmap nat Element) :
    completion (RenderModel * gmap nat Element) :=
  Normal (ChildSlotModel rawElement, d).

Lemma slot_around_the_node_raises_witness :
  Single_render echoRender (λ _, sampleFormats [1%nat]) (λ _ _, 0%nat) sampleNode ∅
  = Throw HierarchyRequestError.
Proof.
  eapply (slot_around_the_node_raises echoRender (λ _, sampleFormats [1%nat])
            (λ _ _, 0%nat) sampleNode ∅ [] _ []);
    [reflexivity|reflexivity|reflexivity|reflexivity|reflexivity
    |vm_compute; by eexists|vm_compute; by eexists|by vm_compute].
Defined.

Lemma sampleRender_keepsTags : keepsTags sampleRender.
Proof.
  intros handler state rawElement cacheData d model d1. unfold sampleRender, createElement.
  repeat case_decide; intros [= <- <-] l e He; try (by exists e);
    (exists e; split; [|done]; rewrite lookup_insert_ne; [done|];
     intros <-; by apply (is_fresh (dom d)), elem_of_dom).
Qed.

Lemma rendered_element_is_tagged_witness :
  ∃ fragment d' n e,
    Single_render sampleRender (λ _, sampleFormats [1%nat; 2%nat; 3%nat]) (λ _ _, 0%nat)
      sampleNode ∅ = Normal (fragment, d')
    ∧ childNodes fragment = [n] ∧ d' !! n = Some e
    ∧ el_virtualNode e
      = Some (vNodeOf (λ _, sampleFormats [1%nat; 2%nat; 3%nat]) (λ _ _, 0%nat) sampleNode)
    ∧ el_parent e = Some InFragment.
Proof.
  destruct (Single_render sampleRender (λ _, sampleFormats [1%nat; 2%nat; 3%nat])
              (λ _ _, 0%nat) sampleNode ∅) as [[fragment d']|] eqn:E; [|by vm_compute in E].
  exists fragment, d'.
  destruct (rendered_element_is_tagged sampleRender
              (λ _, sampleFormats [1%nat; 2%nat; 3%nat]) (λ _ _, 0%nat) sampleNode ∅
              fragment d' sampleRender_keepsTags E) as (n & e & H).
  exists n, e. by split.
Defined.

End RenderFacts.

(** ** More of [Single]: formats set by reference, and the accessors of the
    matrix in the order of its entries *)

Module SingleFacts.
Import JS Core Format Store.

(** *** [setFormats] keeps the array it is given *)

(** X25.  [setFormats] stores the array itself, not a copy: when the same
    array is set under a key on two nodes, the two nodes have the same ranges
    under that key whatever is done to the array afterwards (ranges pushed,
    removed or changed), and these are the ranges of that array. *)
Theorem setFormats_shares_the_array (h : gmap nat object) (a b key array : nat)
    pa ta ma pb tb mb ea eb :
  h !! a = Some (OSingle pa ta ma) →
  h !! b = Some (OSingle pb tb mb) →
  h !! ma = Some (OMap ea) →
  h !! mb = Some (OMap eb) →
  ma ≠ mb →
  ∃ h2,
    (Single_setFormats a key array;; Single_setFormats b key array) h = Normal ((), h2)
    ∧ ∀ h3 va vb,
        h3 !! a = h2 !! a → h3 !! b = h2 !! b → h3 !! ma = h2 !! ma → h3 !! mb = h2 !! mb →
        reifySingle h3 a = Some va →
        reifySingle h3 b = Some vb →
        formatMatrix va !! key = reifyArray h3 array
        ∧ formatMatrix vb !! key = reifyArray h3 array.
Proof.
  intros Ha Hb Hma Hmb Hne.
  assert (a ≠ ma) as Hama by (intros ->; rewrite Ha in Hma; done).
  assert (b ≠ ma) as Hbma by (intros ->; rewrite Hb in Hma; done).
  assert (a ≠ mb) as Hamb by (intros ->; rewrite Ha in Hmb; done).
  assert (b ≠ mb) as Hbmb by (intros ->; rewrite Hb in Hmb; done).
  set (h1 := <[ma := OMap (<[key := array]> ea)]> h).
  set (h2 := <[mb := OMap (<[key := array]> eb)]> h1).
  assert (∀ s p t m (e : gmap nat nat) (h0 h3 : gmap nat object) v,
            h0 !! s = Some (OSingle p t m) → h0 !! m = Some (OMap (<[key := array]> e)) →
            h3 !! s = h0 !! s → h3 !! m = h0 !! m →
            reifySingle h3 s = Some v → formatMatrix v !! key = reifyArray h3 array) as Hread.
  { intros s p t m e h0 h3 v Hs Hm Hs3 Hm3. unfold reifySingle. rewrite Hs3, Hs.
    unfold reifyMatrix. rewrite Hm3, Hm. case_decide; [|done]. intros [= <-]. simpl.
    by rewrite lookup_omap, lookup_insert_eq. }
  exists h2. split.
  - unfold Single_setFormats, mapSet, readSingle, readMap, write, mbind, M_bind.
    rewrite Ha, Hma. fold h1.
    assert (h1 !! b = Some (OSingle pb tb mb)) as -> by (unfold h1; by rewrite lookup_insert_ne).
    assert (h1 !! mb = Some (OMap eb)) as -> by (unfold h1; by rewrite lookup_insert_ne).
    done.
  - intros h3 va vb Ha3 Hb3 Hma3 Hmb3 Hva Hvb. split.
    + eapply (Hread a pa ta ma ea h2); [| |done|done|done].
      * unfold h2, h1. by rewrite !lookup_insert_ne.
      * unfold h2, h1. rewrite lookup_insert_ne by done. apply lookup_insert_eq.
    + eapply (Hread b pb tb mb eb h2); [| |done|done|done].
      * unfold h2, h1. by rewrite !lookup_insert_ne.
      * unfold h2. apply lookup_insert_eq.
Qed.

(** Two nodes, and an array holding one bold range. *)
Definition twoNodes : gmap nat object :=
  {[ 0%nat := OSingle 100 "img" 1;
     1%nat := OMap ∅;
     2%nat := OSingle 100 "br" 3;
     3%nat := OMap ∅;
     4%nat := OArray [5%nat];
     5%nat := ORange 0 1 Valid 6 None 7;
     6%nat := OData strong ]}.

Lemma setFormats_shares_the_array_witness :
  ∃ h2,
    (Single_setFormats 0 7 4;; Single_setFormats 2 7 4) twoNodes = Normal ((), h2)
    ∧ ∀ h3 va vb,
        h3 !! 0%nat = h2 !! 0%nat → h3 !! 2%nat = h2 !! 2%nat →
        h3 !! 1%nat = h2 !! 1%nat → h3 !! 3%nat = h2 !! 3%nat →
        reifySingle h3 0 = Some va →
        reifySingle h3 2 = Some vb →
        formatMatrix va !! 7%nat = reifyArray h3 4
        ∧ formatMatrix vb !! 7%nat = reifyArray h3 4.
Proof.
  by apply (setFormats_shares_the_array twoNodes 0 2 7 4 100 "img" 1 100 "br" 3 ∅ ∅).
Defined.

(** The array emptied after it was set on both nodes: both nodes have lost
    the range. *)
Example shared_array_sample :
  ∃ h2, (Single_setFormats 0 7 4;; Single_setFormats 2 7 4) twoNodes = Normal ((), h2)
    ∧ (reifySingle h2 0 ≫= λ v, formatMatrix v !! 7%nat) = Some [bold 0 1 Valid]
    ∧ (reifySingle (<[4%nat := OArray []]> h2) 0 ≫= λ v, formatMatrix v !! 7%nat) = Some []
    ∧ (reifySingle (<[4%nat := OArray []]> h2) 2 ≫= λ v, formatMatrix v !! 7%nat) = Some [].
Proof. eexists. split_and!; by vm_compute. Qed.

(** *** The accessors, in the order of the entries *)

Section Ordered.

Context {Handler Range : Type} `{EqDecision Handler}.

(** A [Map] with its entries in the order of insertion. *)
Definition JsMap : Type := list (Handler * list Range).

(** [map.set(key, value)]: the value of an entry is replaced where the entry
    is, a new entry goes last. *)
Fixpoint jsSet (key : Handler) (value : list Range) (m : JsMap) : JsMap :=
  match m with
  | [] => [(key, value)]
  | (k, v) :: rest =>
      if decide (k = key) then (key, value) :: rest else (k, v) :: jsSet key value rest
  end.

(** [map.get(key)]. *)
Fixpoint jsGet (key : Handler) (m : JsMap) : option (list Range) :=
  match m with
  | [] => None
  | (k, v) :: rest => if decide (k = key) then Some v else jsGet key rest
  end.

(** The matrix of a node, and the methods of [Single] that read or write it
    without [mergeFormat]. *)
Definition getFormatRangesByHandler (formatMatrix : JsMap) (handler : Handler) :
    option (list Range) :=
  jsGet handler formatMatrix.

Definition cleanFormats (formatMatrix : JsMap) : JsMap := [].

Definition getFormatHandlers (formatMatrix : JsMap) : list Handler := formatMatrix.*1.

Definition getFormatRanges (formatMatrix : JsMap) : list Range :=
  foldl (λ v n, v ++ n) [] formatMatrix.*2.

Definition setFormats (key : Handler) (formatRanges : list Range) (formatMatrix : JsMap) :
    JsMap :=
  jsSet key formatRanges formatMatrix.

(** The calls made on a node. *)
Inductive Call :=
  | SetFormats (key : Handler) (formatRanges : list Range)
  | CleanFormats.

Definition call (c : Call) (formatMatrix : JsMap) : JsMap :=
  match c with
  | SetFormats key formatRanges => setFormats key formatRanges formatMatrix
  | CleanFormats => cleanFormats formatMatrix
  end.

(** The matrix of a new node after the calls. *)
Definition after (calls : list Call) : JsMap := foldl (λ m c, call c m) [] calls.

Lemma jsSet_keys key value (m : JsMap) :
  (jsSet key value m).*1 = if decide (key ∈ m.*1) then m.*1 else m.*1 ++ [key].
Proof.
  induction m as [|[k v] m IH]; [done|].
  cbn [jsSet fmap list_fmap fst].
  destruct (decide (k = key)) as [->|Hne]; cbn [fmap list_fmap fst].
  - rewrite decide_True; [done|]. apply elem_of_cons. by left.
  - rewrite IH. destruct (decide (key ∈ m.*1)) as [Hin|Hnin].
    + rewrite decide_True; [done|]. apply elem_of_cons. by right.
    + rewrite decide_False; [done|]. rewrite elem_of_cons. by intros [->|?].
Qed.

Lemma jsSet_NoDup key value (m : JsMap) : NoDup m.*1 → NoDup (jsSet key value m).*1.
Proof.
  intros Hm. rewrite jsSet_keys. case_decide; [done|].
  apply NoDup_app. split_and!; [done| |apply NoDup_singleton].
  intros x Hx ->%list_elem_of_singleton. done.
Qed.

Lemma after_NoDup (calls : list Call) : NoDup (after calls).*1.
Proof.
  unfold after. generalize (NoDup_nil_2 (A := Handler)).
  change (@nil Handler) with ((@nil (Handler * list Range)).*1).
  generalize (@nil (Handler * list Range)) as m. induction calls as [|c calls IH]; intros m Hm;
    [done|].
  simpl. apply IH. destruct c as [key value|]; simpl; [by apply jsSet_NoDup|apply NoDup_nil_2].
Qed.

Lemma foldl_concat (acc : list Range) (l : list (list Range)) :
  foldl (λ v n, v ++ n) acc l = acc ++ concat l.
Proof.
  revert acc. induction l as [|x l IH]; intros acc; simpl; [by rewrite app_nil_r|].
  rewrite IH. by rewrite app_assoc.
Qed.

Lemma jsGet_elem (m : JsMap) k v : NoDup m.*1 → (k, v) ∈ m → jsGet k m = Some v.
Proof.
  induction m as [|[k' v'] m IH]; [by intros _ ?%elem_of_nil|].
  cbn [jsGet fmap list_fmap fst]. intros [Hk Hm]%NoDup_cons [[= -> ->]|Hin]%elem_of_cons.
  - by rewrite decide_True.
  - rewrite decide_False; [by apply IH|].
    intros ->. apply Hk. apply list_elem_of_fmap. by exists (k, v).
Qed.

Lemma concat_by_key (m m0 : JsMap) :
  (∀ k v, (k, v) ∈ m → jsGet k m0 = Some v) →
  concat m.*2 = m.*1 ≫= λ handler, default [] (jsGet handler m0).
Proof.
  induction m as [|[k v] m IH]; intros Hget; [done|].
  cbn [fmap list_fmap fst snd concat mbind list_bind].
  rewrite (Hget k v) by (apply elem_of_cons; by left).
  cbn [default]. f_equal. apply IH. intros k' v' Hin. apply Hget, elem_of_cons. by right.
Qed.

Lemma ranges_by_handler (m : JsMap) :
  NoDup m.*1 →
  getFormatRanges m = getFormatHandlers m ≫= λ handler,
                        default [] (getFormatRangesByHandler m handler).
Proof.
  intros Hm. unfold getFormatRanges, getFormatHandlers, getFormatRangesByHandler.
  rewrite foldl_concat. cbn [app]. apply concat_by_key. intros k v. by apply jsGet_elem.
Qed.

(** X26.  On a node whose formats were only ever set by [setFormats] and
    removed by [cleanFormats], no handler is listed twice by
    [getFormatHandlers], a handler is listed exactly when
    [getFormatRangesByHandler] knows it, and [getFormatRanges] is the ranges
    of the handlers one after the other, in the order [getFormatHandlers]
    gives. *)
Theorem accessors_agree (calls : list Call) :
  NoDup (getFormatHandlers (after calls))
  ∧ (∀ handler, handler ∈ getFormatHandlers (after calls)
                ↔ is_Some (getFormatRangesByHandler (after calls) handler))
  ∧ getFormatRanges (after calls)
    = getFormatHandlers (after calls) ≫= λ handler,
        default [] (getFormatRangesByHandler (after calls) handler).
Proof.
  split_and!.
  - apply after_NoDup.
  - intros handler. unfold getFormatHandlers, getFormatRangesByHandler.
    induction (after calls) as [|[k v] m IH]; simpl.
    + split; [by intros ?%elem_of_nil|by intros [? ?]].
    + rewrite elem_of_cons. destruct (decide (k = handler)) as [->|Hne].
      * split; [by eexists|by left].
      * rewrite <- IH. split; [by intros [->|?]|by right].
  - apply ranges_by_handler, after_NoDup.
Qed.

End Ordered.

Example accessors_sample :
  getFormatHandlers (after [SetFormats 7%nat ["a"; "b"]; SetFormats 3%nat ["c"];
                            SetFormats 7%nat ["d"]])
    = [7%nat; 3%nat]
  ∧ getFormatRanges (after [SetFormats 7%nat ["a"; "b"]; SetFormats 3%nat ["c"];
                            SetFormats 7%nat ["d"]])
    = ["d"; "c"].
Proof. by vm_compute. Qed.

End SingleFacts.
